(** * TKOM-Compiler: the recursive-descent parser of [src/parser/Parser.cpp]

    A shallow embedding of the parser: the token cursor, the parent-linked
    blocks, the function table and every [Parser::parse*] member function,
    followed by the properties the specification states about them. *)

From Stdlib Require Import ZArith Lia.
From stdpp Require Import base option list strings gmap.

Open Scope Z_scope.
Open Scope nat_scope.

(** ** Tokens *)

(** The token types the parser tests for ([scanner::TokenType]). *)
Inductive TokenType :=
| T_EOF | I_Identifier | L_Numeric
| K_Fun | K_Var | K_If | K_Else | K_While | K_Return | K_Break | K_Continue
| K_Len | K_Append
| T_OpenParen | T_CloseParen | T_OpenBrace | T_CloseBrace
| T_OpenBracket | T_CloseBracket | T_Comma | T_Semicolon | T_Colon
| T_Equal | T_Equal2 | T_NotEqual | T_LessThan | T_LeEqThan
| T_GreaterThan | T_GrEqThan | T_Plus | T_Minus | T_Asterisk | T_Slash
| T_Exclamation | T_Bar2 | T_Ampersand2.

#[global] Instance TokenType_eq_dec : EqDecision TokenType.
Proof. solve_decision. Defined.

(** A token: its type, and the payloads read by [getString] (identifiers)
    and [getInteger] (numeric literals). *)
Record Token := mkToken {
  getType : TokenType;
  getString : string;
  getInteger : Z
}.

Definition tok (t : TokenType) : Token := mkToken t "" 0%Z.
Definition ident (s : string) : Token := mkToken I_Identifier s 0%Z.
Definition num (n : Z) : Token := mkToken L_Numeric "" n.

(** ** Values and syntax trees *)

(** Modelled from the spec: the value class [Var] (declared in the AST
    headers): a scalar integer or a list of integers. *)
Inductive Var :=
| Scalar (n : Z)
| List (ns : list Z).

(** Modelled from the spec: [Var()], the value of a variable declared
    without initializer, is the zero scalar. *)
Definition defaultVar : Var := Scalar 0.

(** Blocks live in a store; a [BlockStatement*] is an index into it. *)
Abbreviation BlockId := nat.

(** A [Var&] obtained from [findVariable]: the block holding the slot and
    the name under which the block stores it. *)
Record VarRef := mkRef {
  ref_block : BlockId;
  ref_name : string
}.

#[global] Instance VarRef_eq_dec : EqDecision VarRef.
Proof. solve_decision. Defined.

Inductive RelOp :=
| Equal | NotEqual | LessThan | LessEqual | GreaterThan | GreaterEqual.
Inductive AddOp := Plus | Minus.
Inductive MulOp := Multiply | Divide.

(** [ast::Return], as far as the parser uses it. *)
Inductive Return := Continue | Break.

(** The node classes the parser instantiates.  [BaseMathExpr] has one
    constructor overload per [Operand] case; its last argument is the
    unary-minus flag.  [AssignStatement] records which overload built it
    in [bracket]: [Some true] for the indexed one, [Some false] for the
    plain one, and [None] where [parseAssignStatement] chooses between
    them on a local [bool bracket] it never assigned. *)
Unset Elimination Schemes.
Inductive Expression :=
| OrExpr (first : Expression) (ors : list Expression)
| AndExpr (first : Expression) (ands : list Expression)
| RelationExpr (lhs : Expression) (rel : option (RelOp * Expression))
| BaseLogicExpr (e : Expression) (negated : bool)
| AddExpr (first : Expression) (rest : list (AddOp * Expression))
| MultiExpr (first : Expression) (rest : list (MulOp * Expression))
| BaseMathExpr (o : Operand) (unary : bool)
with Operand :=
| OLiteral (v : Var)
| OExpr (e : Expression)
| OStmt (s : Statement)
| OVar (v : VarRef)
| OIndex (v : VarRef) (indexExpr : Expression)
| OSlice (v : VarRef) (indexExpr indexExprSlice : Expression)
with Statement :=
| AssignStatement (v : VarRef) (bracket : option bool)
    (indexExpr : option Expression) (e : Expression)
| IfStatement (cond : Expression) (ifBlock : BlockId)
    (elseBlock : option BlockId)
| WhileStatement (cond : Expression) (whileBlock : BlockId)
| ReturnStatement (r : Return)
| ReturnStatementExpr (e : Expression)
| FunctionCall (callee : string) (args : list Expression)
| AppendStatement (from to : VarRef)
| LenStatement (v : VarRef)
| NestedBlock (b : BlockId).
Set Elimination Schemes.

(** Modelled from the spec: [ast::BlockStatement] (declared in the AST
    headers): the enclosing block, the variables declared in the block and
    its statements in order. *)
Record BlockStatement := mkBlock {
  getParent : option BlockId;
  variables : gmap string Var;
  statements : list Statement
}.

(** Modelled from the spec: [ast::FunctionDefinition]: name, ordered
    parameter names and the function's top-level block. *)
Record FunctionDefinition := mkFun {
  fun_name : string;
  params : list string;
  getFunctionBlock : BlockId
}.

(** ** The parser object *)

(** [scr] is what the scanner has left to deliver, its head being
    [scr->getToken()]; [current] the token consumed last; [block] the
    current-block pointer (nullable); [program] the function table;
    [heap] the store of all blocks allocated so far. *)
Record Parser := mkParser {
  scr : list Token;
  current : Token;
  block : option BlockId;
  program : gmap string FunctionDefinition;
  heap : list BlockStatement
}.

Definition with_block (ob : option BlockId) (st : Parser) : Parser :=
  mkParser (scr st) (current st) ob (program st) (heap st).
Definition with_heap (h : list BlockStatement) (st : Parser) : Parser :=
  mkParser (scr st) (current st) (block st) (program st) h.
Definition with_program (p : gmap string FunctionDefinition) (st : Parser)
  : Parser :=
  mkParser (scr st) (current st) (block st) p (heap st).

(** Modelled from the spec: the scanner's lookahead token
    ([scr->getToken()], which is also the parser's [next]); an exhausted
    scanner keeps delivering [T_EOF]. *)
Definition getToken (st : Parser) : Token :=
  match scr st with
  | t :: _ => t
  | [] => tok T_EOF
  end.

(** Modelled from the spec: [Parser::move] (defined in Parser.hpp), the
    "advance" operation: the lookahead becomes [current] and the scanner
    reads one token further. *)
Definition move_state (st : Parser) : Parser :=
  mkParser (tail (scr st)) (getToken st) (block st) (program st) (heap st).

(** The parser before anything was read. *)
Definition init (toks : list Token) : Parser :=
  mkParser toks (tok T_EOF) None ∅ [].

(** ** Faults *)

(** One constructor per [std::runtime_error] the parser throws, named as
    in the specification's taxonomy; [NullDereference] stands for the
    use of a null or dangling block or function pointer. *)
Inductive Error :=
| SyntaxError              (* "Wrong token ..." *)
| BlockParseInvalid        (* "Block parse invalid" *)
| DuplicateVariable        (* "Variable already initialized" *)
| UndefinedVariable        (* "Variable not found: ..." *)
| UndefinedFunction        (* "Function not found: ..." *)
| ArityMismatch            (* "Wrong number of parameters in functionCall" *)
| UnrecognizedExpression   (* "Unknown math expression" *)
| NullDereference.

#[global] Instance Error_eq_dec : EqDecision Error.
Proof. solve_decision. Defined.

(** A member function returns a value, or throws; either way the parser
    object is left in some state.  [OutOfFuel] is the model running out
    of recursion budget, not a behaviour of the program. *)
Inductive outcome (A : Type) :=
| Ok (a : A) (st : Parser)
| Throw (e : Error) (st : Parser)
| OutOfFuel.
Arguments Ok {A} a st.
Arguments Throw {A} e st.
Arguments OutOfFuel {A}.

Definition M (A : Type) : Type := Parser -> outcome A.

Definition ret {A} (a : A) : M A := fun st => Ok a st.
Definition throw {A} (e : Error) : M A := fun st => Throw e st.
Definition out_of_fuel {A} : M A := fun _ => OutOfFuel.
Definition bind {A B} (m : M A) (f : A -> M B) : M B := fun st =>
  match m st with
  | Ok a st' => f a st'
  | Throw e st' => Throw e st'
  | OutOfFuel => OutOfFuel
  end.
Definition gets {A} (f : Parser -> A) : M A := fun st => Ok (f st) st.
Definition modify (f : Parser -> Parser) : M unit := fun st => Ok tt (f st).

Declare Scope parser_scope.
Delimit Scope parser_scope with parser.
Notation "x <- m ;; k" := (bind m (fun x => k))
  (at level 20, m at level 99, k at level 200, only parsing) : parser_scope.
Notation "m ;; k" := (bind m (fun _ => k))
  (at level 100, k at level 200, only parsing, right associativity)
  : parser_scope.
Open Scope parser_scope.

(** ** Token cursor *)

Definition THROW : bool := true.
Definition NOTHROW : bool := false.

Definition move : M unit := modify move_state.

(** [Parser::accept]. *)
Definition accept (type : TokenType) (doThrow : bool) : M bool := fun st =>
  if decide (getType (getToken st) = type) then Ok true (move_state st)
  else if doThrow then Throw SyntaxError st else Ok false st.

(** Modelled from the spec: the default of [accept]'s [doThrow]
    (declared in Parser.hpp): the primary alternatives are tried in
    order, so a call without the argument reports non-match. *)
Definition accept_default : bool := NOTHROW.

Definition accept1 (type : TokenType) : M bool := accept type accept_default.

(** ** Blocks and the function table *)

Module Block.

(** Modelled from the spec: [BlockStatement::existVariable], which walks
    the parent links outward from a block until the name is found or the
    chain is exhausted.  [k] bounds the walk; the parser passes the size
    of the store, which no chain of distinct blocks exceeds. *)
Fixpoint existVariable_walk (k : nat) (h : list BlockStatement)
    (ob : option BlockId) (name : string) : bool :=
  match k with
  | 0 => false
  | S k' =>
      match ob with
      | None => false
      | Some b =>
          match h !! b with
          | None => false
          | Some blk =>
              if decide (is_Some (variables blk !! name)) then true
              else existVariable_walk k' h (getParent blk) name
          end
      end
  end.

(** Modelled from the spec: [BlockStatement::findVariable]: the same
    walk, yielding the slot of the first block that declares the name. *)
Fixpoint findVariable_walk (k : nat) (h : list BlockStatement)
    (ob : option BlockId) (name : string) : option VarRef :=
  match k with
  | 0 => None
  | S k' =>
      match ob with
      | None => None
      | Some b =>
          match h !! b with
          | None => None
          | Some blk =>
              if decide (is_Some (variables blk !! name))
              then Some (mkRef b name)
              else findVariable_walk k' h (getParent blk) name
          end
      end
  end.

Definition existVariable (b : BlockId) (name : string) : M bool :=
  gets (fun st =>
    existVariable_walk (length (heap st)) (heap st) (Some b) name).

(** Modelled from the spec: a lookup that exhausts the chain is the
    fault [UndefinedVariable]. *)
Definition findVariable (b : BlockId) (name : string) : M VarRef :=
  fun st =>
    match findVariable_walk (length (heap st)) (heap st) (Some b) name with
    | Some r => Ok r st
    | None => Throw UndefinedVariable st
    end.

(** Modelled from the spec: [BlockStatement::addVariable] writes into
    the given block only. *)
Definition declare (name : string) (v : Var) (blk : BlockStatement)
  : BlockStatement :=
  mkBlock (getParent blk) (<[name := v]> (variables blk)) (statements blk).

Definition addVariable (b : BlockId) (name : string) (v : Var) : M unit :=
  modify (fun st => with_heap (alter (declare name v) b (heap st)) st).

(** Modelled from the spec: [BlockStatement::addStatement] appends. *)
Definition push (s : Statement) (blk : BlockStatement) : BlockStatement :=
  mkBlock (getParent blk) (variables blk) (statements blk ++ [s]).

Definition addStatement (b : BlockId) (s : Statement) : M unit :=
  modify (fun st => with_heap (alter (push s) b (heap st)) st).

(** Modelled from the spec: the constructor [BlockStatement(parent)], as
    in [std::make_unique<BlockStatement>(parent)]: a fresh block without
    variables or statements, linked to [parent]. *)
Definition make (parent : option BlockId) : M BlockId := fun st =>
  Ok (length (heap st)) (with_heap (heap st ++ [mkBlock parent ∅ []]) st).

(** Modelled from the spec: [BlockStatement::getParent], read through a
    reference to block [b]. *)
Definition parentOf (b : BlockId) : M (option BlockId) := fun st =>
  match heap st !! b with
  | Some blk => Ok (getParent blk) st
  | None => Throw NullDereference st
  end.

End Block.

Module Program.

(** Modelled from the spec: the function table ([ast::Program], with
    [existFunction], [findFunction] and [addFunction]) maps a name to its
    definition; adding a name again overwrites. *)
Definition existFunction (name : string) : M bool :=
  gets (fun st => bool_decide (is_Some (program st !! name))).

Definition findFunction (name : string) : M FunctionDefinition := fun st =>
  match program st !! name with
  | Some fd => Ok fd st
  | None => Throw NullDereference st
  end.

Definition addFunction (fd : FunctionDefinition) : M unit :=
  modify (fun st => with_program (<[fun_name fd := fd]> (program st)) st).

End Program.

(** Modelled from the spec: [FunctionDefinition::size] is the declared
    parameter count. *)
Definition size (fd : FunctionDefinition) : nat := length (params fd).

(** [*block]: the block the cursor points to. *)
Definition getBlock : M BlockId := fun st =>
  match block st with
  | Some b => Ok b st
  | None => Throw NullDereference st
  end.

Definition setBlock (ob : option BlockId) : M unit := modify (with_block ob).

(** [Parser::existVariable]. *)
Definition existVariable : M bool :=
  b <- getBlock ;;
  cur <- gets current ;;
  ex <- Block.existVariable b (getString cur) ;;
  if ex then ret true else throw UndefinedVariable.

(** [block->findVariable(name)]. *)
Definition findVariable (name : string) : M VarRef :=
  b <- getBlock ;;
  Block.findVariable b name.

(** ** Leaf parsers *)

(** [Parser::parseAppendStatement]. *)
Definition parseAppendStatement : M Statement :=
  accept T_OpenParen THROW ;;
  accept I_Identifier THROW ;;
  cur <- gets current ;;
  from <- findVariable (getString cur) ;;
  accept T_Comma THROW ;;
  accept I_Identifier THROW ;;
  cur <- gets current ;;
  to <- findVariable (getString cur) ;;
  accept T_CloseParen THROW ;;
  accept T_Semicolon THROW ;;
  ret (AppendStatement from to).

(** [Parser::parseLenStatement]. *)
Definition parseLenStatement : M Statement :=
  accept T_OpenParen THROW ;;
  accept I_Identifier THROW ;;
  cur <- gets current ;;
  var <- findVariable (getString cur) ;;
  accept T_CloseParen THROW ;;
  ret (LenStatement var).

(** The [while] loop of [Parser::parseVectorLiteral]. *)
Fixpoint parseVectorLiteral_loop (fuel : nat) (vars : list Z)
  : M (list Z) :=
  match fuel with
  | 0 => out_of_fuel
  | S n =>
      more <- accept T_Comma NOTHROW ;;
      if more then
        accept L_Numeric THROW ;;
        cur <- gets current ;;
        parseVectorLiteral_loop n (vars ++ [getInteger cur])
      else ret vars
  end.

(** [Parser::parseVectorLiteral]. *)
Definition parseVectorLiteral (fuel : nat) : M Var :=
  first <- accept L_Numeric THROW ;;
  cur <- gets current ;;
  vars <- parseVectorLiteral_loop fuel
            (if first then [getInteger cur] else []) ;;
  accept T_CloseBracket THROW ;;
  ret (List vars).

(** Modelled from the spec: [FunctionDefinition::addParam] records the
    name and declares it in the function's top-level block. *)
Definition addParam (fd : FunctionDefinition) (name : string)
  : M FunctionDefinition :=
  Block.addVariable (getFunctionBlock fd) name defaultVar ;;
  ret (mkFun (fun_name fd) (params fd ++ [name]) (getFunctionBlock fd)).

(** The [while] loop of [Parser::parseArgs]. *)
Fixpoint parseArgs_loop (fuel : nat) (fd : FunctionDefinition)
  : M FunctionDefinition :=
  match fuel with
  | 0 => out_of_fuel
  | S n =>
      more <- accept T_Comma NOTHROW ;;
      if more then
        accept I_Identifier THROW ;;
        cur <- gets current ;;
        fd' <- addParam fd (getString cur) ;;
        parseArgs_loop n fd'
      else ret fd
  end.

(** [Parser::parseArgs]; the definition under construction is threaded
    through, as it is still owned by the caller's local. *)
Definition parseArgs (fuel : nat) (fd : FunctionDefinition)
  : M FunctionDefinition :=
  some <- accept I_Identifier NOTHROW ;;
  fd' <- (if some then
            cur <- gets current ;;
            fd1 <- addParam fd (getString cur) ;;
            parseArgs_loop fuel fd1
          else ret fd) ;;
  accept T_CloseParen THROW ;;
  ret fd'.

(** Modelled from the spec: the constructor [FunctionDefinition(name)],
    as in [std::make_unique<FunctionDefinition>(name)]: no parameters
    yet, and a top-level block without parent. *)
Definition makeFunctionDefinition (name : string) : M FunctionDefinition :=
  b <- Block.make None ;;
  ret (mkFun name [] b).

(** ** The recursive descent *)

(** The expression parsers and [Parser::parseFunCall], which call one
    another.  [fuel] bounds the depth of the recursion: every call and
    every loop iteration spends one unit. *)
Fixpoint parseOrExpr (fuel : nat) {struct fuel} : M Expression :=
  match fuel with
  | 0 => out_of_fuel
  | S n =>
      first <- parseAndExpr n ;;
      parseOrExpr_loop n first []
  end

with parseOrExpr_loop (fuel : nat) (first : Expression)
    (ors : list Expression) {struct fuel} : M Expression :=
  match fuel with
  | 0 => out_of_fuel
  | S n =>
      more <- accept T_Bar2 NOTHROW ;;
      if more then
        e <- parseAndExpr n ;;
        parseOrExpr_loop n first (ors ++ [e])
      else ret (OrExpr first ors)
  end

with parseAndExpr (fuel : nat) {struct fuel} : M Expression :=
  match fuel with
  | 0 => out_of_fuel
  | S n =>
      first <- parseRelExpr n ;;
      parseAndExpr_loop n first []
  end

with parseAndExpr_loop (fuel : nat) (first : Expression)
    (ands : list Expression) {struct fuel} : M Expression :=
  match fuel with
  | 0 => out_of_fuel
  | S n =>
      more <- accept T_Ampersand2 NOTHROW ;;
      if more then
        e <- parseRelExpr n ;;
        parseAndExpr_loop n first (ands ++ [e])
      else ret (AndExpr first ands)
  end

with parseRelExpr (fuel : nat) {struct fuel} : M Expression :=
  match fuel with
  | 0 => out_of_fuel
  | S n =>
      lhs <- parseBaseLogicExpr n ;;
      next <- gets getToken ;;
      let rhs (op : RelOp) : M Expression :=
        move ;;
        r <- parseBaseLogicExpr n ;;
        ret (RelationExpr lhs (Some (op, r))) in
      match getType next with
      | T_Equal2 => rhs Equal
      | T_NotEqual => rhs NotEqual
      | T_LessThan => rhs LessThan
      | T_LeEqThan => rhs LessEqual
      | T_GreaterThan => rhs GreaterThan
      | T_GrEqThan => rhs GreaterEqual
      | _ => ret (RelationExpr lhs None)
      end
  end

with parseBaseLogicExpr (fuel : nat) {struct fuel} : M Expression :=
  match fuel with
  | 0 => out_of_fuel
  | S n =>
      negated <- accept1 T_Exclamation ;;
      if negated then e <- parseAddExpr n ;; ret (BaseLogicExpr e true)
      else e <- parseAddExpr n ;; ret (BaseLogicExpr e false)
  end

with parseAddExpr (fuel : nat) {struct fuel} : M Expression :=
  match fuel with
  | 0 => out_of_fuel
  | S n =>
      first <- parseMultExpr n ;;
      parseAddExpr_loop n first []
  end

with parseAddExpr_loop (fuel : nat) (first : Expression)
    (rest : list (AddOp * Expression)) {struct fuel} : M Expression :=
  match fuel with
  | 0 => out_of_fuel
  | S n =>
      next <- gets getToken ;;
      match getType next with
      | T_Plus =>
          move ;; e <- parseMultExpr n ;;
          parseAddExpr_loop n first (rest ++ [(Plus, e)])
      | T_Minus =>
          move ;; e <- parseMultExpr n ;;
          parseAddExpr_loop n first (rest ++ [(Minus, e)])
      | _ => ret (AddExpr first rest)
      end
  end

with parseMultExpr (fuel : nat) {struct fuel} : M Expression :=
  match fuel with
  | 0 => out_of_fuel
  | S n =>
      first <- parseBaseMathExpr n ;;
      parseMultExpr_loop n first []
  end

with parseMultExpr_loop (fuel : nat) (first : Expression)
    (rest : list (MulOp * Expression)) {struct fuel} : M Expression :=
  match fuel with
  | 0 => out_of_fuel
  | S n =>
      next <- gets getToken ;;
      match getType next with
      | T_Asterisk =>
          move ;; e <- parseBaseMathExpr n ;;
          parseMultExpr_loop n first (rest ++ [(Multiply, e)])
      | T_Slash =>
          move ;; e <- parseBaseMathExpr n ;;
          parseMultExpr_loop n first (rest ++ [(Divide, e)])
      | _ => ret (MultiExpr first rest)
      end
  end

with parseBaseMathExpr (fuel : nat) {struct fuel} : M Expression :=
  match fuel with
  | 0 => out_of_fuel
  | S n =>
      unary <- accept T_Minus NOTHROW ;;
      isNum <- accept L_Numeric NOTHROW ;;
      if isNum then
        cur <- gets current ;;
        ret (BaseMathExpr (OLiteral (Scalar (getInteger cur))) unary)
      else
      isList <- accept1 T_OpenBracket ;;
      if isList then
        v <- parseVectorLiteral n ;;
        ret (BaseMathExpr (OLiteral v) unary)
      else
      isParen <- accept1 T_OpenParen ;;
      if isParen then
        e <- parseOrExpr n ;;
        accept T_CloseParen THROW ;;
        ret (BaseMathExpr (OExpr e) unary)
      else
      isLen <- accept1 K_Len ;;
      if isLen then
        s <- parseLenStatement ;;
        ret (BaseMathExpr (OStmt s) unary)
      else
      isId <- accept1 I_Identifier ;;
      if isId then
        tk <- gets current ;;
        call <- accept1 T_OpenParen ;;
        if call then
          s <- parseFunCall n (getString tk) ;;
          ret (BaseMathExpr (OStmt s) unary)
        else
          existVariable ;;
          indexed <- accept T_OpenBracket NOTHROW ;;
          if indexed then
            e <- parseOrExpr n ;;
            let indexExpr := OrExpr e [] in
            slice <- accept T_Colon NOTHROW ;;
            baseMathExpr <-
              (if slice then
                 e2 <- parseOrExpr n ;;
                 let indexExprSlice := OrExpr e2 [] in
                 v <- findVariable (getString tk) ;;
                 ret (BaseMathExpr (OSlice v indexExpr indexExprSlice) unary)
               else
                 v <- findVariable (getString tk) ;;
                 ret (BaseMathExpr (OIndex v indexExpr) unary)) ;;
            accept T_CloseBracket THROW ;;
            ret baseMathExpr
          else
            cur <- gets current ;;
            v <- findVariable (getString cur) ;;
            ret (BaseMathExpr (OVar v) unary)
      else throw UnrecognizedExpression
  end

with parseFunCall (fuel : nat) (name : string) {struct fuel} : M Statement :=
  match fuel with
  | 0 => out_of_fuel
  | S n =>
      known <- Program.existFunction name ;;
      if negb known then throw UndefinedFunction else
      closed <- accept T_CloseParen NOTHROW ;;
      args <- (if closed then ret []
               else e <- parseOrExpr n ;; parseFunCall_loop n [e]) ;;
      functionDef <- Program.findFunction name ;;
      if decide (size functionDef ≠ length args) then throw ArityMismatch
      else ret (FunctionCall name args)
  end

with parseFunCall_loop (fuel : nat) (args : list Expression) {struct fuel}
  : M (list Expression) :=
  match fuel with
  | 0 => out_of_fuel
  | S n =>
      closed <- accept T_CloseParen NOTHROW ;;
      if closed then ret args else
      accept T_Comma THROW ;;
      e <- parseOrExpr n ;;
      parseFunCall_loop n (args ++ [e])
  end.

(** The statement parsers that only descend into expressions; they hand
    their [fuel] on. *)

(** [Parser::parseInitStatement]. *)
Definition parseInitStatement (fuel : nat) : M Statement :=
  accept I_Identifier THROW ;;
  cur <- gets current ;;
  let id := getString cur in
  b <- getBlock ;;
  declared <- Block.existVariable b id ;;
  if declared then throw DuplicateVariable else
  Block.addVariable b id defaultVar ;;
  init <- accept T_Equal NOTHROW ;;
  expr <- (if init then parseOrExpr fuel
           else ret (BaseMathExpr (OLiteral defaultVar) false)) ;;
  accept T_Semicolon THROW ;;
  v <- findVariable id ;;
  ret (AssignStatement v (Some false) None expr).

(** [Parser::parseAssignStatement]. *)
Definition parseAssignStatement (fuel : nat) (variable : VarRef)
  : M Statement :=
  open <- accept T_OpenBracket NOTHROW ;;
  indexExpr <- (if open then
                  e <- parseOrExpr fuel ;;
                  accept T_CloseBracket THROW ;;
                  ret (Some (OrExpr e []))
                else ret None) ;;
  accept T_Equal THROW ;;
  e <- parseOrExpr fuel ;;
  accept T_Semicolon THROW ;;
  ret (AssignStatement variable (if open then Some true else None)
         indexExpr (OrExpr e [])).

(** [Parser::parseAssignOrFunCall]. *)
Definition parseAssignOrFunCall (fuel : nat) : M Statement :=
  tk <- gets current ;;
  call <- accept T_OpenParen NOTHROW ;;
  if call then
    statement <- parseFunCall fuel (getString tk) ;;
    accept T_Semicolon THROW ;;
    ret statement
  else
    existVariable ;;
    cur <- gets current ;;
    variable <- findVariable (getString cur) ;;
    parseAssignStatement fuel variable.

(** [Parser::parseReturnStatement]. *)
Definition parseReturnStatement (fuel : nat) : M Statement :=
  e <- parseOrExpr fuel ;;
  accept T_Semicolon THROW ;;
  ret (ReturnStatementExpr e).

(** The two lines [x = std::make_unique<BlockStatement>(block);
    parseStmtBlock( *x );] with which [parseStmtBlock], [parseIfStatement]
    and [parseWhileStatement] open a block below the current one;
    [parseBlock] is [parseStmtBlock] with the fuel it is left. *)
Definition parseNestedBlock (parseBlock : BlockId -> M unit) : M BlockId :=
  parent <- gets block ;;
  newNewBlock <- Block.make parent ;;
  parseBlock newNewBlock ;;
  ret newNewBlock.

(** [Parser::parseStmtBlock] (with its [while] loop) and the two
    statements that open blocks of their own. *)
Fixpoint parseStmtBlock (fuel : nat) (newBlock : BlockId) {struct fuel}
  : M unit :=
  match fuel with
  | 0 => out_of_fuel
  | S n =>
      setBlock (Some newBlock) ;;
      parseStmtBlock_loop n ;;
      parent <- Block.parentOf newBlock ;;
      setBlock parent
  end

with parseStmtBlock_loop (fuel : nat) {struct fuel} : M unit :=
  match fuel with
  | 0 => out_of_fuel
  | S n =>
      closed <- accept T_CloseBrace NOTHROW ;;
      if closed then ret tt else
      move ;;
      cur <- gets current ;;
      match getType cur with
      | K_If =>
          b <- getBlock ;; s <- parseIfStatement n ;; Block.addStatement b s
      | K_While =>
          b <- getBlock ;; s <- parseWhileStatement n ;;
          Block.addStatement b s
      | I_Identifier =>
          b <- getBlock ;; s <- parseAssignOrFunCall n ;;
          Block.addStatement b s
      | K_Var =>
          b <- getBlock ;; s <- parseInitStatement n ;;
          Block.addStatement b s
      | K_Return =>
          b <- getBlock ;; s <- parseReturnStatement n ;;
          Block.addStatement b s
      | K_Continue =>
          b <- getBlock ;;
          Block.addStatement b (ReturnStatement Continue) ;;
          accept T_Semicolon THROW ;; ret tt
      | K_Break =>
          b <- getBlock ;;
          Block.addStatement b (ReturnStatement Break) ;;
          accept T_Semicolon THROW ;; ret tt
      | K_Append =>
          b <- getBlock ;; s <- parseAppendStatement ;;
          Block.addStatement b s
      | T_OpenBrace =>
          newNewBlock <- parseNestedBlock (parseStmtBlock n) ;;
          b <- getBlock ;;
          Block.addStatement b (NestedBlock newNewBlock)
      | _ => throw BlockParseInvalid
      end ;;
      parseStmtBlock_loop n
  end

with parseIfStatement (fuel : nat) {struct fuel} : M Statement :=
  match fuel with
  | 0 => out_of_fuel
  | S n =>
      accept T_OpenParen THROW ;;
      expression <- parseOrExpr n ;;
      accept T_CloseParen THROW ;;
      accept T_OpenBrace THROW ;;
      ifBlock <- parseNestedBlock (parseStmtBlock n) ;;
      hasElse <- accept K_Else NOTHROW ;;
      elseBlock <- (if hasElse then
                      accept T_OpenBrace THROW ;;
                      eb <- parseNestedBlock (parseStmtBlock n) ;;
                      ret (Some eb)
                    else ret None) ;;
      ret (IfStatement expression ifBlock elseBlock)
  end

with parseWhileStatement (fuel : nat) {struct fuel} : M Statement :=
  match fuel with
  | 0 => out_of_fuel
  | S n =>
      accept T_OpenParen THROW ;;
      expression <- parseOrExpr n ;;
      accept T_CloseParen THROW ;;
      accept T_OpenBrace THROW ;;
      whileBlock <- parseNestedBlock (parseStmtBlock n) ;;
      ret (WhileStatement expression whileBlock)
  end.

(** [Parser::parseFunction]. *)
Definition parseFunction (fuel : nat) : M unit :=
  accept I_Identifier THROW ;;
  cur <- gets current ;;
  fn <- makeFunctionDefinition (getString cur) ;;
  accept T_OpenParen THROW ;;
  fn' <- parseArgs fuel fn ;;
  Program.addFunction fn' ;;
  accept T_OpenBrace THROW ;;
  parseStmtBlock fuel (getFunctionBlock fn').

(** [Parser::parseProgram]: one unit of fuel per iteration of the loop. *)
Fixpoint parseProgram (fuel : nat) : M unit :=
  match fuel with
  | 0 => out_of_fuel
  | S n =>
      next <- gets getToken ;;
      if decide (getType next ≠ T_EOF) then
        isFun <- accept K_Fun NOTHROW ;;
        (if isFun then parseFunction n else ret tt) ;;
        parseProgram n
      else ret tt
  end.

(** ** Scopes *)

(** The store is well formed when every parent link points to a block
    allocated earlier; the parser only ever builds such stores. *)
Definition wf_heap (h : list BlockStatement) : Prop :=
  forall b blk p, h !! b = Some blk -> getParent blk = Some p -> p < b.

Definition wf_state (st : Parser) : Prop :=
  wf_heap (heap st) /\ forall b, block st = Some b -> b < length (heap st).

(** [declares h b x]: block [b] itself declares [x]. *)
Definition declares (h : list BlockStatement) (b : BlockId) (x : string)
  : Prop :=
  exists blk, h !! b = Some blk /\ is_Some (variables blk !! x).

(** [visible h b x]: [x] is declared in [b] or in a block enclosing it. *)
Inductive visible (h : list BlockStatement) : BlockId -> string -> Prop :=
| visible_here b x : declares h b x -> visible h b x
| visible_outer b blk p x :
    h !! b = Some blk -> getParent blk = Some p -> visible h p x ->
    visible h b x.

(** [encloses h p b]: [p] is a proper ancestor of [b]. *)
Inductive encloses (h : list BlockStatement) : BlockId -> BlockId -> Prop :=
| encloses_parent b blk p :
    h !! b = Some blk -> getParent blk = Some p -> encloses h p b
| encloses_outer b blk p q :
    h !! b = Some blk -> getParent blk = Some p -> encloses h q p ->
    encloses h q b.

(** What the parser's lookups answer in a state. *)
Definition in_scope (st : Parser) (b : BlockId) (x : string) : bool :=
  Block.existVariable_walk (length (heap st)) (heap st) (Some b) x.

Definition resolve (st : Parser) (b : BlockId) (x : string) : option VarRef :=
  Block.findVariable_walk (length (heap st)) (heap st) (Some b) x.


(** ** What a parse may change *)

(** The expression parsers only move the token cursor. *)
Definition same_scope (st st' : Parser) : Prop :=
  block st' = block st /\ program st' = program st /\ heap st' = heap st.

(** The statement parsers leave the function table alone; in the store
    they keep every block, its parent link and its declarations. *)
Definition extends (st st' : Parser) : Prop :=
  program st' = program st /\
  forall b blk, heap st !! b = Some blk ->
    exists blk', heap st' !! b = Some blk' /\
      getParent blk' = getParent blk /\
      forall x, is_Some (variables blk !! x) -> is_Some (variables blk' !! x).

(** Where a fault leaves the cursor: where it was, or on a block
    allocated since. *)
Definition inner_cursor (st st' : Parser) : Prop :=
  block st' = block st \/
  exists c, block st' = Some c /\ length (heap st) <= c.

Definition expr_spec {A} (m : M A) : Prop :=
  forall st,
    match m st with
    | Ok _ st' => same_scope st st'
    | Throw e st' => same_scope st st' /\ e <> DuplicateVariable
    | OutOfFuel => True
    end.

Definition stmt_spec {A} (m : M A) : Prop :=
  forall st,
    match m st with
    | Ok _ st' =>
        extends st st' /\ block st' = block st /\ (wf_state st -> wf_state st')
    | Throw _ st' =>
        extends st st' /\ (wf_state st -> wf_state st') /\ inner_cursor st st'
    | OutOfFuel => True
    end.

Definition block_spec (m : BlockId -> M unit) : Prop :=
  forall b st,
    match m b st with
    | Ok _ st' =>
        extends st st' /\
        (forall blk, heap st !! b = Some blk -> block st' = getParent blk) /\
        (wf_heap (heap st) -> b < length (heap st) -> wf_state st')
    | Throw _ st' =>
        extends st st' /\
        (wf_heap (heap st) -> b < length (heap st) -> wf_state st') /\
        (block st' = Some b \/
         exists c, block st' = Some c /\ length (heap st) <= c)
    | OutOfFuel => True
    end.

(** The expression parsers at one fuel level. *)
Definition expr_specs (n : nat) : Prop :=
  expr_spec (parseOrExpr n) /\
  (forall f os, expr_spec (parseOrExpr_loop n f os)) /\
  expr_spec (parseAndExpr n) /\
  (forall f os, expr_spec (parseAndExpr_loop n f os)) /\
  expr_spec (parseRelExpr n) /\
  expr_spec (parseBaseLogicExpr n) /\
  expr_spec (parseAddExpr n) /\
  (forall f os, expr_spec (parseAddExpr_loop n f os)) /\
  expr_spec (parseMultExpr n) /\
  (forall f os, expr_spec (parseMultExpr_loop n f os)) /\
  expr_spec (parseBaseMathExpr n) /\
  (forall x, expr_spec (parseFunCall n x)) /\
  (forall a, expr_spec (parseFunCall_loop n a)).

(** The block-opening parsers at one fuel level. *)
Definition block_specs (n : nat) : Prop :=
  block_spec (parseStmtBlock n) /\
  stmt_spec (parseStmtBlock_loop n) /\
  stmt_spec (parseIfStatement n) /\
  stmt_spec (parseWhileStatement n).


(** ** Sample programs *)

(** [fun f() { var x; var x; }] *)
Definition prog_redeclare_same : list Token :=
  [tok K_Fun; ident "f"; tok T_OpenParen; tok T_CloseParen; tok T_OpenBrace;
   tok K_Var; ident "x"; tok T_Semicolon;
   tok K_Var; ident "x"; tok T_Semicolon;
   tok T_CloseBrace].

(** [fun f() { var x; { var x; } }] *)
Definition prog_redeclare_nested : list Token :=
  [tok K_Fun; ident "f"; tok T_OpenParen; tok T_CloseParen; tok T_OpenBrace;
   tok K_Var; ident "x"; tok T_Semicolon;
   tok T_OpenBrace; tok K_Var; ident "x"; tok T_Semicolon; tok T_CloseBrace;
   tok T_CloseBrace].

(** A block declaring [x] with an empty block below it, the cursor on the
    inner block and [x;] ahead: the parser right after the second [var]
    of [prog_redeclare_nested]. *)
Definition st_nested_var : Parser :=
  mkParser [ident "x"; tok T_Semicolon; tok T_CloseBrace; tok T_CloseBrace]
    (tok K_Var) (Some 1) ∅
    [mkBlock None {["x" := defaultVar]} []; mkBlock (Some 0) ∅ []].


(** ** Parts of the parsers the statements below speak about *)

(** [parseFunction] up to the parameter list: the function's name, its
    opening parenthesis and [parseArgs]. *)
Definition parseFunctionHeader (fuel : nat) : M FunctionDefinition :=
  accept I_Identifier THROW ;;
  cur <- gets current ;;
  fn <- makeFunctionDefinition (getString cur) ;;
  accept T_OpenParen THROW ;;
  parseArgs fuel fn.

(** The state [program.addFunction] leaves. *)
Definition register (fd : FunctionDefinition) (st : Parser) : Parser :=
  with_program (<[fun_name fd := fd]> (program st)) st.

(** The argument expressions of a call, as [parseFunCall] collects them
    between the existence check and the arity check. *)
Definition callArguments (n : nat) : M (list Expression) :=
  closed <- accept T_CloseParen NOTHROW ;;
  if closed then ret []
  else e <- parseOrExpr n ;; parseFunCall_loop n [e].

(** The state a member function leaves behind, however it ends. *)
Definition final_state {A} (o : outcome A) : option Parser :=
  match o with
  | Ok _ st => Some st
  | Throw _ st => Some st
  | OutOfFuel => None
  end.

(** [fun f(x) { return f(x - 1); }] *)
Definition prog_self_recursion : list Token :=
  [tok K_Fun; ident "f"; tok T_OpenParen; ident "x"; tok T_CloseParen;
   tok T_OpenBrace;
   tok K_Return; ident "f"; tok T_OpenParen; ident "x"; tok T_Minus; num 1;
   tok T_CloseParen; tok T_Semicolon;
   tok T_CloseBrace].

(** [fun main() { return g(); } fun g() { return 1; }] *)
Definition prog_forward_call : list Token :=
  [tok K_Fun; ident "main"; tok T_OpenParen; tok T_CloseParen;
   tok T_OpenBrace;
   tok K_Return; ident "g"; tok T_OpenParen; tok T_CloseParen;
   tok T_Semicolon; tok T_CloseBrace;
   tok K_Fun; ident "g"; tok T_OpenParen; tok T_CloseParen; tok T_OpenBrace;
   tok K_Return; num 1; tok T_Semicolon; tok T_CloseBrace].

(** The parser of [fun f(x) { ... f(] right after the [(] of the call,
    with [1 + 2 * 3) ;] ahead. *)
Definition st_call : Parser :=
  mkParser
    [num 1; tok T_Plus; num 2; tok T_Asterisk; num 3; tok T_CloseParen;
     tok T_Semicolon; tok T_CloseBrace]
    (tok T_OpenParen) (Some 0)
    {["f" := mkFun "f" ["x"] 0]}
    [mkBlock None {["x" := defaultVar]} []].

(** [fun f(x) { return f(1, 2); }] and [fun f(x) { f(); }] *)
Definition prog_too_many_arguments : list Token :=
  [tok K_Fun; ident "f"; tok T_OpenParen; ident "x"; tok T_CloseParen;
   tok T_OpenBrace;
   tok K_Return; ident "f"; tok T_OpenParen; num 1; tok T_Comma; num 2;
   tok T_CloseParen; tok T_Semicolon;
   tok T_CloseBrace].

Definition prog_too_few_arguments : list Token :=
  [tok K_Fun; ident "f"; tok T_OpenParen; ident "x"; tok T_CloseParen;
   tok T_OpenBrace;
   ident "f"; tok T_OpenParen; tok T_CloseParen; tok T_Semicolon;
   tok T_CloseBrace].


(** The lookahead after the next [k] tokens were consumed. *)
Definition advance (k : nat) (st : Parser) : Parser := Nat.iter k move_state st.

(** A function block declaring [a], a nested block declaring [b], the
    cursor on the nested block. *)
Definition st_two_blocks (toks : list Token) (cur : Token) : Parser :=
  mkParser toks cur (Some 1) ∅
    [mkBlock None {["a" := defaultVar]} [];
     mkBlock (Some 0) {["b" := defaultVar]} []].

(** [fun f(a) { { { return a; } } }] and the same with [return b;]. *)
Definition prog_deep_reference (name : string) : list Token :=
  [tok K_Fun; ident "f"; tok T_OpenParen; ident "a"; tok T_CloseParen;
   tok T_OpenBrace; tok T_OpenBrace; tok T_OpenBrace;
   tok K_Return; ident name; tok T_Semicolon;
   tok T_CloseBrace; tok T_CloseBrace; tok T_CloseBrace].

(** [fun f(a) { append(a, b); }] *)
Definition prog_append_undeclared : list Token :=
  [tok K_Fun; ident "f"; tok T_OpenParen; ident "a"; tok T_CloseParen;
   tok T_OpenBrace;
   tok K_Append; tok T_OpenParen; ident "a"; tok T_Comma; ident "b";
   tok T_CloseParen; tok T_Semicolon;
   tok T_CloseBrace].

(** The tree [parseOrExpr] builds around a lone operand: one node per
    precedence level. *)
Definition multOf (o : Operand) (unary : bool) : Expression :=
  MultiExpr (BaseMathExpr o unary) [].
Definition relOf (add : Expression) (negated : bool) : Expression :=
  RelationExpr (BaseLogicExpr add negated) None.
Definition primary (o : Operand) : Expression :=
  OrExpr (AndExpr (relOf (AddExpr (multOf o false) []) false) []) [].
Definition literal (n : Z) : Operand := OLiteral (Scalar n).

(** The statements of block [b] once [toks] is parsed. *)
Definition parsed_statements (toks : list Token) (b : BlockId)
  : option (list Statement) :=
  match parseProgram 40 (init toks) with
  | Ok _ st => statements <$> heap st !! b
  | _ => None
  end.

(** [fun f() { return 1 + 2 * 3; }] *)
Definition prog_arith : list Token :=
  [tok K_Fun; ident "f"; tok T_OpenParen; tok T_CloseParen; tok T_OpenBrace;
   tok K_Return; num 1; tok T_Plus; num 2; tok T_Asterisk; num 3;
   tok T_Semicolon; tok T_CloseBrace].

(** [fun f(a, b, c) { return a || b && c; }] *)
Definition prog_logic : list Token :=
  [tok K_Fun; ident "f"; tok T_OpenParen; ident "a"; tok T_Comma; ident "b";
   tok T_Comma; ident "c"; tok T_CloseParen; tok T_OpenBrace;
   tok K_Return; ident "a"; tok T_Bar2; ident "b"; tok T_Ampersand2;
   ident "c"; tok T_Semicolon; tok T_CloseBrace].

(** [fun f() { return !1 + 2; }] *)
Definition prog_not : list Token :=
  [tok K_Fun; ident "f"; tok T_OpenParen; tok T_CloseParen; tok T_OpenBrace;
   tok K_Return; tok T_Exclamation; num 1; tok T_Plus; num 2;
   tok T_Semicolon; tok T_CloseBrace].

(** [fun f() { var v = [1,2,3]; var w = v[0]; var s = v[0:2];
               var t = v[0 + 1 : 2 * 2]; }] *)
Definition prog_index_slice : list Token :=
  [tok K_Fun; ident "f"; tok T_OpenParen; tok T_CloseParen; tok T_OpenBrace;
   tok K_Var; ident "v"; tok T_Equal; tok T_OpenBracket; num 1; tok T_Comma;
   num 2; tok T_Comma; num 3; tok T_CloseBracket; tok T_Semicolon;
   tok K_Var; ident "w"; tok T_Equal; ident "v"; tok T_OpenBracket; num 0;
   tok T_CloseBracket; tok T_Semicolon;
   tok K_Var; ident "s"; tok T_Equal; ident "v"; tok T_OpenBracket; num 0;
   tok T_Colon; num 2; tok T_CloseBracket; tok T_Semicolon;
   tok K_Var; ident "t"; tok T_Equal; ident "v"; tok T_OpenBracket; num 0;
   tok T_Plus; num 1; tok T_Colon; num 2; tok T_Asterisk; num 2;
   tok T_CloseBracket; tok T_Semicolon;
   tok T_CloseBrace].

(** [fun f() { { ;] : the token after the inner [{] starts no statement. *)
Definition prog_fault_in_nested : list Token :=
  [tok K_Fun; ident "f"; tok T_OpenParen; tok T_CloseParen; tok T_OpenBrace;
   tok T_OpenBrace; tok T_Semicolon].

(** The parser of [fun f() { var a; { var b; } }] right after the inner
    [{]. *)
Definition st_open_nested : Parser :=
  mkParser [tok K_Var; ident "b"; tok T_Semicolon; tok T_CloseBrace;
            tok T_CloseBrace]
    (tok T_OpenBrace) (Some 0) ∅
    [mkBlock None {["a" := defaultVar]} []].

(** ** Shape of a list literal *)

(** [comma_numerics toks ns]: [toks] is [, n , n ...] with the values
    [ns], each [n] one numeric-literal token. *)
Inductive comma_numerics : list Token -> list Z -> Prop :=
| comma_numerics_nil : comma_numerics [] []
| comma_numerics_cons c t toks ns :
    getType c = T_Comma -> getType t = L_Numeric ->
    comma_numerics toks ns ->
    comma_numerics (c :: t :: toks) (getInteger t :: ns).

(** [bare_numeric_list toks ns]: [toks] is [n , n ... ]] (at least one
    [n]), the tokens of a list literal after its [[]. *)
Definition bare_numeric_list (toks : list Token) (ns : list Z) : Prop :=
  exists t mid ms close,
    toks = t :: mid ++ [close] /\ ns = getInteger t :: ms /\
    getType t = L_Numeric /\ comma_numerics mid ms /\
    getType close = T_CloseBracket.

(** The specification's two whole-program scenarios:
    [fun f(x) { var y = x + 1; return y; }
     fun main() { var z = f(2); return z; }] and [fun f() { return x; }]. *)
Definition prog_two_functions : list Token :=
  [tok K_Fun; ident "f"; tok T_OpenParen; ident "x"; tok T_CloseParen;
   tok T_OpenBrace;
   tok K_Var; ident "y"; tok T_Equal; ident "x"; tok T_Plus; num 1;
   tok T_Semicolon;
   tok K_Return; ident "y"; tok T_Semicolon; tok T_CloseBrace;
   tok K_Fun; ident "main"; tok T_OpenParen; tok T_CloseParen;
   tok T_OpenBrace;
   tok K_Var; ident "z"; tok T_Equal; ident "f"; tok T_OpenParen; num 2;
   tok T_CloseParen; tok T_Semicolon;
   tok K_Return; ident "z"; tok T_Semicolon; tok T_CloseBrace].

Definition prog_undeclared : list Token :=
  [tok K_Fun; ident "f"; tok T_OpenParen; tok T_CloseParen; tok T_OpenBrace;
   tok K_Return; ident "x"; tok T_Semicolon; tok T_CloseBrace].

(** The tail of [parseInitStatement], from the optional initializer on. *)
Definition parseInitStatement_tail (fuel : nat) (id : string) : M Statement :=
  init <- accept T_Equal NOTHROW ;;
  expr <- (if init then parseOrExpr fuel
           else ret (BaseMathExpr (OLiteral defaultVar) false)) ;;
  accept T_Semicolon THROW ;;
  v <- findVariable id ;;
  ret (AssignStatement v (Some false) None expr).

(** ** The arguments of a call *)

(** Written after the specification's words, "the supplied argument
    expressions".  [more_arguments k st args st']: from [st] on the
    tokens are [, e , e ... )], every [e] an expression as
    [parseOrExpr] reads it (with fuel [k]), [args] their trees in order
    and [st'] the state past the [)]. *)
Inductive more_arguments (k : nat)
  : Parser -> list Expression -> Parser -> Prop :=
| more_arguments_close st :
    getType (getToken st) = T_CloseParen ->
    more_arguments k st [] (move_state st)
| more_arguments_comma st e st1 es st' :
    getType (getToken st) = T_Comma ->
    parseOrExpr k (move_state st) = Ok e st1 ->
    more_arguments k st1 es st' ->
    more_arguments k st (e :: es) st'.

(** [argument_list k st args st']: the tokens from [st] on, [st] being
    the state right after the [(] of a call, are [)] alone or
    [e , e ... )]. *)
Definition argument_list (k : nat) (st : Parser) (args : list Expression)
    (st' : Parser) : Prop :=
  match args with
  | [] => getType (getToken st) = T_CloseParen /\ st' = move_state st
  | e :: es =>
      getType (getToken st) <> T_CloseParen /\
      exists st1, parseOrExpr k st = Ok e st1 /\ more_arguments k st1 es st'
  end.

(** [refines m m']: wherever [m] has fuel enough, [m'] does the same. *)
Definition refines {A} (m m' : M A) : Prop :=
  forall st, m st <> OutOfFuel -> m' st = m st.

(** The expression parsers with fuel [n'] refine those with fuel [n]. *)
Definition expr_refines (n n' : nat) : Prop :=
  refines (parseOrExpr n) (parseOrExpr n') /\
  (forall f os, refines (parseOrExpr_loop n f os) (parseOrExpr_loop n' f os)) /\
  refines (parseAndExpr n) (parseAndExpr n') /\
  (forall f os,
     refines (parseAndExpr_loop n f os) (parseAndExpr_loop n' f os)) /\
  refines (parseRelExpr n) (parseRelExpr n') /\
  refines (parseBaseLogicExpr n) (parseBaseLogicExpr n') /\
  refines (parseAddExpr n) (parseAddExpr n') /\
  (forall f os,
     refines (parseAddExpr_loop n f os) (parseAddExpr_loop n' f os)) /\
  refines (parseMultExpr n) (parseMultExpr n') /\
  (forall f os,
     refines (parseMultExpr_loop n f os) (parseMultExpr_loop n' f os)) /\
  refines (parseBaseMathExpr n) (parseBaseMathExpr n') /\
  (forall x, refines (parseFunCall n x) (parseFunCall n' x)) /\
  (forall a, refines (parseFunCall_loop n a) (parseFunCall_loop n' a)).

(** ** The inside of a function body *)

(** The state changes the parsers make, but for [program.addFunction],
    which only [parseFunction] calls: [move()] (also within [accept]),
    an assignment to [block], a new block, and [addVariable] and
    [addStatement] on a block. *)
Inductive body_step : Parser -> Parser -> Prop :=
| step_move st : body_step st (move_state st)
| step_setBlock ob st : body_step st (with_block ob st)
| step_make parent st :
    body_step st (with_heap (heap st ++ [mkBlock parent ∅ []]) st)
| step_addVariable b x v st :
    body_step st (with_heap (alter (Block.declare x v) b (heap st)) st)
| step_addStatement b s st :
    body_step st (with_heap (alter (Block.push s) b (heap st)) st).

(** [inside s0 st]: [st] is reached from [s0] by such changes only. *)
Definition inside (s0 st : Parser) : Prop := rtc body_step s0 st.

(** [runs_inside m]: [m] makes no other change, however it ends. *)
Definition runs_inside {A} (m : M A) : Prop :=
  forall st st', final_state (m st) = Some st' -> inside st st'.



(** ** Sample call sites *)

(** The argument [1 + 2 * 3] of [st_call] as a tree, and the state past
    the [)]. *)
Definition arg_arith : Expression :=
  OrExpr
    (AndExpr
       (relOf
          (AddExpr (multOf (literal 1) false)
             [(Plus,
               MultiExpr (BaseMathExpr (literal 2) false)
                 [(Multiply, BaseMathExpr (literal 3) false)])]) false) []) [].

Definition st_call_end : Parser :=
  mkParser [tok T_Semicolon; tok T_CloseBrace] (tok T_CloseParen) (Some 0)
    {["f" := mkFun "f" ["x"] 0]}
    [mkBlock None {["x" := defaultVar]} []].

(** The same call site with [1 , 2 ) ;] ahead: two arguments for the one
    parameter of [f]. *)
Definition st_call_two : Parser :=
  mkParser
    [num 1; tok T_Comma; num 2; tok T_CloseParen; tok T_Semicolon;
     tok T_CloseBrace]
    (tok T_OpenParen) (Some 0)
    {["f" := mkFun "f" ["x"] 0]}
    [mkBlock None {["x" := defaultVar]} []].






(** ** Token consumption and the fuel a parse needs *)

(** [consumes st st']: the scanner of [st'] has what the scanner of [st]
    had, less a prefix. *)
Definition consumes (st st' : Parser) : Prop :=
  exists pre, scr st = pre ++ scr st'.

(** [safe m st]: from [st] the fuel given to [m] is enough, and whether
    [m] returns or throws it has only consumed tokens. *)
Definition safe {A} (m : M A) (st : Parser) : Prop :=
  match m st with
  | Ok _ st' => consumes st st'
  | Throw _ st' => consumes st st'
  | OutOfFuel => False
  end.

(** [safe] in every state with at most [L] tokens left, and in those of
    them that have a token left. *)
Definition safe_upto {A} (L : nat) (m : M A) : Prop :=
  forall st, length (scr st) <= L -> safe m st.

Definition safe_upto_ne {A} (L : nat) (m : M A) : Prop :=
  forall st, length (scr st) <= L -> scr st <> [] -> safe m st.

(** Operations that leave the scanner alone. *)
Definition keeps_tokens {A} (m : M A) : Prop :=
  forall st,
    match m st with
    | Ok _ st' => scr st' = scr st
    | Throw _ st' => scr st' = scr st
    | OutOfFuel => False
    end.

(** Fuel that is enough for each expression parser at [L] tokens. *)
Definition expr_total (n : nat) : Prop :=
  (forall L, 8 * L + 7 <= n -> safe_upto L (parseOrExpr n)) /\
  (forall L f os, 8 * L + 1 <= n -> safe_upto L (parseOrExpr_loop n f os)) /\
  (forall L, 8 * L + 6 <= n -> safe_upto L (parseAndExpr n)) /\
  (forall L f os, 8 * L + 1 <= n -> safe_upto L (parseAndExpr_loop n f os)) /\
  (forall L, 8 * L + 5 <= n -> safe_upto L (parseRelExpr n)) /\
  (forall L, 8 * L + 4 <= n -> safe_upto L (parseBaseLogicExpr n)) /\
  (forall L, 8 * L + 3 <= n -> safe_upto L (parseAddExpr n)) /\
  (forall L f os, 8 * L + 1 <= n -> safe_upto L (parseAddExpr_loop n f os)) /\
  (forall L, 8 * L + 2 <= n -> safe_upto L (parseMultExpr n)) /\
  (forall L f os, 8 * L + 1 <= n -> safe_upto L (parseMultExpr_loop n f os)) /\
  (forall L, 8 * L + 1 <= n -> safe_upto L (parseBaseMathExpr n)) /\
  (forall L x, 8 * L + 8 <= n -> safe_upto L (parseFunCall n x)) /\
  (forall L a, 8 * L + 1 <= n -> safe_upto L (parseFunCall_loop n a)).

(** Fuel that is enough for each block parser at [L] tokens. *)
Definition block_total (n : nat) : Prop :=
  (forall L b, 8 * L + 2 <= n -> safe_upto L (parseStmtBlock n b)) /\
  (forall L, 8 * L + 1 <= n -> safe_upto L (parseStmtBlock_loop n)) /\
  (forall L, 8 * L + 1 <= n -> safe_upto L (parseIfStatement n)) /\
  (forall L, 8 * L + 1 <= n -> safe_upto L (parseWhileStatement n)).

(** [stray st]: the lookahead is neither [fun] nor the end of input. *)
Definition stray (st : Parser) : Prop :=
  getType (getToken st) <> T_EOF /\ getType (getToken st) <> K_Fun.

(** [next_function st st']: at [st] the lookahead is [fun], and the
    function definition that starts there is parsed by [st']. *)
Definition next_function (st st' : Parser) : Prop :=
  getType (getToken st) = K_Fun /\
  exists n, parseFunction n (move_state st) = Ok tt st'.

(** A state with [toks] left to read. *)
Definition reading (toks : list Token) : Parser :=
  mkParser toks (tok T_EOF) (Some 0) ∅ [mkBlock None ∅ []].

(** Tokens at which an operator chain of each level cannot go on. *)
Definition stops_mult (st : Parser) : Prop :=
  getType (getToken st) <> T_Asterisk /\ getType (getToken st) <> T_Slash.
Definition stops_add (st : Parser) : Prop :=
  stops_mult st /\
  getType (getToken st) <> T_Plus /\ getType (getToken st) <> T_Minus.
Definition stops_and (st : Parser) : Prop :=
  stops_add st /\ getType (getToken st) <> T_Ampersand2.
Definition stops_or (st : Parser) : Prop :=
  stops_and st /\ getType (getToken st) <> T_Bar2.

(** [frame c st st']: of the blocks of [st], those other than [c] are the
    same in [st']; block [c] keeps its parent and its statements, to
    which more may have been appended. *)
Definition frame (c : option BlockId) (st st' : Parser) : Prop :=
  forall b blk, heap st !! b = Some blk ->
    exists blk', heap st' !! b = Some blk' /\
      (Some b <> c -> blk' = blk) /\
      getParent blk' = getParent blk /\
      exists new, statements blk' = statements blk ++ new.

(** [m], run with the cursor on [c], works on block [c] only and returns
    with the cursor on [c]. *)
Definition frame_at {A} (c : option BlockId) (m : M A) : Prop :=
  forall st, block st = c ->
    match m st with
    | Ok _ st' => frame c st st' /\ block st' = c
    | Throw _ st' => frame c st st'
    | OutOfFuel => True
    end.

(** [m b] works on block [b] only, wherever the cursor was. *)
Definition block_frame (m : BlockId -> M unit) : Prop :=
  forall b st,
    match m b st with
    | Ok _ st' => frame (Some b) st st'
    | Throw _ st' => frame (Some b) st st'
    | OutOfFuel => True
    end.

Definition block_frames (n : nat) : Prop :=
  block_frame (parseStmtBlock n) /\
  (forall c, frame_at c (parseStmtBlock_loop n)) /\
  (forall c, frame_at c (parseIfStatement n)) /\
  (forall c, frame_at c (parseWhileStatement n)).

(** ** Where a fault comes from *)

(** Inside a block: the store is well formed and the cursor is on one
    of its blocks. *)
Definition live (st : Parser) : Prop := wf_state st /\ is_Some (block st).

(** The cases of the [switch] of [parseStmtBlock]. *)
Definition starts_statement (t : TokenType) : bool :=
  match t with
  | K_If | K_While | I_Identifier | K_Var | K_Return | K_Continue
  | K_Break | K_Append | T_OpenBrace => true
  | _ => false
  end.

(** The tokens with which [parseBaseMathExpr] goes on once it is past
    the optional [-]: the five [accept]s of its [if] chain. *)
Definition starts_unsigned_operand (t : TokenType) : bool :=
  match t with
  | L_Numeric | T_OpenBracket | T_OpenParen | K_Len | I_Identifier => true
  | _ => false
  end.

(** The tokens [parseBaseMathExpr] takes for the start of an operand:
    the optional [-] of its first [accept], or one of the five. *)
Definition starts_operand (t : TokenType) : bool :=
  match t with
  | T_Minus => true
  | _ => starts_unsigned_operand t
  end.

(** [x] is declared in the current block or around it. *)
Definition named_in_scope (x : string) (st : Parser) : Prop :=
  exists b, block st = Some b /\ visible (heap st) b x.

(** What the state a fault leaves tells about it: the token read last
    ([current]) or the lookahead is the one the fault is about. *)
Definition explained (e : Error) (st : Parser) : Prop :=
  match e with
  | NullDereference => False
  | BlockParseInvalid => starts_statement (getType (current st)) = false
  | UnrecognizedExpression =>
      starts_unsigned_operand (getType (getToken st)) = false /\
      (starts_operand (getType (getToken st)) = false \/
       getType (current st) = T_Minus)
  | DuplicateVariable => named_in_scope (getString (current st)) st
  | UndefinedVariable =>
      exists b, block st = Some b /\
        ~ visible (heap st) b (getString (current st))
  | SyntaxError | UndefinedFunction | ArityMismatch => True
  end.

(** [fault_on Q m]: run inside a block in a state with [Q], [m] stays
    inside a block, and a fault it throws is explained. *)
Definition fault_on (Q : Parser -> Prop) {A} (m : M A) : Prop :=
  forall st, live st -> Q st ->
    match m st with
    | Ok _ st' => live st'
    | Throw e st' => explained e st'
    | OutOfFuel => True
    end.

Abbreviation fault_spec m := (fault_on (fun _ => True) m).

(** Properties of a state that reading tokens does not change. *)
Definition scope_only (Q : Parser -> Prop) : Prop :=
  forall st st', same_scope st st' -> Q st -> Q st'.

Definition expr_faults (n : nat) : Prop :=
  fault_spec (parseOrExpr n) /\
  (forall f os, fault_spec (parseOrExpr_loop n f os)) /\
  fault_spec (parseAndExpr n) /\
  (forall f os, fault_spec (parseAndExpr_loop n f os)) /\
  fault_spec (parseRelExpr n) /\
  fault_spec (parseBaseLogicExpr n) /\
  fault_spec (parseAddExpr n) /\
  (forall f os, fault_spec (parseAddExpr_loop n f os)) /\
  fault_spec (parseMultExpr n) /\
  (forall f os, fault_spec (parseMultExpr_loop n f os)) /\
  fault_spec (parseBaseMathExpr n) /\
  (forall x, fault_spec (parseFunCall n x)) /\
  (forall a, fault_spec (parseFunCall_loop n a)).

(** A block parser started on a block of a well-formed store. *)
Definition block_fault (m : BlockId -> M unit) : Prop :=
  forall b st, wf_heap (heap st) -> b < length (heap st) ->
    match m b st with
    | Throw e st' => explained e st'
    | _ => True
    end.

Definition block_faults (n : nat) : Prop :=
  block_fault (parseStmtBlock n) /\
  fault_spec (parseStmtBlock_loop n) /\
  fault_spec (parseIfStatement n) /\
  fault_spec (parseWhileStatement n).

(** Parsers whose only fault is a wrong token. *)
Definition syntax_only {A} (m : M A) : Prop :=
  forall st, match m st with Throw e _ => e = SyntaxError | _ => True end.

(** ** The shape of expression trees *)

(** The precedence levels, loosest first; each has its node class. *)
Inductive Level := LOr | LAnd | LRel | LLogic | LAdd | LMult | LBase.

(** [layered l e]: [e] is a node of level [l] whose children are nodes
    of the next level, down to the operands; an operand that holds an
    expression holds one of level [LOr] again.  An index or slice bound
    is wrapped in one more [OrExpr], as [parseBaseMathExpr] builds it. *)
Unset Elimination Schemes.
Inductive layered : Level -> Expression -> Prop :=
| layered_or first ors :
    layered LAnd first -> Forall (layered LAnd) ors ->
    layered LOr (OrExpr first ors)
| layered_and first ands :
    layered LRel first -> Forall (layered LRel) ands ->
    layered LAnd (AndExpr first ands)
| layered_rel lhs op rhs :
    layered LLogic lhs -> layered LLogic rhs ->
    layered LRel (RelationExpr lhs (Some (op, rhs)))
| layered_rel_single lhs :
    layered LLogic lhs -> layered LRel (RelationExpr lhs None)
| layered_logic e negated :
    layered LAdd e -> layered LLogic (BaseLogicExpr e negated)
| layered_add first rest :
    layered LMult first -> Forall (fun p => layered LMult p.2) rest ->
    layered LAdd (AddExpr first rest)
| layered_mult first rest :
    layered LBase first -> Forall (fun p => layered LBase p.2) rest ->
    layered LMult (MultiExpr first rest)
| layered_base o unary :
    operand_shape o -> layered LBase (BaseMathExpr o unary)
with operand_shape : Operand -> Prop :=
| operand_literal v : operand_shape (OLiteral v)
| operand_expr e : layered LOr e -> operand_shape (OExpr e)
| operand_len v : operand_shape (OStmt (LenStatement v))
| operand_call callee args :
    Forall (layered LOr) args ->
    operand_shape (OStmt (FunctionCall callee args))
| operand_var v : operand_shape (OVar v)
| operand_index v e :
    layered LOr e -> operand_shape (OIndex v (OrExpr e []))
| operand_slice v e e2 :
    layered LOr e -> layered LOr e2 ->
    operand_shape (OSlice v (OrExpr e []) (OrExpr e2 [])).
Set Elimination Schemes.

(** [builds P m]: what [m] returns has [P]. *)
Definition builds {A} (P : A -> Prop) (m : M A) : Prop :=
  forall st a st', m st = Ok a st' -> P a.

Definition is_call (s : Statement) : Prop := operand_shape (OStmt s).

Definition expr_shapes (n : nat) : Prop :=
  builds (layered LOr) (parseOrExpr n) /\
  (forall f os, layered LAnd f -> Forall (layered LAnd) os ->
     builds (layered LOr) (parseOrExpr_loop n f os)) /\
  builds (layered LAnd) (parseAndExpr n) /\
  (forall f os, layered LRel f -> Forall (layered LRel) os ->
     builds (layered LAnd) (parseAndExpr_loop n f os)) /\
  builds (layered LRel) (parseRelExpr n) /\
  builds (layered LLogic) (parseBaseLogicExpr n) /\
  builds (layered LAdd) (parseAddExpr n) /\
  (forall f os, layered LMult f -> Forall (fun p => layered LMult p.2) os ->
     builds (layered LAdd) (parseAddExpr_loop n f os)) /\
  builds (layered LMult) (parseMultExpr n) /\
  (forall f os, layered LBase f -> Forall (fun p => layered LBase p.2) os ->
     builds (layered LMult) (parseMultExpr_loop n f os)) /\
  builds (layered LBase) (parseBaseMathExpr n) /\
  (forall x, builds is_call (parseFunCall n x)) /\
  (forall a, Forall (layered LOr) a ->
     builds (Forall (layered LOr)) (parseFunCall_loop n a)).

(** ** Where a statement ends *)

(** [ends t m]: when [m] returns, the token read last is a [t]. *)
Definition ends {A} (t : TokenType) (m : M A) : Prop :=
  forall st a st', m st = Ok a st' -> getType (current st') = t.

(** [keeps_current m]: [m] reads no token. *)
Definition keeps_current {A} (m : M A) : Prop :=
  forall st a st', m st = Ok a st' -> current st' = current st.

Definition block_ends (n : nat) : Prop :=
  (forall b, ends T_CloseBrace (parseStmtBlock n b)) /\
  ends T_CloseBrace (parseStmtBlock_loop n) /\
  ends T_CloseBrace (parseIfStatement n) /\
  ends T_CloseBrace (parseWhileStatement n).

(** ** Parameter lists *)

(** [comma_identifiers toks xs]: [toks] is [, x , x ...] with the names
    [xs], each [x] one identifier token. *)
Inductive comma_identifiers : list Token -> list string -> Prop :=
| comma_identifiers_nil : comma_identifiers [] []
| comma_identifiers_cons c t toks xs :
    getType c = T_Comma -> getType t = I_Identifier ->
    comma_identifiers toks xs ->
    comma_identifiers (c :: t :: toks) (getString t :: xs).

(** [parameter_tokens toks xs]: [toks] is empty or [x , x ...], the
    tokens between the parentheses of a function header. *)
Definition parameter_tokens (toks : list Token) (xs : list string) : Prop :=
  match toks with
  | [] => xs = []
  | t :: mid =>
      getType t = I_Identifier /\
      exists rest, xs = getString t :: rest /\ comma_identifiers mid rest
  end.

(** A function header [f (] with [toks] to read after it. *)
Definition st_header (toks : list Token) : Parser :=
  mkParser toks (tok T_OpenParen) None ∅ [mkBlock None ∅ []].

(** ** Sample inputs *)

(** [fun f() { } ;]: a function and a stray token after it. *)
Definition prog_stray_after_function : list Token :=
  [tok K_Fun; ident "f"; tok T_OpenParen; tok T_CloseParen;
   tok T_OpenBrace; tok T_CloseBrace; tok T_Semicolon].

(** [fun f() { }] *)
Definition prog_empty_function : list Token :=
  [tok K_Fun; ident "f"; tok T_OpenParen; tok T_CloseParen;
   tok T_OpenBrace; tok T_CloseBrace].

(** [fun f() {], the input ending inside the block. *)
Definition prog_unclosed_block : list Token :=
  [tok K_Fun; ident "f"; tok T_OpenParen; tok T_CloseParen; tok T_OpenBrace].

(** The state in which a parse ends, when it ends. *)
Definition end_state (fuel : nat) (toks : list Token) : Parser :=
  default (init []) (final_state (parseProgram fuel (init toks))).

Definition st_unclosed_block : Parser := Eval vm_compute in
  end_state 10 prog_unclosed_block.


Definition st_empty_function : Parser := Eval vm_compute in
  end_state 10 prog_empty_function.

(** [fun f() { return - - 1; }], a second [-] where the operand is due. *)
Definition prog_double_minus : list Token :=
  [tok K_Fun; ident "f"; tok T_OpenParen; tok T_CloseParen; tok T_OpenBrace;
   tok K_Return; tok T_Minus; tok T_Minus; num 1; tok T_Semicolon;
   tok T_CloseBrace].

Definition st_double_minus : Parser := Eval vm_compute in
  end_state 20 prog_double_minus.

(** [1 + 2 ;] and what is left once the sum is read. *)
Definition toks_sum : list Token :=
  [num 1; tok T_Plus; num 2; tok T_Semicolon].

Definition st_sum_read : Parser :=
  mkParser [tok T_Semicolon] (num 2) (Some 0) ∅ [mkBlock None ∅ []].

Definition sum_tree : Expression :=
  OrExpr
    (AndExpr
       (relOf (AddExpr (multOf (literal 1) false)
                 [(Plus, multOf (literal 2) false)]) false) []) [].

(** [( 1 ) { } else { }], the rest of an [if] statement, and the state
    once it is read. *)
Definition toks_if_else : list Token :=
  [tok T_OpenParen; num 1; tok T_CloseParen; tok T_OpenBrace;
   tok T_CloseBrace; tok K_Else; tok T_OpenBrace; tok T_CloseBrace].

Definition st_if_else_read : Parser :=
  mkParser [] (tok T_CloseBrace) (Some 0) ∅
    [mkBlock None ∅ []; mkBlock (Some 0) ∅ []; mkBlock (Some 0) ∅ []].

(** [break ; }], the rest of a block, and the state once it is read. *)
Definition toks_break : list Token :=
  [tok K_Break; tok T_Semicolon; tok T_CloseBrace].

Definition st_break_read : Parser :=
  mkParser [] (tok T_CloseBrace) None ∅
    [mkBlock None ∅ [ReturnStatement Break]].

(** [= 1 + 2 ;], the rest of an assignment to a plain variable, and the
    right-hand side as [parseAssignStatement] stores it. *)
Definition toks_assigned_sum : list Token := tok T_Equal :: toks_sum.

Definition sum_tree_wrapped : Expression := OrExpr sum_tree [].


(** * Properties *)

Lemma walk_exist_find k h ob x :
  Block.existVariable_walk k h ob x
  = bool_decide (is_Some (Block.findVariable_walk k h ob x)).
Proof.
  revert ob. induction k as [|k IH]; intros ob; simpl; [done|].
  destruct ob as [b|]; [|done].
  destruct (h !! b) as [blk|]; [|done].
  destruct (decide _); [done|apply IH].
Qed.

Lemma walk_visible k h b x :
  Block.existVariable_walk k h (Some b) x = true -> visible h b x.
Proof.
  revert b. induction k as [|k IH]; intros b; simpl; [done|].
  destruct (h !! b) as [blk|] eqn:Hb; [|done].
  destruct (decide _) as [Hx|Hx].
  - intros _. apply visible_here. by exists blk.
  - destruct (getParent blk) as [p|] eqn:Hp.
    + intros H. eapply visible_outer; eauto.
    + destruct k; simpl; done.
Qed.

Lemma visible_walk k h b x :
  wf_heap h -> b < k -> visible h b x ->
  Block.existVariable_walk k h (Some b) x = true.
Proof.
  intros Hwf Hk Hv. revert k Hk.
  induction Hv as [b x (blk & Hb & Hx)|b blk p x Hb Hp Hv IH]; intros k Hk.
  - destruct k; [lia|]. simpl. rewrite Hb. by rewrite decide_True.
  - destruct k; [lia|]. simpl. rewrite Hb.
    destruct (decide _); [done|]. rewrite Hp. apply IH.
    specialize (Hwf _ _ _ Hb Hp). lia.
Qed.

Lemma in_scope_visible st b x :
  wf_heap (heap st) -> b < length (heap st) ->
  in_scope st b x = true <-> visible (heap st) b x.
Proof.
  intros Hwf Hb. split; [apply walk_visible|by apply visible_walk].
Qed.

Lemma visible_valid h b x : visible h b x -> b < length h.
Proof.
  intros [? ? (blk & Hb & _)|? blk ? ? Hb _ _]; by eapply lookup_lt_Some.
Qed.

Lemma encloses_visible h p b x :
  encloses h p b -> visible h p x -> visible h b x.
Proof.
  induction 1 as [b blk p Hb Hp|b blk p q Hb Hp _ IH]; intros Hv.
  - by eapply visible_outer.
  - eapply visible_outer; [done|done|]. by apply IH.
Qed.

(** [visible] is: declared in the block itself or in a block enclosing
    it. *)
Lemma visible_cases h b x :
  visible h b x <->
  declares h b x \/ exists p, encloses h p b /\ declares h p x.
Proof.
  split.
  - induction 1 as [b x Hd|b blk p x Hb Hp _ IH]; [by left|].
    right. destruct IH as [Hd|(q & Hq & Hd)].
    + exists p. split; [by eapply encloses_parent|done].
    + exists q. split; [by eapply encloses_outer|done].
  - intros [Hd|(p & Hp & Hd)]; [by apply visible_here|].
    eapply encloses_visible; [done|]. by apply visible_here.
Qed.

Lemma resolve_here st b x :
  declares (heap st) b x -> resolve st b x = Some (mkRef b x).
Proof.
  intros (blk & Hb & Hx). unfold resolve.
  pose proof (lookup_lt_Some _ _ _ Hb) as Hlt.
  destruct (length (heap st)); [lia|]. simpl. rewrite Hb.
  by rewrite decide_True.
Qed.

Lemma resolve_in_scope st b x :
  in_scope st b x = bool_decide (is_Some (resolve st b x)).
Proof. apply walk_exist_find. Qed.

Lemma walk_find_name k h ob x r :
  Block.findVariable_walk k h ob x = Some r ->
  ref_name r = x /\ declares h (ref_block r) x.
Proof.
  revert ob. induction k as [|k IH]; intros ob; simpl; [done|].
  destruct ob as [b|]; [|done].
  destruct (h !! b) as [blk|] eqn:Hb; [|done].
  destruct (decide _) as [Hx|Hx]; [|apply IH].
  intros [= <-]. split; [done|]. by exists blk.
Qed.


(** ** Expression parsers only move the token cursor *)

Lemma same_scope_refl st : same_scope st st.
Proof. by repeat split. Qed.

Lemma same_scope_trans a b c :
  same_scope a b -> same_scope b c -> same_scope a c.
Proof. unfold same_scope. intuition congruence. Qed.

Lemma expr_spec_bind {A B} (m : M A) (f : A -> M B) :
  expr_spec m -> (forall a, expr_spec (f a)) -> expr_spec (bind m f).
Proof.
  intros Hm Hf st. unfold bind. specialize (Hm st).
  destruct (m st) as [a st1|e st1|]; auto.
  specialize (Hf a st1). destruct (f a st1) as [b st2|e st2|]; auto.
  - eauto using same_scope_trans.
  - destruct Hf; split; eauto using same_scope_trans.
Qed.

Lemma expr_spec_ret {A} (a : A) : expr_spec (ret a).
Proof. intros st. apply same_scope_refl. Qed.

Lemma expr_spec_gets {A} (f : Parser -> A) : expr_spec (gets f).
Proof. intros st. apply same_scope_refl. Qed.

Lemma expr_spec_throw {A} e :
  e <> DuplicateVariable -> expr_spec (@throw A e).
Proof. intros H st. split; auto using same_scope_refl. Qed.

Lemma expr_spec_out_of_fuel {A} : expr_spec (@out_of_fuel A).
Proof. intros st. exact I. Qed.

Lemma expr_spec_move : expr_spec move.
Proof. intros st. by repeat split. Qed.

Lemma expr_spec_accept t d : expr_spec (accept t d).
Proof.
  intros st. unfold accept.
  destruct (decide _); [by repeat split|]. destruct d; by repeat split.
Qed.

Lemma expr_spec_getBlock : expr_spec getBlock.
Proof. intros st. unfold getBlock. destruct (block st); by repeat split. Qed.

Lemma expr_spec_Block_findVariable b x : expr_spec (Block.findVariable b x).
Proof.
  intros st. unfold Block.findVariable.
  destruct (Block.findVariable_walk _ _ _ _); by repeat split.
Qed.

Lemma expr_spec_findFunction x : expr_spec (Program.findFunction x).
Proof.
  intros st. unfold Program.findFunction.
  destruct (program st !! x); by repeat split.
Qed.

(** One syntax-directed step on a goal [expr_spec m]. *)
Ltac expr_step :=
  match goal with
  | |- expr_spec (bind _ _) => apply expr_spec_bind; [|intros ?]
  | |- expr_spec (ret _) => apply expr_spec_ret
  | |- expr_spec (gets _) => apply expr_spec_gets
  | |- expr_spec (throw _) => apply expr_spec_throw; discriminate
  | |- expr_spec out_of_fuel => apply expr_spec_out_of_fuel
  | |- expr_spec move => apply expr_spec_move
  | |- expr_spec (accept _ _) => apply expr_spec_accept
  | |- expr_spec (accept1 _) => apply expr_spec_accept
  | |- expr_spec getBlock => apply expr_spec_getBlock
  | |- expr_spec (Block.findVariable _ _) => apply expr_spec_Block_findVariable
  | |- expr_spec (Block.existVariable _ _) => apply expr_spec_gets
  | |- expr_spec (Program.existFunction _) => apply expr_spec_gets
  | |- expr_spec (Program.findFunction _) => apply expr_spec_findFunction
  | |- expr_spec (if ?b then _ else _) => destruct b
  | |- expr_spec (match ?x with _ => _ end) => destruct x
  | H : expr_spec ?m |- expr_spec ?m => exact H
  | H : forall a, expr_spec (?f a) |- expr_spec (?f _) => apply H
  | H : forall a b, expr_spec (?f a b) |- expr_spec (?f _ _) => apply H
  end.

Lemma expr_spec_existVariable : expr_spec existVariable.
Proof. unfold existVariable. repeat expr_step. Qed.

Lemma expr_spec_findVariable x : expr_spec (findVariable x).
Proof. unfold findVariable. repeat expr_step. Qed.

Lemma expr_spec_parseLenStatement : expr_spec parseLenStatement.
Proof.
  pose proof expr_spec_findVariable.
  unfold parseLenStatement. repeat expr_step.
Qed.

Lemma expr_spec_parseVectorLiteral_loop n vs :
  expr_spec (parseVectorLiteral_loop n vs).
Proof. revert vs. induction n; intros; simpl; repeat expr_step. Qed.

Lemma expr_spec_parseVectorLiteral n : expr_spec (parseVectorLiteral n).
Proof.
  pose proof (expr_spec_parseVectorLiteral_loop n).
  unfold parseVectorLiteral. repeat expr_step.
Qed.

Lemma expr_specs_all n : expr_specs n.
Proof.
  induction n as [|n IH]; unfold expr_specs.
  - split_and!; intros; apply expr_spec_out_of_fuel.
  - destruct IH as (?&?&?&?&?&?&?&?&?&?&?&?&?).
    pose proof expr_spec_findVariable.
    pose proof expr_spec_existVariable.
    pose proof expr_spec_parseLenStatement.
    pose proof (expr_spec_parseVectorLiteral n).
    split_and!; intros; simpl; repeat expr_step.
Qed.

Lemma expr_spec_parseOrExpr n : expr_spec (parseOrExpr n).
Proof. apply (expr_specs_all n). Qed.

Lemma expr_spec_parseFunCall n x : expr_spec (parseFunCall n x).
Proof. apply (expr_specs_all n). Qed.

Lemma expr_spec_parseBaseMathExpr n : expr_spec (parseBaseMathExpr n).
Proof. apply (expr_specs_all n). Qed.


(** ** Statement parsers extend the store and restore the cursor *)

Lemma extends_refl st : extends st st.
Proof. split; [done|]. intros b blk Hb. exists blk. auto. Qed.

Lemma extends_trans a b c : extends a b -> extends b c -> extends a c.
Proof.
  intros [Hp1 H1] [Hp2 H2]. split; [congruence|].
  intros i blk Hi.
  destruct (H1 _ _ Hi) as (blk1 & Hi1 & Hpar1 & Hv1).
  destruct (H2 _ _ Hi1) as (blk2 & Hi2 & Hpar2 & Hv2).
  exists blk2. repeat split; [done|congruence|auto].
Qed.

Lemma extends_length st st' :
  extends st st' -> length (heap st) <= length (heap st').
Proof.
  intros [_ H]. destruct (heap st) as [|blk0 h] eqn:Hh using rev_ind; [simpl; lia|].
  destruct (H (length h) blk0) as (blk' & Hb' & _).
  { rewrite lookup_app_r by lia. by rewrite Nat.sub_diag. }
  apply lookup_lt_Some in Hb'. rewrite length_app. simpl. lia.
Qed.

Lemma same_scope_extends st st' : same_scope st st' -> extends st st'.
Proof.
  intros (_ & Hp & Hh). split; [done|]. rewrite Hh.
  intros b blk Hb. exists blk. auto.
Qed.

Lemma same_scope_wf st st' : same_scope st st' -> wf_state st -> wf_state st'.
Proof. intros (Hb & _ & Hh). unfold wf_state. by rewrite Hb, Hh. Qed.

Lemma expr_stmt_spec {A} (m : M A) : expr_spec m -> stmt_spec m.
Proof.
  intros Hm st. specialize (Hm st). destruct (m st) as [a st'|e st'|]; [| |done].
  - split; [by apply same_scope_extends|]. split; [apply Hm|].
    by apply same_scope_wf.
  - destruct Hm as [Hm _].
    split; [by apply same_scope_extends|].
    split; [by apply same_scope_wf|]. left. apply Hm.
Qed.

Lemma stmt_spec_bind {A B} (m : M A) (f : A -> M B) :
  stmt_spec m -> (forall a, stmt_spec (f a)) -> stmt_spec (bind m f).
Proof.
  intros Hm Hf st. unfold bind. specialize (Hm st).
  destruct (m st) as [a st1|e st1|]; auto.
  destruct Hm as (He1 & Hb1 & Hw1).
  specialize (Hf a st1). destruct (f a st1) as [b st2|e st2|]; auto.
  - destruct Hf as (He2 & Hb2 & Hw2).
    split; [eauto using extends_trans|]. split; [congruence|auto].
  - destruct Hf as (He2 & Hw2 & Hc2). split; [eauto using extends_trans|].
    split; [auto|]. destruct Hc2 as [Hc2|(c & Hc & Hle)]; [left; congruence|].
    right. exists c. split; [done|]. apply extends_length in He1. lia.
Qed.

Lemma stmt_spec_out_of_fuel {A} : stmt_spec (@out_of_fuel A).
Proof. intros st. exact I. Qed.

Lemma stmt_spec_throw {A} e : stmt_spec (@throw A e).
Proof. intros st. split; [apply extends_refl|]. split; [auto|by left]. Qed.

(** Rewriting one block in place, keeping its parent and declarations. *)
Lemma alter_extends (f : BlockStatement -> BlockStatement) b st :
  (forall blk, getParent (f blk) = getParent blk) ->
  (forall blk x, is_Some (variables blk !! x) ->
                 is_Some (variables (f blk) !! x)) ->
  extends st (with_heap (alter f b (heap st)) st).
Proof.
  intros Hpar Hvar. split; [done|]. simpl. intros i blk Hi.
  destruct (decide (i = b)) as [->|Hne].
  - exists (f blk). rewrite list_lookup_alter_eq, Hi. auto.
  - exists blk. rewrite list_lookup_alter_ne by done. auto.
Qed.

Lemma alter_wf (f : BlockStatement -> BlockStatement) b st :
  (forall blk, getParent (f blk) = getParent blk) ->
  wf_state st -> wf_state (with_heap (alter f b (heap st)) st).
Proof.
  intros Hpar [Hwf Hcur]. split; simpl.
  - intros i blk p Hi Hp.
    destruct (decide (i = b)) as [->|Hne].
    + rewrite list_lookup_alter_eq in Hi.
      destruct (heap st !! b) as [blk0|] eqn:Hb; [|done].
      injection Hi as <-. rewrite Hpar in Hp. eauto.
    + rewrite list_lookup_alter_ne in Hi by done. eauto.
  - by rewrite length_alter.
Qed.

Lemma stmt_spec_addStatement b s : stmt_spec (Block.addStatement b s).
Proof.
  intros st. unfold Block.addStatement, modify.
  split; [by apply alter_extends|]. split; [done|by apply alter_wf].
Qed.

Lemma stmt_spec_addVariable b x v : stmt_spec (Block.addVariable b x v).
Proof.
  intros st. unfold Block.addVariable, modify.
  split; [|split; [done|by apply alter_wf]].
  apply alter_extends; [done|]. intros blk y Hy. simpl.
  destruct (decide (x = y)) as [->|Hne].
  - rewrite lookup_insert_eq. eauto.
  - by rewrite lookup_insert_ne.
Qed.

(** Allocation: the fresh block goes to the end of the store. *)
Lemma make_extends parent st :
  extends st (with_heap (heap st ++ [mkBlock parent ∅ []]) st).
Proof.
  split; [done|]. simpl. intros b blk Hb. exists blk.
  rewrite lookup_app_l by (by eapply lookup_lt_Some). auto.
Qed.

Lemma make_wf_heap parent h :
  wf_heap h -> (forall p, parent = Some p -> p < length h) ->
  wf_heap (h ++ [mkBlock parent ∅ []]).
Proof.
  intros Hwf Hp b blk p Hb Hpar.
  destruct (decide (b < length h)) as [Hlt|Hge].
  - rewrite lookup_app_l in Hb by done. eauto.
  - rewrite lookup_app_r in Hb by lia.
    destruct (b - length h) as [|k] eqn:Hk; simpl in Hb; [|done].
    injection Hb as <-. simpl in Hpar. specialize (Hp _ Hpar). lia.
Qed.

Lemma stmt_spec_parseNestedBlock (parseBlock : BlockId -> M unit) :
  block_spec parseBlock -> stmt_spec (parseNestedBlock parseBlock).
Proof.
  intros Hblk st. unfold parseNestedBlock, bind, gets, Block.make, ret.
  set (st1 := with_heap _ st).
  specialize (Hblk (length (heap st)) st1).
  assert (Hnew : heap st1 !! length (heap st) = Some (mkBlock (block st) ∅ [])).
  { simpl. rewrite lookup_app_r by lia. by rewrite Nat.sub_diag. }
  assert (Hwf1 : wf_state st -> wf_heap (heap st1) /\ length (heap st) < length (heap st1)).
  { intros [Hwf Hcur]. split; [by apply make_wf_heap|].
    simpl. rewrite length_app. simpl. lia. }
  destruct (parseBlock _ st1) as [[] st2|e st2|]; [| |done].
  - destruct Hblk as (Hext & Hcur & Hwf).
    split; [eapply extends_trans; [apply make_extends|done]|].
    split; [by rewrite (Hcur _ Hnew)|].
    intros Hst. destruct (Hwf1 Hst). auto.
  - destruct Hblk as (Hext & Hwf & Hcur).
    split; [eapply extends_trans; [apply make_extends|done]|].
    split; [intros Hst; destruct (Hwf1 Hst); auto|].
    right. destruct Hcur as [Hcur|(c & Hc & Hle)]; [by exists (length (heap st))|].
    exists c. split; [done|]. simpl in Hle. rewrite length_app in Hle. lia.
Qed.

(** One syntax-directed step on a goal [stmt_spec m]; what only reads
    tokens is left to [expr_step]. *)
Ltac stmt_step :=
  match goal with
  | |- stmt_spec (bind _ _) => apply stmt_spec_bind; [|intros ?]
  | |- stmt_spec out_of_fuel => apply stmt_spec_out_of_fuel
  | |- stmt_spec (throw _) => apply stmt_spec_throw
  | |- stmt_spec (Block.addStatement _ _ ) => apply stmt_spec_addStatement
  | |- stmt_spec (Block.addVariable _ _ _) => apply stmt_spec_addVariable
  | |- stmt_spec (parseNestedBlock _) =>
      apply stmt_spec_parseNestedBlock; assumption
  | |- stmt_spec (if ?b then _ else _) => destruct b
  | |- stmt_spec (match ?x with _ => _ end) => destruct x
  | H : stmt_spec ?m |- stmt_spec ?m => exact H
  | H : forall a, stmt_spec (?f a) |- stmt_spec (?f _) => apply H
  | |- stmt_spec _ => apply expr_stmt_spec; solve [repeat expr_step]
  end.

Ltac with_expr_lemmas :=
  pose proof expr_spec_findVariable;
  pose proof expr_spec_existVariable;
  pose proof expr_spec_parseOrExpr;
  pose proof expr_spec_parseFunCall.

Lemma stmt_spec_parseInitStatement n : stmt_spec (parseInitStatement n).
Proof. with_expr_lemmas. unfold parseInitStatement. repeat stmt_step. Qed.

Lemma stmt_spec_parseAssignStatement n v :
  stmt_spec (parseAssignStatement n v).
Proof. with_expr_lemmas. unfold parseAssignStatement. repeat stmt_step. Qed.

Lemma stmt_spec_parseAssignOrFunCall n : stmt_spec (parseAssignOrFunCall n).
Proof.
  with_expr_lemmas. pose proof (stmt_spec_parseAssignStatement n).
  unfold parseAssignOrFunCall. repeat stmt_step.
Qed.

Lemma stmt_spec_parseReturnStatement n : stmt_spec (parseReturnStatement n).
Proof. with_expr_lemmas. unfold parseReturnStatement. repeat stmt_step. Qed.

Lemma stmt_spec_parseAppendStatement : stmt_spec parseAppendStatement.
Proof. with_expr_lemmas. unfold parseAppendStatement. repeat stmt_step. Qed.

Lemma block_spec_step (loop : M unit) b :
  stmt_spec loop ->
  forall st,
    match (setBlock (Some b) ;; loop ;;
           parent <- Block.parentOf b ;; setBlock parent) st with
    | Ok _ st' =>
        extends st st' /\
        (forall blk, heap st !! b = Some blk -> block st' = getParent blk) /\
        (wf_heap (heap st) -> b < length (heap st) -> wf_state st')
    | Throw _ st' =>
        extends st st' /\
        (wf_heap (heap st) -> b < length (heap st) -> wf_state st') /\
        (block st' = Some b \/
         exists c, block st' = Some c /\ length (heap st) <= c)
    | OutOfFuel => True
    end.
Proof.
  intros Hloop st. unfold bind, setBlock, modify.
  set (st1 := with_block (Some b) st).
  assert (Hext1 : extends st st1).
  { split; [done|]. intros i blk Hi. exists blk. auto. }
  assert (Hwf1 : wf_heap (heap st) -> b < length (heap st) -> wf_state st1).
  { intros Hwf Hb. split; [done|]. simpl. by intros ? [= <-]. }
  specialize (Hloop st1).
  destruct (loop st1) as [[] st2|e st2|]; [| |done].
  - destruct Hloop as (Hext2 & Hcur2 & Hwf2).
    unfold Block.parentOf.
    destruct (heap st2 !! b) as [blk2|] eqn:Hb2.
    + split; [eauto using extends_trans|]. split.
      * intros blk Hb. simpl.
        destruct Hext2 as [_ Hblocks].
        destruct (Hblocks b blk Hb) as (blk' & Hb' & Hpar & _).
        congruence.
      * intros Hwf Hb. destruct (Hwf2 (Hwf1 Hwf Hb)) as [Hwfh _].
        split; [done|]. simpl. intros p Hp.
        pose proof (Hwfh _ _ _ Hb2 Hp).
        pose proof (lookup_lt_Some _ _ _ Hb2). lia.
    + split; [eauto using extends_trans|]. split; [auto|]. left. by rewrite Hcur2.
  - destruct Hloop as (Hext2 & Hwf2 & Hcur2).
    split; [eauto using extends_trans|]. split; [auto|exact Hcur2].
Qed.

Lemma block_specs_all n : block_specs n.
Proof.
  induction n as [|n IH]; unfold block_specs.
  - split_and!; try apply stmt_spec_out_of_fuel. intros b st. exact I.
  - destruct IH as (Hblock & Hloop & Hif & Hwhile).
    with_expr_lemmas.
    pose proof (stmt_spec_parseInitStatement n).
    pose proof (stmt_spec_parseAssignOrFunCall n).
    pose proof (stmt_spec_parseReturnStatement n).
    pose proof stmt_spec_parseAppendStatement.
    split_and!.
    + intros b st. apply (block_spec_step _ b Hloop).
    + simpl. repeat stmt_step.
    + simpl. repeat stmt_step.
    + simpl. repeat stmt_step.
Qed.

Lemma block_spec_parseStmtBlock n : block_spec (parseStmtBlock n).
Proof. apply (block_specs_all n). Qed.


(** ** Running the token cursor *)

Lemma accept_hit t d st :
  getType (getToken st) = t -> accept t d st = Ok true (move_state st).
Proof. intros H. unfold accept. by rewrite decide_True. Qed.

Lemma accept_miss t st :
  getType (getToken st) <> t -> accept t NOTHROW st = Ok false st.
Proof. intros H. unfold accept. by rewrite decide_False. Qed.

Lemma accept_fail t st :
  getType (getToken st) <> t -> accept t THROW st = Throw SyntaxError st.
Proof. intros H. unfold accept. by rewrite decide_False. Qed.

Lemma resolve_visible st b x :
  wf_state st -> block st = Some b -> visible (heap st) b x ->
  exists r, resolve st b x = Some r /\ ref_name r = x /\
            declares (heap st) (ref_block r) x.
Proof.
  intros [Hwf Hcur] Hb Hv.
  assert (Hin : in_scope st b x = true) by (apply in_scope_visible; auto).
  rewrite resolve_in_scope in Hin. apply bool_decide_eq_true in Hin.
  destruct Hin as [r Hr]. exists r. split; [done|].
  by apply walk_find_name in Hr.
Qed.

Lemma resolve_not_visible st b x :
  ~ visible (heap st) b x -> resolve st b x = None.
Proof.
  intros Hv. destruct (resolve st b x) as [r|] eqn:Hr; [|done].
  exfalso. apply Hv. apply (walk_visible (length (heap st))).
  fold (in_scope st b x). rewrite resolve_in_scope, Hr.
  apply bool_decide_eq_true. eauto.
Qed.

Lemma in_scope_not_visible st b x :
  ~ visible (heap st) b x -> in_scope st b x = false.
Proof.
  intros Hv. rewrite resolve_in_scope, (resolve_not_visible _ _ _ Hv). done.
Qed.

Lemma existVariable_run st b :
  block st = Some b ->
  existVariable st =
    if in_scope st b (getString (current st)) then Ok true st
    else Throw UndefinedVariable st.
Proof.
  intros Hb.
  cbv [existVariable bind getBlock gets Block.existVariable in_scope].
  rewrite Hb. by destruct (Block.existVariable_walk _ _ _ _).
Qed.

Lemma findVariable_run st b x :
  block st = Some b ->
  findVariable x st =
    match resolve st b x with
    | Some r => Ok r st
    | None => Throw UndefinedVariable st
    end.
Proof.
  intros Hb. unfold findVariable, bind, getBlock. by rewrite Hb.
Qed.

(** ** C1: re-declaration *)

Lemma bind_Ok {A B} (m : M A) (f : A -> M B) st b st' :
  bind m f st = Ok b st' ->
  exists a st1, m st = Ok a st1 /\ f a st1 = Ok b st'.
Proof.
  unfold bind. destruct (m st) as [a st1|e st1|]; [eauto|done|done].
Qed.

Lemma expr_spec_Ok {A} (m : M A) st a st' :
  expr_spec m -> m st = Ok a st' -> same_scope st st'.
Proof. intros Hm H. specialize (Hm st). by rewrite H in Hm. Qed.

Lemma expr_spec_parseInitStatement_tail fuel id :
  expr_spec (parseInitStatement_tail fuel id).
Proof.
  pose proof expr_spec_findVariable. pose proof expr_spec_parseOrExpr.
  unfold parseInitStatement_tail. repeat expr_step.
Qed.

Lemma findVariable_Ok x st r st' :
  findVariable x st = Ok r st' ->
  st' = st /\ exists b, block st = Some b /\ resolve st b x = Some r.
Proof.
  unfold findVariable, bind, getBlock, Block.findVariable.
  destruct (block st) as [b|]; [|done]. fold (resolve st b x).
  destruct (resolve st b x) as [r'|] eqn:Hr; [|done].
  intros [= <- <-]. eauto.
Qed.

Lemma parseInitStatement_tail_Ok fuel id st s st' b :
  block st = Some b -> declares (heap st) b id ->
  parseInitStatement_tail fuel id st = Ok s st' ->
  exists e, s = AssignStatement (mkRef b id) (Some false) None e.
Proof.
  intros Hb Hdecl H. unfold parseInitStatement_tail in H.
  apply bind_Ok in H as (init & st1 & H1 & H).
  apply bind_Ok in H as (e & st2 & H2 & H).
  apply bind_Ok in H as (? & st3 & H3 & H).
  apply bind_Ok in H as (v & st4 & H4 & H).
  injection H as <- <-. exists e.
  apply findVariable_Ok in H4 as (-> & b' & Hb' & Hr).
  assert (Hs : same_scope st st3).
  { eapply same_scope_trans; [eapply expr_spec_Ok, H1; apply expr_spec_accept|].
    eapply same_scope_trans; [|eapply expr_spec_Ok, H3; apply expr_spec_accept].
    eapply expr_spec_Ok, H2. destruct init;
      [apply expr_spec_parseOrExpr|apply expr_spec_ret]. }
  destruct Hs as (Hsb & _ & Hsh).
  rewrite Hsb, Hb in Hb'. injection Hb' as <-.
  rewrite resolve_here in Hr by (by rewrite Hsh). by injection Hr as <-.
Qed.

Lemma declares_declare h b x v :
  b < length h -> declares (alter (Block.declare x v) b h) b x.
Proof.
  intros Hb. destruct (lookup_lt_is_Some_2 h b Hb) as [blk Hblk].
  exists (Block.declare x v blk). rewrite list_lookup_alter_eq, Hblk.
  split; [done|]. simpl. rewrite lookup_insert_eq. eauto.
Qed.

Lemma parseInitStatement_run fuel st tk rest b :
  scr st = tk :: rest -> getType tk = I_Identifier -> block st = Some b ->
  parseInitStatement fuel st =
    if in_scope st b (getString tk)
    then Throw DuplicateVariable (move_state st)
    else parseInitStatement_tail fuel (getString tk)
           (with_heap
              (alter (Block.declare (getString tk) defaultVar) b (heap st))
              (move_state st)).
Proof.
  intros Hscr Htk Hb.
  assert (Hacc : accept I_Identifier THROW st = Ok true (move_state st)).
  { apply accept_hit. unfold getToken. by rewrite Hscr. }
  assert (Hcurrent : getToken st = tk).
  { unfold getToken. by rewrite Hscr. }
  unfold parseInitStatement, bind at 1. rewrite Hacc.
  unfold bind at 1, gets. unfold bind at 1, getBlock. simpl.
  rewrite Hb, Hcurrent. unfold bind at 1, Block.existVariable, gets.
  change (Block.existVariable_walk _ _ _ _)
    with (in_scope st b (getString tk)).
  by destruct (in_scope st b (getString tk)).
Qed.

(** C1, as the code has it: [parseInitStatement] rejects a name that is
    visible from the current block: one the current block itself
    declares, and just as well one that only an enclosing block
    declares.  A name that no block of the chain declares passes the
    check and is declared in the current block alone, the statement built
    binding that block's slot. *)
Theorem var_declaration_checks_scope_chain fuel st tk rest b :
  scr st = tk :: rest -> getType tk = I_Identifier ->
  block st = Some b -> wf_state st ->
  (declares (heap st) b (getString tk) ->
   parseInitStatement fuel st = Throw DuplicateVariable (move_state st)) /\
  (forall p,
      encloses (heap st) p b -> declares (heap st) p (getString tk) ->
      parseInitStatement fuel st = Throw DuplicateVariable (move_state st)) /\
  (~ visible (heap st) b (getString tk) ->
   match parseInitStatement fuel st with
   | Ok s st' =>
       heap st' = alter (Block.declare (getString tk) defaultVar) b (heap st)
       /\ exists e,
           s = AssignStatement (mkRef b (getString tk)) (Some false) None e
   | Throw e st' =>
       e <> DuplicateVariable /\
       heap st' = alter (Block.declare (getString tk) defaultVar) b (heap st)
   | OutOfFuel => True
   end).
Proof.
  intros Hscr Htk Hb [Hwf Hcur].
  assert (Hlt : b < length (heap st)) by auto.
  rewrite (parseInitStatement_run fuel st tk rest b Hscr Htk Hb).
  assert (Hdup : visible (heap st) b (getString tk) ->
                 (if in_scope st b (getString tk)
                  then Throw DuplicateVariable (move_state st)
                  else parseInitStatement_tail fuel (getString tk)
                         (with_heap
                            (alter (Block.declare (getString tk) defaultVar)
                               b (heap st))
                            (move_state st)))
                 = Throw DuplicateVariable (move_state st)).
  { intros Hv. by rewrite (proj2 (in_scope_visible st b _ Hwf Hlt) Hv). }
  split_and!.
  - intros Hd. apply Hdup. by apply visible_here.
  - intros p Hp Hd. apply Hdup. apply visible_cases. eauto.
  - intros Hv. rewrite (in_scope_not_visible _ _ _ Hv).
    set (st2 := with_heap _ (move_state st)).
    pose proof (expr_spec_parseInitStatement_tail fuel (getString tk) st2)
      as Hspec.
    destruct (parseInitStatement_tail fuel (getString tk) st2)
      as [s st'|e st'|] eqn:Htail; [| |done].
    + destruct Hspec as (_ & _ & Hh). split; [done|].
      eapply parseInitStatement_tail_Ok; [| |exact Htail]; [done|].
      by apply declares_declare.
    + destruct Hspec as ((_ & _ & Hh) & He). done.
Qed.


Lemma visible_of_in_scope st b x :
  in_scope st b x = true -> visible (heap st) b x.
Proof. apply walk_visible. Qed.

Lemma not_visible_of_in_scope st b x :
  wf_heap (heap st) -> b < length (heap st) ->
  in_scope st b x = false -> ~ visible (heap st) b x.
Proof.
  intros Hwf Hb Hin Hv. apply (in_scope_visible st b x Hwf Hb) in Hv.
  congruence.
Qed.

(** Well-formedness of a concrete store, by cases on the block index. *)
Ltac solve_wf_heap :=
  let b := fresh "b" in
  let Hb := fresh "Hb" in
  let Hp := fresh "Hp" in
  intros b ? ? Hb Hp;
  repeat (destruct b as [|b];
          [simpl in Hb; injection Hb as <-; simpl in Hp;
           first [discriminate Hp | injection Hp as <-; lia]|]);
  discriminate Hb.

Ltac solve_wf_state :=
  split; [solve_wf_heap|intros ? [= <-]; simpl; lia].

(** The second [var x] of [fun f() { var x; { var x; } }]: [x] is
    declared by block 0, which encloses the current block 1. *)
Lemma var_declaration_checks_scope_chain_witness :
  parseInitStatement 5 st_nested_var
  = Throw DuplicateVariable (move_state st_nested_var).
Proof.
  destruct (var_declaration_checks_scope_chain 5 st_nested_var (ident "x")
              [tok T_Semicolon; tok T_CloseBrace; tok T_CloseBrace] 1)
    as (_ & Houter & _).
  - reflexivity.
  - reflexivity.
  - reflexivity.
  - solve_wf_state.
  - apply (Houter 0).
    + by eapply encloses_parent.
    + eexists. split; [reflexivity|]. vm_compute. eauto.
Defined.

Lemma nested_redeclaration_is_rejected :
  match parseProgram 10 (init prog_redeclare_nested) with
  | Throw e st =>
      e = DuplicateVariable /\
      current st = ident "x" /\ block st = Some 1 /\
      heap st !! 1 = Some (mkBlock (Some 0) ∅ []) /\
      declares (heap st) 0 "x"
  | _ => False
  end.
Proof.
  vm_compute. split_and!; try reflexivity.
  eexists. split; [reflexivity|]. vm_compute. eauto.
Qed.

(** [parseInitStatement] rejects a name exactly when a reference to that
    name at the same place would resolve: both ask
    [block->existVariable]. *)
Lemma declaration_rejected_iff_reference_resolves fuel st tk rest b :
  scr st = tk :: rest -> getType tk = I_Identifier -> block st = Some b ->
  parseInitStatement fuel st = Throw DuplicateVariable (move_state st) <->
  existVariable (move_state st) = Ok true (move_state st).
Proof.
  intros Hscr Htk Hb.
  rewrite (parseInitStatement_run fuel st tk rest b Hscr Htk Hb).
  rewrite (existVariable_run (move_state st) b Hb).
  assert (Hcur : current (move_state st) = tk).
  { unfold move_state, getToken. simpl. by rewrite Hscr. }
  rewrite Hcur.
  change (in_scope (move_state st) b (getString tk))
    with (in_scope st b (getString tk)).
  destruct (in_scope st b (getString tk)); [done|].
  split; [|done]. intros H. exfalso.
  match type of H with
  | parseInitStatement_tail ?f ?x ?s = _ =>
      pose proof (expr_spec_parseInitStatement_tail f x s) as Hspec
  end.
  rewrite H in Hspec. by destruct Hspec as [_ ?].
Qed.

(** ** C2: the top-level loop *)

Lemma parseProgram_stuck fuel st :
  getType (getToken st) <> T_EOF -> getType (getToken st) <> K_Fun ->
  parseProgram fuel st = OutOfFuel.
Proof.
  intros Heof Hfun. induction fuel as [|n IH]; [done|].
  simpl. unfold bind at 1, gets. rewrite decide_True by done.
  unfold bind at 1. rewrite accept_miss by done.
  unfold bind at 1, ret. exact IH.
Qed.

(** C2, at the stream holding the single token [;]: the loop body of
    [parseProgram] declines the token without consuming it, so every
    iteration starts from the same state and no amount of fuel lets the
    loop finish. *)
Theorem parseProgram_spins_on_stray_token :
  accept K_Fun NOTHROW (init [tok T_Semicolon])
  = Ok false (init [tok T_Semicolon]) /\
  forall fuel, parseProgram fuel (init [tok T_Semicolon]) = OutOfFuel.
Proof.
  split; [reflexivity|]. intros fuel. by apply parseProgram_stuck.
Qed.


(** ** C5 and C3: calls *)

Lemma parseFunCall_unfold n name st :
  parseFunCall (S n) name st =
  match program st !! name with
  | None => Throw UndefinedFunction st
  | Some _ =>
      (args <- callArguments n ;;
       functionDef <- Program.findFunction name ;;
       if decide (size functionDef ≠ length args) then throw ArityMismatch
       else ret (FunctionCall name args)) st
  end.
Proof.
  simpl. unfold bind at 1, Program.existFunction, gets.
  destruct (program st !! name) as [fd|]; simpl; [|done].
  unfold callArguments, bind. destruct (accept T_CloseParen NOTHROW st) as [[] ?| |]; try done.
Qed.

Lemma expr_spec_callArguments n : expr_spec (callArguments n).
Proof.
  pose proof expr_spec_parseOrExpr.
  pose proof (expr_specs_all n) as (_&_&_&_&_&_&_&_&_&_&_&_&?).
  unfold callArguments. repeat expr_step.
Qed.

Lemma parseFunCall_checked n name st fd args st' :
  program st !! name = Some fd ->
  callArguments n st = Ok args st' ->
  parseFunCall (S n) name st =
    if decide (length args = size fd)
    then Ok (FunctionCall name args) st'
    else Throw ArityMismatch st'.
Proof.
  intros Hfd Hargs. rewrite parseFunCall_unfold, Hfd.
  unfold bind at 1. rewrite Hargs.
  destruct (expr_spec_Ok _ _ _ _ (expr_spec_callArguments n) Hargs)
    as (_ & Hp & _).
  unfold bind, Program.findFunction. rewrite Hp, Hfd.
  destruct (decide (size fd ≠ length args)), (decide (length args = size fd));
    try done; congruence.
Qed.

Lemma parseBaseMathExpr_call m st tk t1 rest :
  scr st = tk :: t1 :: rest ->
  getType tk = I_Identifier -> getType t1 = T_OpenParen ->
  parseBaseMathExpr (S m) st =
    (s <- parseFunCall m (getString tk) ;; ret (BaseMathExpr (OStmt s) false))
      (move_state (move_state st)).
Proof.
  destruct st as [toks c bl pr hp], tk as [ty s z], t1 as [ty1 s1 z1].
  simpl. intros -> -> ->. reflexivity.
Qed.
(** *** More fuel changes nothing *)

Lemma refines_refl {A} (m : M A) : refines m m.
Proof. by intros st _. Qed.

Lemma refines_out_of_fuel {A} (m : M A) : refines out_of_fuel m.
Proof. by intros st H. Qed.

Lemma refines_bind {A B} (m m' : M A) (k k' : A -> M B) :
  refines m m' -> (forall a, refines (k a) (k' a)) ->
  refines (bind m k) (bind m' k').
Proof.
  intros Hm Hk st. unfold bind. specialize (Hm st).
  destruct (m st) as [a st1|e st1|]; [| |done].
  - intros H. rewrite Hm by done. by apply Hk.
  - intros _. by rewrite Hm.
Qed.

Ltac refines_step :=
  match goal with
  | |- refines (let _ := _ in _) _ => cbv zeta
  | |- refines ?m ?m => apply refines_refl
  | |- refines out_of_fuel _ => apply refines_out_of_fuel
  | |- refines (bind _ _) (bind _ _) => apply refines_bind; [|intros ?]
  | |- refines (if ?b then _ else _) (if ?b then _ else _) => destruct b
  | |- refines (match ?x with _ => _ end) (match ?x with _ => _ end) =>
      destruct x
  | H : refines ?m ?m' |- refines ?m ?m' => exact H
  | H : forall a, refines (?f a) (?g a) |- refines (?f _) (?g _) => apply H
  | H : forall a b, refines (?f a b) (?g a b) |- refines (?f _ _) (?g _ _) =>
      apply H
  end.

Lemma refines_parseVectorLiteral_loop n n' vs :
  n <= n' ->
  refines (parseVectorLiteral_loop n vs) (parseVectorLiteral_loop n' vs).
Proof.
  revert n' vs. induction n as [|n IH]; intros n' vs Hle;
    [apply refines_out_of_fuel|].
  destruct n' as [|n']; [lia|]. specialize (IH n').
  simpl. repeat refines_step. apply IH. lia.
Qed.

Lemma refines_parseVectorLiteral n n' :
  n <= n' -> refines (parseVectorLiteral n) (parseVectorLiteral n').
Proof.
  intros Hle. pose proof (fun vs => refines_parseVectorLiteral_loop n n' vs Hle).
  unfold parseVectorLiteral. repeat refines_step.
Qed.

Lemma expr_refines_all n n' : n <= n' -> expr_refines n n'.
Proof.
  revert n'. induction n as [|n IH]; intros n' Hle; unfold expr_refines.
  - split_and!; intros; apply refines_out_of_fuel.
  - destruct n' as [|n']; [lia|].
    destruct (IH n' ltac:(lia)) as (?&?&?&?&?&?&?&?&?&?&?&?&?).
    pose proof (refines_parseVectorLiteral n n' ltac:(lia)).
    split_and!; intros; simpl; repeat refines_step.
Qed.

Lemma parseOrExpr_more_fuel n n' st e st' :
  n <= n' -> parseOrExpr n st = Ok e st' -> parseOrExpr n' st = Ok e st'.
Proof.
  intros Hle H. destruct (expr_refines_all n n' Hle) as (Hor & _).
  rewrite (Hor st); [done|]. by rewrite H.
Qed.

(** *** The arguments [parseFunCall] collects *)

Lemma more_arguments_more_fuel k k' st args st' :
  k <= k' -> more_arguments k st args st' -> more_arguments k' st args st'.
Proof.
  intros Hle. induction 1 as [st Hclose|st e st1 es st' Hcomma He _ IH].
  - by constructor.
  - econstructor; [done| |done]. by eapply parseOrExpr_more_fuel.
Qed.

Lemma argument_list_more_fuel k k' st args st' :
  k <= k' -> argument_list k st args st' -> argument_list k' st args st'.
Proof.
  intros Hle. destruct args as [|e es]; [done|].
  intros (Hne & st1 & He & Hmore). split; [done|]. exists st1.
  split; [by eapply parseOrExpr_more_fuel|by eapply more_arguments_more_fuel].
Qed.

Lemma parseFunCall_loop_reads k st es st' :
  more_arguments k st es st' ->
  forall n acc, k + length es < n ->
    parseFunCall_loop n acc st = Ok (acc ++ es) st'.
Proof.
  induction 1 as [st Hclose|st e st1 es st' Hcomma He _ IH];
    intros n acc Hn; (destruct n as [|n]; [lia|]); simpl in *.
  - unfold bind. rewrite accept_hit by done. by rewrite app_nil_r.
  - unfold bind at 1. rewrite accept_miss by congruence.
    unfold bind at 1. rewrite accept_hit by done.
    unfold bind at 1.
    rewrite (parseOrExpr_more_fuel k n _ _ _ ltac:(lia) He).
    rewrite IH by lia. by rewrite <- app_assoc.
Qed.

Lemma callArguments_reads k st args st' n :
  argument_list k st args st' -> k + length args <= n ->
  callArguments n st = Ok args st'.
Proof.
  unfold callArguments. destruct args as [|e es]; simpl.
  - intros [Hclose ->] _. unfold bind. by rewrite accept_hit.
  - intros (Hne & st1 & He & Hmore) Hn.
    unfold bind at 1. rewrite accept_miss by done.
    unfold bind at 1.
    rewrite (parseOrExpr_more_fuel k n _ _ _ ltac:(lia) He).
    by rewrite (parseFunCall_loop_reads k _ _ _ Hmore n [e]) by lia.
Qed.

Lemma accept_Ok_inv t d st b st' :
  accept t d st = Ok b st' ->
  if b then getType (getToken st) = t /\ st' = move_state st
  else getType (getToken st) <> t /\ st' = st /\ d = NOTHROW.
Proof.
  destruct (decide (getType (getToken st) = t)) as [Ht|Ht].
  - rewrite accept_hit by done. by intros [= <- <-].
  - destruct d; [by rewrite accept_fail|].
    rewrite accept_miss by done. by intros [= <- <-].
Qed.

Lemma parseFunCall_loop_Ok n acc st args st' :
  parseFunCall_loop n acc st = Ok args st' ->
  exists es, args = acc ++ es /\ more_arguments n st es st'.
Proof.
  revert acc st. induction n as [|n IH]; intros acc st; [done|].
  simpl. intros H. apply bind_Ok in H as ([] & st1 & Hclose & H);
    apply accept_Ok_inv in Hclose.
  - destruct Hclose as [Hclose ->]. injection H as <- <-.
    exists []. split; [by rewrite app_nil_r|]. by constructor.
  - destruct Hclose as (Hclose & -> & _).
    apply bind_Ok in H as ([] & st2 & Hcomma & H);
      apply accept_Ok_inv in Hcomma; [|by destruct Hcomma as (_ & _ & ?)].
    destruct Hcomma as [Hcomma ->].
    apply bind_Ok in H as (e & st3 & He & H).
    apply IH in H as (es & -> & Hmore).
    exists (e :: es). split; [by rewrite <- app_assoc|].
    econstructor; [done|by eapply parseOrExpr_more_fuel; [|exact He]; lia|].
    eapply more_arguments_more_fuel; [|exact Hmore]. lia.
Qed.

Lemma callArguments_Ok n st args st' :
  callArguments n st = Ok args st' -> argument_list n st args st'.
Proof.
  unfold callArguments. intros H.
  apply bind_Ok in H as ([] & st1 & Hclose & H);
    apply accept_Ok_inv in Hclose.
  - destruct Hclose as [Hclose ->]. by injection H as <- <-.
  - destruct Hclose as (Hclose & -> & _).
    apply bind_Ok in H as (e & st2 & He & H).
    apply parseFunCall_loop_Ok in H as (es & -> & Hmore).
    simpl. split; [done|]. by exists st2.
Qed.

(** C5: the arity check of a call.  Let the callee be defined with
    [size fd] parameters, and let [st] be the state right after the [(]
    of a call to it.  If the tokens from there are [)] or [e , e ... )],
    the [e] being whatever expressions [parseOrExpr] reads there and
    [args] their trees, then [parseFunCall] returns exactly when there
    are [size fd] of them, having read up to the [)], and is the fault
    [ArityMismatch] otherwise; and so does the call as a statement
    ([parseAssignOrFunCall], which then wants its [;]) and the call
    inside an expression ([parseBaseMathExpr]).  Conversely, when
    [parseFunCall] returns, it returns the call with the expressions
    that stand between the parentheses, [size fd] of them. *)
Theorem call_arity_is_checked n name fd st :
  program st !! name = Some fd ->
  (forall k args st',
      argument_list k st args st' -> k + length args < n ->
      parseFunCall n name st =
        (if decide (length args = size fd)
         then Ok (FunctionCall name args) st'
         else Throw ArityMismatch st') /\
      (forall st0,
          getString (current st0) = name ->
          getType (getToken st0) = T_OpenParen -> move_state st0 = st ->
          parseAssignOrFunCall n st0 =
            if decide (length args = size fd)
            then (accept T_Semicolon THROW ;; ret (FunctionCall name args)) st'
            else Throw ArityMismatch st') /\
      (forall st0 tk t1 rest,
          scr st0 = tk :: t1 :: rest ->
          getType tk = I_Identifier -> getString tk = name ->
          getType t1 = T_OpenParen -> move_state (move_state st0) = st ->
          parseBaseMathExpr (S n) st0 =
            if decide (length args = size fd)
            then Ok (BaseMathExpr (OStmt (FunctionCall name args)) false) st'
            else Throw ArityMismatch st')) /\
  (forall s st',
      parseFunCall n name st = Ok s st' ->
      exists args,
        s = FunctionCall name args /\ argument_list n st args st' /\
        length args = size fd).
Proof.
  intros Hfd. split.
  - intros k args st' Hargs Hn. destruct n as [|n]; [lia|].
    assert (Hcall : parseFunCall (S n) name st =
      if decide (length args = size fd)
      then Ok (FunctionCall name args) st'
      else Throw ArityMismatch st').
    { apply parseFunCall_checked; [done|].
      apply (callArguments_reads k); [done|lia]. }
    split; [exact Hcall|]. split.
    + intros st0 Hname Hparen <-.
      unfold parseAssignOrFunCall, bind at 1, gets.
      unfold bind at 1. rewrite accept_hit by done.
      unfold bind at 1. rewrite Hname, Hcall.
      by destruct (decide _).
    + intros st0 tk t1 rest Hscr Htk Hname Ht1 <-.
      rewrite (parseBaseMathExpr_call _ _ _ _ _ Hscr Htk Ht1).
      unfold bind. rewrite Hname, Hcall. by destruct (decide _).
  - intros s st'. destruct n as [|n]; [done|].
    rewrite parseFunCall_unfold, Hfd. intros H.
    apply bind_Ok in H as (args & st1 & Hargs & H).
    pose proof (expr_spec_Ok _ _ _ _ (expr_spec_callArguments n) Hargs)
      as (_ & Hp & _).
    apply bind_Ok in H as (fd' & st2 & Hfind & H).
    revert Hfind. unfold Program.findFunction. rewrite Hp, Hfd.
    intros [= <- <-].
    destruct (decide (size fd ≠ length args)) as [|Heq]; [done|].
    injection H as <- <-. exists args. split; [done|].
    split; [|by destruct (decide (length args = size fd)); [|lia]].
    apply (argument_list_more_fuel n); [lia|]. by apply callArguments_Ok.
Qed.

Lemma call_arity_is_checked_witness :
  parseFunCall 20 "f" st_call = Ok (FunctionCall "f" [arg_arith]) st_call_end /\
  parseFunCall 20 "f" st_call_two
  = Throw ArityMismatch
      (mkParser [tok T_Semicolon; tok T_CloseBrace] (tok T_CloseParen)
         (Some 0) {["f" := mkFun "f" ["x"] 0]}
         [mkBlock None {["x" := defaultVar]} []]).
Proof.
  split.
  - destruct (call_arity_is_checked 20 "f" (mkFun "f" ["x"] 0) st_call)
      as [H _]; [reflexivity|].
    apply (H 12 [arg_arith] st_call_end); [|simpl; lia].
    split; [discriminate|]. eexists. split; [vm_compute; reflexivity|].
    by apply more_arguments_close.
  - destruct (call_arity_is_checked 20 "f" (mkFun "f" ["x"] 0) st_call_two)
      as [H _]; [reflexivity|].
    apply (H 12 [primary (literal 1); primary (literal 2)]); [|simpl; lia].
    split; [discriminate|]. eexists. split; [vm_compute; reflexivity|].
    eapply more_arguments_comma;
      [reflexivity|vm_compute; reflexivity|by apply more_arguments_close].
Defined.


(** A call inside an expression with one argument too many, and a call
    statement with one too few. *)
Lemma wrong_argument_count_is_a_fault :
  match parseProgram 20 (init prog_too_many_arguments) with
  | Throw e _ => e = ArityMismatch
  | _ => False
  end /\
  match parseProgram 20 (init prog_too_few_arguments) with
  | Throw e _ => e = ArityMismatch
  | _ => False
  end.
Proof. split; vm_compute; reflexivity. Qed.

Lemma stmt_spec_make_root : stmt_spec (Block.make None).
Proof.
  intros st. unfold Block.make.
  split; [apply make_extends|]. split; [done|].
  intros [Hwf Hcur]. split; simpl.
  - by apply make_wf_heap.
  - intros b Hb. rewrite length_app. specialize (Hcur b Hb). lia.
Qed.

Lemma stmt_spec_parseArgs_loop n fd : stmt_spec (parseArgs_loop n fd).
Proof.
  revert fd. induction n as [|n IH]; intros fd; simpl;
    unfold addParam; repeat stmt_step.
Qed.

Lemma stmt_spec_parseArgs n fd : stmt_spec (parseArgs n fd).
Proof.
  pose proof (stmt_spec_parseArgs_loop n).
  unfold parseArgs, addParam. repeat stmt_step.
Qed.

Lemma stmt_spec_parseFunctionHeader n : stmt_spec (parseFunctionHeader n).
Proof.
  pose proof (stmt_spec_parseArgs n). pose proof stmt_spec_make_root.
  unfold parseFunctionHeader, makeFunctionDefinition. repeat stmt_step.
Qed.

Lemma parseFunction_unfold fuel st :
  parseFunction fuel st =
  match parseFunctionHeader fuel st with
  | Ok fd st1 =>
      (accept T_OpenBrace THROW ;; parseStmtBlock fuel (getFunctionBlock fd))
        (register fd st1)
  | Throw e st1 => Throw e st1
  | OutOfFuel => OutOfFuel
  end.
Proof.
  unfold parseFunction, parseFunctionHeader, bind.
  destruct (accept I_Identifier THROW st) as [? st1| |]; [|done|done].
  destruct (gets current st1) as [cur st2| |]; [|done|done].
  destruct (makeFunctionDefinition _ st2) as [fn st3| |]; [|done|done].
  destruct (accept T_OpenParen THROW st3) as [? st4| |]; [|done|done].
  destruct (parseArgs fuel fn st4) as [fd st5| |]; done.
Qed.


(** *** The parsers of a body leave the function table alone *)

Lemma inside_refl st : inside st st.
Proof. apply rtc_refl. Qed.

Lemma inside_step st st' : body_step st st' -> inside st st'.
Proof. apply rtc_once. Qed.


Lemma runs_inside_bind {A B} (m : M A) (k : A -> M B) :
  runs_inside m -> (forall a, runs_inside (k a)) -> runs_inside (bind m k).
Proof.
  intros Hm Hk st st'. unfold bind. specialize (Hm st).
  destruct (m st) as [a st1|e st1|]; [|by apply Hm|done].
  intros H. eapply rtc_trans; [by apply Hm|by eapply Hk].
Qed.

Lemma runs_inside_pure {A} (m : M A) :
  (forall st, match m st with
              | Ok _ st' | Throw _ st' => st' = st
              | OutOfFuel => True
              end) ->
  runs_inside m.
Proof.
  intros Hm st st'. specialize (Hm st).
  destruct (m st) as [a st1|e st1|]; [| |done];
    intros [= <-]; subst st1; apply inside_refl.
Qed.

Lemma runs_inside_modify f :
  (forall st, body_step st (f st)) -> runs_inside (modify f).
Proof. intros Hf st st' [= <-]. by apply inside_step. Qed.

Lemma runs_inside_accept t d : runs_inside (accept t d).
Proof.
  intros st st'. unfold accept. destruct (decide _).
  - intros [= <-]. apply inside_step. constructor.
  - destruct d; intros [= <-]; apply inside_refl.
Qed.

Lemma runs_inside_make parent : runs_inside (Block.make parent).
Proof. intros st st' [= <-]. apply inside_step. constructor. Qed.

Lemma runs_inside_findVariable_block b x :
  runs_inside (Block.findVariable b x).
Proof.
  apply runs_inside_pure. intros st. unfold Block.findVariable.
  by destruct (Block.findVariable_walk _ _ _ _).
Qed.

Ltac inside_step :=
  match goal with
  | |- runs_inside (let _ := _ in _) => cbv zeta
  | |- runs_inside (bind _ _) => apply runs_inside_bind; [|intros ?]
  | |- runs_inside (accept _ _) => apply runs_inside_accept
  | |- runs_inside (accept1 _) => apply runs_inside_accept
  | |- runs_inside move => apply runs_inside_modify; constructor
  | |- runs_inside (setBlock _) => apply runs_inside_modify; constructor
  | |- runs_inside (Block.addVariable _ _ _) =>
      apply runs_inside_modify; constructor
  | |- runs_inside (Block.addStatement _ _) =>
      apply runs_inside_modify; constructor
  | |- runs_inside (Block.make _) => apply runs_inside_make
  | |- runs_inside (Block.findVariable _ _) =>
      apply runs_inside_findVariable_block
  | |- runs_inside (ret _) => by apply runs_inside_pure
  | |- runs_inside (gets _) => by apply runs_inside_pure
  | |- runs_inside (throw _) => by apply runs_inside_pure
  | |- runs_inside out_of_fuel => by apply runs_inside_pure
  | |- runs_inside (Block.existVariable _ _) => by apply runs_inside_pure
  | |- runs_inside (Program.existFunction _) => by apply runs_inside_pure
  | |- runs_inside getBlock =>
      apply runs_inside_pure; intros ?; unfold getBlock; by destruct (block _)
  | |- runs_inside (Block.parentOf _) =>
      apply runs_inside_pure; intros ?; unfold Block.parentOf;
      by destruct (_ !! _)
  | |- runs_inside (Program.findFunction _) =>
      apply runs_inside_pure; intros ?; unfold Program.findFunction;
      by destruct (_ !! _)
  | |- runs_inside (if ?b then _ else _) => destruct b
  | |- runs_inside (match ?x with _ => _ end) => destruct x
  | H : runs_inside ?m |- runs_inside ?m => exact H
  | H : forall a, runs_inside (?f a) |- runs_inside (?f _) => apply H
  | H : forall a b, runs_inside (?f a b) |- runs_inside (?f _ _) => apply H
  end.












(** The two programs of the claim, parsed whole: the self-recursive
    function parses, the forward call is [UndefinedFunction]. *)
Lemma self_recursion_parses :
  match parseProgram 20 (init prog_self_recursion) with
  | Ok _ st =>
      program st !! "f" = Some (mkFun "f" ["x"] 0) /\
      exists e, statements <$> heap st !! 0 = Some [ReturnStatementExpr e]
  | _ => False
  end.
Proof. vm_compute. split; [reflexivity|]. eexists. reflexivity. Qed.

Lemma forward_call_is_undefined :
  match parseProgram 20 (init prog_forward_call) with
  | Throw e st => e = UndefinedFunction /\ program st !! "g" = None
  | _ => False
  end.
Proof. vm_compute. split; reflexivity. Qed.

(** Whatever follows the call, even a later definition of the callee. *)
Lemma forward_call_any_continuation n rest :
  exists st,
    parseProgram (10 + n)
      (init ([tok K_Fun; ident "main"; tok T_OpenParen; tok T_CloseParen;
              tok T_OpenBrace; ident "g"; tok T_OpenParen] ++ rest))
    = Throw UndefinedFunction st.
Proof. eexists. vm_compute. reflexivity. Qed.


(** ** C4: the operands of [append] *)

Lemma resolve_not_visible_walk st b x :
  ~ visible (heap st) b x ->
  Block.findVariable_walk (length (heap st)) (heap st) (Some b) x = None.
Proof. apply resolve_not_visible. Qed.

(** C4: both identifiers of [append(a, b)] are resolved in the scope
    chain of the current block, [a] first: an [a] that is visible
    nowhere in the chain is the fault [UndefinedVariable], and so is a
    [b] visible nowhere when [a] is; with both visible and the statement
    closed by [)] and [;] the statement is built on the two slots. *)
Theorem append_operands_must_be_declared st b t0 tkA rest :
  block st = Some b -> wf_state st ->
  scr st = t0 :: tkA :: rest ->
  getType t0 = T_OpenParen -> getType tkA = I_Identifier ->
  (~ visible (heap st) b (getString tkA) ->
   parseAppendStatement st = Throw UndefinedVariable (advance 2 st)) /\
  (forall t1 tkB rest',
      rest = t1 :: tkB :: rest' ->
      getType t1 = T_Comma -> getType tkB = I_Identifier ->
      visible (heap st) b (getString tkA) ->
      (~ visible (heap st) b (getString tkB) ->
       parseAppendStatement st = Throw UndefinedVariable (advance 4 st)) /\
      (forall t2 t3 rest'',
          rest' = t2 :: t3 :: rest'' ->
          getType t2 = T_CloseParen -> getType t3 = T_Semicolon ->
          visible (heap st) b (getString tkB) ->
          exists from to,
            resolve st b (getString tkA) = Some from /\
            resolve st b (getString tkB) = Some to /\
            parseAppendStatement st
            = Ok (AppendStatement from to) (advance 6 st))).
Proof.
  intros Hb Hwf Hscr Ht0 HtA. split.
  - intros Hv. apply resolve_not_visible_walk in Hv.
    destruct st as [toks c bl pr hp], t0 as [ty0 s0 z0], tkA as [tyA sA zA].
    simpl in *. subst.
    cbv [parseAppendStatement bind accept findVariable getBlock
         Block.findVariable gets ret advance Nat.iter]. simpl. by rewrite Hv.
  - intros t1 tkB rest' -> Ht1 HtB HvA.
    destruct (resolve_visible st b _ Hwf Hb HvA) as (from & Hfrom & _).
    split.
    + intros Hv. apply resolve_not_visible_walk in Hv.
      unfold resolve in Hfrom.
      destruct st as [toks c bl pr hp], t0 as [ty0 s0 z0],
        tkA as [tyA sA zA], t1 as [ty1 s1 z1], tkB as [tyB sB zB].
      simpl in *. subst.
      cbv [parseAppendStatement bind accept findVariable getBlock
           Block.findVariable gets ret advance Nat.iter]. simpl. rewrite Hfrom. simpl. by rewrite Hv.
    + intros t2 t3 rest'' -> Ht2 Ht3 HvB.
      destruct (resolve_visible st b _ Hwf Hb HvB) as (to & Hto & _).
      exists from, to. split; [done|]. split; [done|].
      unfold resolve in Hfrom, Hto.
      destruct st as [toks c bl pr hp], t0 as [ty0 s0 z0],
        tkA as [tyA sA zA], t1 as [ty1 s1 z1], tkB as [tyB sB zB],
        t2 as [ty2 s2 z2], t3 as [ty3 s3 z3].
      simpl in *. subst.
      cbv [parseAppendStatement bind accept findVariable getBlock
           Block.findVariable gets ret advance Nat.iter]. simpl. rewrite Hfrom. simpl. by rewrite Hto.
Qed.

Lemma append_operands_must_be_declared_witness :
  parseAppendStatement
    (st_two_blocks [tok T_OpenParen; ident "c"; tok T_Comma; ident "a";
                    tok T_CloseParen; tok T_Semicolon] (tok K_Append))
  = Throw UndefinedVariable
      (advance 2
         (st_two_blocks [tok T_OpenParen; ident "c"; tok T_Comma; ident "a";
                         tok T_CloseParen; tok T_Semicolon] (tok K_Append))).
Proof.
  apply (append_operands_must_be_declared _ 1 (tok T_OpenParen) (ident "c")
           [tok T_Comma; ident "a"; tok T_CloseParen; tok T_Semicolon]).
  - reflexivity.
  - solve_wf_state.
  - reflexivity.
  - reflexivity.
  - reflexivity.
  - apply not_visible_of_in_scope; [solve_wf_heap|simpl; lia|].
    vm_compute. reflexivity.
Defined.


(** ** C6: references *)







(** Two blocks down, the parameter [a] of the function is found in the
    function's block; [b], which nothing declares, is a fault. *)
Lemma deep_reference_resolves :
  match parseProgram 20 (init (prog_deep_reference "a")) with
  | Ok _ st =>
      statements <$> heap st !! 2
      = Some [ReturnStatementExpr (primary (OVar (mkRef 0 "a")))]
  | _ => False
  end.
Proof. vm_compute. reflexivity. Qed.

Lemma deep_undeclared_reference_is_a_fault :
  match parseProgram 20 (init (prog_deep_reference "b")) with
  | Throw e st => e = UndefinedVariable /\ block st = Some 2
  | _ => False
  end.
Proof. vm_compute. split; reflexivity. Qed.

Lemma append_undeclared_is_a_fault :
  match parseProgram 20 (init prog_append_undeclared) with
  | Throw e st => e = UndefinedVariable /\ current st = ident "b"
  | _ => False
  end.
Proof. vm_compute. split; reflexivity. Qed.

(** ** C7: precedence *)

(** C7: [1 + 2 * 3] is the sum of [1] and the product [2 * 3];
    [a || b && c] is the disjunction of [a] and the conjunction
    [b && c]; in [!1 + 2] the negation flag sits on the node holding the
    whole sum [1 + 2]. *)
Theorem precedence_structure :
  parsed_statements prog_arith 0 =
    Some [ReturnStatementExpr
            (OrExpr
               (AndExpr
                  (relOf
                     (AddExpr (multOf (literal 1) false)
                        [(Plus,
                          MultiExpr (BaseMathExpr (literal 2) false)
                            [(Multiply, BaseMathExpr (literal 3) false)])])
                     false)
                  [])
               [])] /\
  parsed_statements prog_logic 0 =
    Some [ReturnStatementExpr
            (OrExpr
               (AndExpr
                  (relOf (AddExpr (multOf (OVar (mkRef 0 "a")) false) [])
                     false)
                  [])
               [AndExpr
                  (relOf (AddExpr (multOf (OVar (mkRef 0 "b")) false) [])
                     false)
                  [relOf (AddExpr (multOf (OVar (mkRef 0 "c")) false) [])
                     false]])] /\
  parsed_statements prog_not 0 =
    Some [ReturnStatementExpr
            (OrExpr
               (AndExpr
                  (relOf
                     (AddExpr (multOf (literal 1) false)
                        [(Plus, multOf (literal 2) false)])
                     true)
                  [])
               [])].
Proof. split_and!; vm_compute; reflexivity. Qed.

(** The two arithmetic shapes hold in every parser state. *)
Lemma sum_of_product_anywhere k st rest :
  scr st = [num 1; tok T_Plus; num 2; tok T_Asterisk; num 3; tok T_Semicolon]
           ++ rest ->
  parseOrExpr (12 + k) st =
    Ok (OrExpr
          (AndExpr
             (relOf
                (AddExpr (multOf (literal 1) false)
                   [(Plus,
                     MultiExpr (BaseMathExpr (literal 2) false)
                       [(Multiply, BaseMathExpr (literal 3) false)])])
                false)
             [])
          [])
       (advance 5 st).
Proof.
  intros Hscr. destruct st as [toks c bl pr hp]. simpl in Hscr. subst toks.
  vm_compute. reflexivity.
Qed.

Lemma negated_sum_anywhere k st rest :
  scr st = [tok T_Exclamation; num 1; tok T_Plus; num 2; tok T_Semicolon]
           ++ rest ->
  parseOrExpr (12 + k) st =
    Ok (OrExpr
          (AndExpr
             (relOf
                (AddExpr (multOf (literal 1) false)
                   [(Plus, multOf (literal 2) false)])
                true)
             [])
          [])
       (advance 4 st).
Proof.
  intros Hscr. destruct st as [toks c bl pr hp]. simpl in Hscr. subst toks.
  vm_compute. reflexivity.
Qed.

(** ** C9: index and slice *)

(** C9: with [v] declared as a list, [v[0]] is a reference to [v] with one
    index expression and [v[0:2]] a reference with two bounds; each bound
    is the tree of a whole expression, as [v[0 + 1 : 2 * 2]] shows. *)
Theorem index_and_slice_references :
  parsed_statements prog_index_slice 0 =
    Some
      [AssignStatement (mkRef 0 "v") (Some false) None
         (primary (OLiteral (List [1; 2; 3]%Z)));
       AssignStatement (mkRef 0 "w") (Some false) None
         (primary (OIndex (mkRef 0 "v") (OrExpr (primary (literal 0)) [])));
       AssignStatement (mkRef 0 "s") (Some false) None
         (primary
            (OSlice (mkRef 0 "v")
               (OrExpr (primary (literal 0)) [])
               (OrExpr (primary (literal 2)) [])));
       AssignStatement (mkRef 0 "t") (Some false) None
         (primary
            (OSlice (mkRef 0 "v")
               (OrExpr
                  (OrExpr
                     (AndExpr
                        (relOf
                           (AddExpr (multOf (literal 0) false)
                              [(Plus, multOf (literal 1) false)])
                           false)
                        [])
                     [])
                  [])
               (OrExpr
                  (OrExpr
                     (AndExpr
                        (relOf
                           (AddExpr
                              (MultiExpr (BaseMathExpr (literal 2) false)
                                 [(Multiply, BaseMathExpr (literal 2) false)])
                              [])
                           false)
                        [])
                     [])
                  [])))].
Proof. vm_compute. reflexivity. Qed.


(** ** C8: the block cursor *)

Lemma parseNestedBlock_enter n st :
  parseNestedBlock (parseStmtBlock (S n)) st =
    (parseStmtBlock_loop n ;;
     parent <- Block.parentOf (length (heap st)) ;;
     setBlock parent ;;
     ret (length (heap st)))
      (with_block (Some (length (heap st)))
         (with_heap (heap st ++ [mkBlock (block st) ∅ []]) st)).
Proof.
  unfold parseNestedBlock. simpl parseStmtBlock.
  unfold bind, gets, Block.make, setBlock, modify.
  destruct (parseStmtBlock_loop n _) as [[] st1| |]; [|done|done].
  destruct (Block.parentOf _ st1) as [p st2| |]; done.
Qed.

Lemma parseStmtBlock_loop_open_brace n st tk rest :
  scr st = tk :: rest -> getType tk = T_OpenBrace ->
  parseStmtBlock_loop (S n) st =
    ((newNewBlock <- parseNestedBlock (parseStmtBlock n) ;;
      b <- getBlock ;;
      Block.addStatement b (NestedBlock newNewBlock)) ;;
     parseStmtBlock_loop n)
      (move_state st).
Proof.
  intros Hscr Htk. destruct st as [toks c bl pr hp], tk as [ty s z].
  simpl in Hscr, Htk. subst toks ty. reflexivity.
Qed.

(** C8, as the code has it: at a [{] the statement loop opens a nested
    block and appends it to the block that is current once it is parsed.
    The nested block is allocated with the current block as parent and
    is the current block while its statements are parsed.  When that
    parse returns, the cursor is back on the parent; when it throws, the
    cursor stays on the nested block or on one opened inside it. *)
Theorem nested_block_cursor n st :
  wf_state st ->
  (forall tk rest,
      scr st = tk :: rest -> getType tk = T_OpenBrace ->
      parseStmtBlock_loop (S n) st =
        ((newNewBlock <- parseNestedBlock (parseStmtBlock n) ;;
          b <- getBlock ;;
          Block.addStatement b (NestedBlock newNewBlock)) ;;
         parseStmtBlock_loop n)
          (move_state st)) /\
  parseNestedBlock (parseStmtBlock (S n)) st =
    (parseStmtBlock_loop n ;;
     parent <- Block.parentOf (length (heap st)) ;;
     setBlock parent ;;
     ret (length (heap st)))
      (with_block (Some (length (heap st)))
         (with_heap (heap st ++ [mkBlock (block st) ∅ []]) st)) /\
  match parseNestedBlock (parseStmtBlock n) st with
  | Ok newBlock st' =>
      newBlock = length (heap st) /\
      getParent <$> heap st' !! newBlock = Some (block st) /\
      block st' = block st
  | Throw _ st' =>
      getParent <$> heap st' !! length (heap st) = Some (block st) /\
      block st' <> block st /\
      exists c, block st' = Some c /\ length (heap st) <= c
  | OutOfFuel => True
  end.
Proof.
  intros [Hwf Hcur].
  split; [apply parseStmtBlock_loop_open_brace|].
  split; [apply parseNestedBlock_enter|].
  unfold parseNestedBlock, bind, gets, Block.make, ret.
  set (st1 := with_heap _ st).
  assert (Hnew : heap st1 !! length (heap st)
                 = Some (mkBlock (block st) ∅ [])).
  { simpl. rewrite lookup_app_r by lia. by rewrite Nat.sub_diag. }
  pose proof (block_spec_parseStmtBlock n (length (heap st)) st1) as H.
  destruct (parseStmtBlock n _ st1) as [[] st2|e st2|]; [| |done].
  - destruct H as ([_ Hext] & Hrestore & _).
    split; [done|]. split; [|by rewrite (Hrestore _ Hnew)].
    destruct (Hext _ _ Hnew) as (blk' & Hb' & Hpar & _).
    rewrite Hb'. simpl. by rewrite Hpar.
  - destruct H as ([_ Hext] & _ & Hinner).
    destruct (Hext _ _ Hnew) as (blk' & Hb' & Hpar & _).
    split; [rewrite Hb'; simpl; by rewrite Hpar|].
    assert (Hc : exists c, block st2 = Some c /\ length (heap st) <= c).
    { destruct Hinner as [->|(c & -> & Hle)]; [by eexists|].
      exists c. split; [done|]. simpl in Hle. rewrite length_app in Hle. lia. }
    split; [|done]. destruct Hc as (c & Hc & Hle). rewrite Hc.
    intros Heq. symmetry in Heq. specialize (Hcur _ Heq). lia.
Qed.

(** The inner [{] of [fun f() { var a; { var b; } }]: block 1 is made
    below block 0 and the cursor is back on block 0 afterwards. *)
Lemma nested_block_cursor_witness :
  match parseNestedBlock (parseStmtBlock 6) st_open_nested with
  | Ok newBlock st' =>
      newBlock = 1 /\ getParent <$> heap st' !! 1 = Some (Some 0) /\
      block st' = Some 0
  | _ => False
  end.
Proof.
  pose proof (nested_block_cursor 6 st_open_nested) as H.
  destruct (parseNestedBlock (parseStmtBlock 6) st_open_nested)
    as [nb st'|e st'|] eqn:Hrun.
  - destruct H as (_ & _ & Hnb & Hparent & Hblock); [solve_wf_state|].
    subst nb. exact (conj eq_refl (conj Hparent Hblock)).
  - vm_compute in Hrun. discriminate Hrun.
  - vm_compute in Hrun. discriminate Hrun.
Defined.

Lemma cursor_not_restored_on_fault :
  match parseProgram 10 (init prog_fault_in_nested) with
  | Throw e st =>
      e = BlockParseInvalid /\ block st = Some 1 /\
      getParent <$> heap st !! 1 = Some (Some 0)
  | _ => False
  end.
Proof. vm_compute. split_and!; reflexivity. Qed.


(** ** C10: list literals *)

Lemma accept_consumes t d st st' :
  t <> T_EOF -> accept t d st = Ok true st' ->
  exists tk, scr st = tk :: scr st' /\ getType tk = t /\ current st' = tk.
Proof.
  intros Hne. unfold accept. destruct (decide _) as [Ht|Ht].
  - intros [= <-]. unfold move_state, getToken in *. simpl.
    destruct (scr st) as [|tk rest]; [simpl in Ht; congruence|].
    by exists tk.
  - by destruct d.
Qed.

Lemma accept_Ok_false t d st st' :
  accept t d st = Ok false st' -> st' = st /\ getType (getToken st) <> t.
Proof.
  unfold accept. destruct (decide _); [done|]. destruct d; [done|].
  by intros [= <-].
Qed.

Lemma accept_Throw t d st e st' :
  accept t d st = Throw e st' -> e = SyntaxError.
Proof.
  unfold accept. destruct (decide _); [done|]. destruct d; [|done].
  by intros [= <- _].
Qed.

Lemma parseVectorLiteral_loop_Ok fuel vars st vs st' :
  parseVectorLiteral_loop fuel vars st = Ok vs st' ->
  exists toks ns,
    scr st = toks ++ scr st' /\ vs = vars ++ ns /\ comma_numerics toks ns /\
    getType (getToken st') <> T_Comma.
Proof.
  revert vars st. induction fuel as [|n IH]; intros vars st; [done|].
  simpl. unfold bind at 1.
  destruct (accept T_Comma NOTHROW st) as [[] st1|e st1|] eqn:Hcomma;
    [| |done|done].
  - apply accept_consumes in Hcomma as (c & Hc & Htc & _); [|done].
    unfold bind at 1.
    destruct (accept L_Numeric THROW st1) as [[] st2|e st2|] eqn:Hnum;
      [| |done|done].
    + apply accept_consumes in Hnum as (t & Ht & Htt & Hcur); [|done].
      unfold bind at 1, gets. rewrite Hcur. intros H.
      apply IH in H as (toks & ns & Hscr & -> & Hshape & Hend).
      exists (c :: t :: toks), (getInteger t :: ns).
      split; [by rewrite Hc, Ht, Hscr|].
      split; [by rewrite <- app_assoc|]. split; [by constructor|done].
    + unfold accept in Hnum. by destruct (decide _).
  - apply accept_Ok_false in Hcomma as [-> Hend]. intros [= <- <-].
    exists [], []. split; [done|]. split; [by rewrite app_nil_r|].
    split; [constructor|done].
Qed.

Lemma parseVectorLiteral_loop_Throw fuel vars st e st' :
  parseVectorLiteral_loop fuel vars st = Throw e st' -> e = SyntaxError.
Proof.
  revert vars st. induction fuel as [|n IH]; intros vars st; [done|].
  simpl. unfold bind at 1.
  destruct (accept T_Comma NOTHROW st) as [[] st1|e1 st1|] eqn:Hcomma;
    [| |by intros [= <- _]; apply accept_Throw in Hcomma|done].
  - unfold bind at 1.
    destruct (accept L_Numeric THROW st1) as [? st2|e2 st2|] eqn:Hnum;
      [|by intros [= <- _]; apply accept_Throw in Hnum|done].
    unfold bind at 1, gets. apply IH.
  - done.
Qed.

Lemma parseVectorLiteral_loop_fuel fuel vars st :
  length (scr st) < 2 * fuel -> parseVectorLiteral_loop fuel vars st <> OutOfFuel.
Proof.
  revert vars st. induction fuel as [|n IH]; intros vars st Hlen; [lia|].
  simpl. unfold bind at 1.
  destruct (accept T_Comma NOTHROW st) as [[] st1|e1 st1|] eqn:Hcomma;
    [| |done|by unfold accept in Hcomma; destruct (decide _)].
  - apply accept_consumes in Hcomma as (c & Hc & _); [|done].
    unfold bind at 1.
    destruct (accept L_Numeric THROW st1) as [[] st2|e2 st2|] eqn:Hnum;
      [| |done|by unfold accept in Hnum; destruct (decide _)].
    + apply accept_consumes in Hnum as (t & Ht & _); [|done].
      unfold bind at 1, gets. apply IH.
      rewrite Hc, Ht in Hlen. simpl in Hlen. lia.
    + unfold accept in Hnum. by destruct (decide _).
  - done.
Qed.

(** C10: the elements of a list literal.  [parseVectorLiteral] returns
    only on tokens of the form [n , n ... ]] where every [n] is a single
    numeric-literal token; anything else in an element's place (a sign, a
    name, an operator after a number, no element at all) is the fault
    [SyntaxError], which is the only fault it has; fuel above half the
    tokens left is enough for it to decide.  A [-] right before the [[]
    is accepted by [parseBaseMathExpr] and recorded on the literal. *)
Theorem list_literal_elements_are_bare_numbers fuel st :
  (getType (getToken st) <> L_Numeric ->
   parseVectorLiteral fuel st = Throw SyntaxError st) /\
  (forall v st',
      parseVectorLiteral fuel st = Ok v st' ->
      exists toks ns,
        scr st = toks ++ scr st' /\ v = List ns /\ bare_numeric_list toks ns) /\
  (forall e st', parseVectorLiteral fuel st = Throw e st' -> e = SyntaxError) /\
  (length (scr st) <= 2 * fuel -> parseVectorLiteral fuel st <> OutOfFuel) /\
  (forall tm tb rest,
      scr st = tm :: tb :: rest ->
      getType tm = T_Minus -> getType tb = T_OpenBracket ->
      parseBaseMathExpr (S fuel) st =
        (v <- parseVectorLiteral fuel ;; ret (BaseMathExpr (OLiteral v) true))
          (advance 2 st)).
Proof.
  split_and!.
  - intros Hne. unfold parseVectorLiteral, bind. by rewrite accept_fail.
  - intros v st'. unfold parseVectorLiteral, bind at 1.
    destruct (accept L_Numeric THROW st) as [[] st1|e st1|] eqn:Hnum;
      [| |done|done].
    + apply accept_consumes in Hnum as (t & Ht & Htt & Hcur); [|done].
      unfold bind at 1, gets. rewrite Hcur. unfold bind at 1.
      destruct (parseVectorLiteral_loop fuel _ st1) as [vs st2|e st2|]
        eqn:Hloop; [|done|done].
      apply parseVectorLiteral_loop_Ok in Hloop
        as (mid & ms & Hscr & -> & Hshape & _).
      unfold bind at 1.
      destruct (accept T_CloseBracket THROW st2) as [[] st3|e st3|] eqn:Hclose;
        [| |done|done].
      * apply accept_consumes in Hclose as (c & Hc & Htc & _); [|done].
        intros [= <- <-].
        exists (t :: mid ++ [c]), (getInteger t :: ms).
        split; [rewrite Ht, Hscr, Hc; simpl; by rewrite <- app_assoc|].
        split; [done|]. by exists t, mid, ms, c.
      * unfold accept in Hclose. by destruct (decide _).
    + unfold accept in Hnum. by destruct (decide _).
  - intros e st'. unfold parseVectorLiteral, bind at 1.
    destruct (accept L_Numeric THROW st) as [? st1|e1 st1|] eqn:Hnum;
      [|by intros [= <- _]; apply accept_Throw in Hnum|done].
    unfold bind at 1, gets. unfold bind at 1.
    destruct (parseVectorLiteral_loop fuel _ st1) as [vs st2|e2 st2|]
      eqn:Hloop;
      [|by intros [= <- _]; apply parseVectorLiteral_loop_Throw in Hloop|done].
    unfold bind at 1.
    destruct (accept T_CloseBracket THROW st2) as [? st3|e3 st3|] eqn:Hclose;
      [done|by intros [= <- _]; apply accept_Throw in Hclose|done].
  - intros Hlen. unfold parseVectorLiteral, bind at 1.
    destruct (accept L_Numeric THROW st) as [[] st1|e1 st1|] eqn:Hnum;
      [| |done|by unfold accept in Hnum; destruct (decide _)].
    + apply accept_consumes in Hnum as (t & Ht & _); [|done].
      unfold bind at 1, gets. unfold bind at 1.
      pose proof (parseVectorLiteral_loop_fuel fuel
                    [getInteger (current st1)] st1) as Hfuel.
      destruct (parseVectorLiteral_loop fuel _ st1) as [vs st2|e2 st2|];
        [|done|].
      * unfold bind at 1.
        destruct (accept T_CloseBracket THROW st2) as [? st3|e3 st3|] eqn:Hc;
          [done|done|]. unfold accept in Hc. by destruct (decide _).
      * exfalso. apply Hfuel; [|done]. rewrite Ht in Hlen. simpl in Hlen. lia.
    + unfold accept in Hnum. by destruct (decide _).
  - intros tm tb rest Hscr Htm Htb.
    destruct st as [toks c bl pr hp], tm as [tym sm zm], tb as [tyb sb zb].
    simpl in Hscr, Htm, Htb. subst toks tym tyb. reflexivity.
Qed.

Lemma list_literal_elements_are_bare_numbers_witness :
  parseVectorLiteral 3
    (mkParser [tok T_Minus; num 1; tok T_CloseBracket] (tok T_OpenBracket)
       (Some 0) ∅ [mkBlock None ∅ []])
  = Throw SyntaxError
      (mkParser [tok T_Minus; num 1; tok T_CloseBracket] (tok T_OpenBracket)
         (Some 0) ∅ [mkBlock None ∅ []]).
Proof.
  apply (list_literal_elements_are_bare_numbers 3
           (mkParser [tok T_Minus; num 1; tok T_CloseBracket]
              (tok T_OpenBracket) (Some 0) ∅ [mkBlock None ∅ []])).
  discriminate.
Defined.


(** ** The parser only builds well-formed stores *)

Lemma addParam_block fd x st fd' st' :
  addParam fd x st = Ok fd' st' ->
  getFunctionBlock fd' = getFunctionBlock fd.
Proof. unfold addParam, bind, Block.addVariable, modify, ret. by intros [= <- _]. Qed.

Lemma parseArgs_loop_block n fd st fd' st' :
  parseArgs_loop n fd st = Ok fd' st' ->
  getFunctionBlock fd' = getFunctionBlock fd.
Proof.
  revert fd st. induction n as [|n IH]; intros fd st; [done|].
  simpl. intros H. apply bind_Ok in H as ([] & st1 & _ & H).
  - apply bind_Ok in H as (? & st2 & _ & H).
    apply bind_Ok in H as (cur & st3 & _ & H).
    apply bind_Ok in H as (fd1 & st4 & Hadd & H).
    apply IH in H. apply addParam_block in Hadd. congruence.
  - by injection H as <- _.
Qed.

Lemma parseArgs_block n fd st fd' st' :
  parseArgs n fd st = Ok fd' st' ->
  getFunctionBlock fd' = getFunctionBlock fd.
Proof.
  unfold parseArgs. intros H.
  apply bind_Ok in H as (some & st1 & _ & H).
  apply bind_Ok in H as (fd1 & st2 & Hargs & H).
  apply bind_Ok in H as (? & st3 & _ & H). injection H as <- _.
  destruct some; [|by injection Hargs as <- _].
  apply bind_Ok in Hargs as (cur & st4 & _ & H).
  apply bind_Ok in H as (fd2 & st5 & Hadd & H).
  apply parseArgs_loop_block in H. apply addParam_block in Hadd. congruence.
Qed.

Lemma stmt_spec_Ok {A} (m : M A) st a st' :
  stmt_spec m -> m st = Ok a st' ->
  extends st st' /\ block st' = block st /\ (wf_state st -> wf_state st').
Proof. intros Hm H. specialize (Hm st). by rewrite H in Hm. Qed.

Lemma parseFunctionHeader_block n st fd st1 :
  parseFunctionHeader n st = Ok fd st1 ->
  getFunctionBlock fd < length (heap st1).
Proof.
  unfold parseFunctionHeader. intros H.
  apply bind_Ok in H as (? & st2 & _ & H).
  apply bind_Ok in H as (cur & st3 & _ & H).
  apply bind_Ok in H as (fn & st4 & Hmake & H).
  apply bind_Ok in H as (? & st5 & Hopen & H).
  pose proof (parseArgs_block _ _ _ _ _ H) as Hblk.
  apply (stmt_spec_Ok _ _ _ _ (stmt_spec_parseArgs n fn)) in H as (Hext & _).
  apply extends_length in Hext.
  apply (expr_spec_Ok _ _ _ _ (expr_spec_accept _ _)) in Hopen
    as (_ & _ & Hh).
  unfold makeFunctionDefinition, bind, Block.make, ret in Hmake.
  injection Hmake as <- <-. simpl in Hblk, Hh.
  rewrite Hblk, Hh, length_app in *. simpl in Hext. lia.
Qed.

Lemma parseFunction_wf fuel st :
  wf_state st ->
  match parseFunction fuel st with
  | Ok _ st' => wf_state st'
  | Throw _ st' => wf_state st'
  | OutOfFuel => True
  end.
Proof.
  intros Hwf. rewrite parseFunction_unfold.
  pose proof (stmt_spec_parseFunctionHeader fuel st) as Hhdr.
  destruct (parseFunctionHeader fuel st) as [fd st1|e st1|] eqn:Hrun;
    [|by apply Hhdr|done].
  destruct Hhdr as (_ & _ & Hwf1). specialize (Hwf1 Hwf).
  apply parseFunctionHeader_block in Hrun.
  unfold bind, accept. destruct (decide _) as [Hopen|Hopen]; [|done].
  pose proof (block_spec_parseStmtBlock fuel (getFunctionBlock fd)
                (move_state (register fd st1))) as Hbody.
  destruct Hwf1 as [Hwfh _].
  destruct (parseStmtBlock fuel _ _) as [[] st2|e st2|]; [| |done].
  - by apply Hbody.
  - by apply Hbody.
Qed.

Lemma parseProgram_wf fuel st :
  wf_state st ->
  match parseProgram fuel st with
  | Ok _ st' => wf_state st'
  | Throw _ st' => wf_state st'
  | OutOfFuel => True
  end.
Proof.
  revert st. induction fuel as [|n IH]; intros st Hwf; [done|].
  simpl. unfold bind at 1, gets. destruct (decide _) as [Hmore|Hmore]; [|done].
  unfold bind at 1, accept. destruct (decide _) as [Hfun|Hfun].
  - unfold bind at 1.
    pose proof (parseFunction_wf n (move_state st)) as Hf.
    destruct (parseFunction n _) as [[] st1|e st1|]; [|by apply Hf|done].
    apply IH. by apply Hf.
  - unfold bind at 1, ret. by apply IH.
Qed.

(** Every state in which a parse of a token stream ends, normally or by a
    fault, has a well-formed store and a valid cursor. *)
Lemma parser_states_well_formed fuel toks st :
  final_state (parseProgram fuel (init toks)) = Some st -> wf_state st.
Proof.
  pose proof (parseProgram_wf fuel (init toks)) as H.
  destruct (parseProgram fuel (init toks)) as [[] st'|e st'|]; [| |done].
  - intros [= <-]. apply H. split; [by intros [|?] ? ? H'|done].
  - intros [= <-]. apply H. split; [by intros [|?] ? ? H'|done].
Qed.

(** ** The specification's whole-program scenarios *)

Lemma two_functions_parse :
  match parseProgram 20 (init prog_two_functions) with
  | Ok _ st =>
      program st !! "f" = Some (mkFun "f" ["x"] 0) /\
      program st !! "main" = Some (mkFun "main" [] 1) /\
      size <$> program st !! "f" = Some 1 /\
      size <$> program st !! "main" = Some 0 /\
      scr st = [] /\ block st = None
  | _ => False
  end.
Proof. vm_compute. split_and!; reflexivity. Qed.

Lemma undeclared_return_is_a_fault :
  match parseProgram 20 (init prog_undeclared) with
  | Throw e st => e = UndefinedVariable /\ current st = ident "x"
  | _ => False
  end.
Proof. vm_compute. split; reflexivity. Qed.

Lemma same_block_redeclaration_is_rejected :
  match parseProgram 20 (init prog_redeclare_same) with
  | Throw e st => e = DuplicateVariable /\ block st = Some 0
  | _ => False
  end.
Proof. vm_compute. split; reflexivity. Qed.

(** * Further properties of the parser *)

(** ** Every parser only consumes tokens, and terminates *)

Lemma consumes_refl st : consumes st st.
Proof. by exists []. Qed.

Lemma consumes_trans a b c : consumes a b -> consumes b c -> consumes a c.
Proof.
  intros [p Hp] [q Hq]. exists (p ++ q). by rewrite Hp, Hq, app_assoc.
Qed.

Lemma consumes_length st st' :
  consumes st st' -> length (scr st') <= length (scr st).
Proof. intros [p Hp]. rewrite Hp, length_app. lia. Qed.

Lemma consumes_move st : consumes st (move_state st).
Proof.
  unfold consumes, move_state. simpl.
  destruct (scr st) as [|t rest]; [by exists []|by exists [t]].
Qed.

Lemma safe_upto_bind {A B} L (m : M A) (f : A -> M B) :
  safe_upto L m -> (forall a, safe_upto L (f a)) -> safe_upto L (bind m f).
Proof.
  intros Hm Hf st Hlen. specialize (Hm st Hlen). unfold safe, bind in *.
  destruct (m st) as [a st1|e st1|]; [|done|done].
  specialize (Hf a st1). unfold safe in Hf.
  assert (Hlen1 : length (scr st1) <= L).
  { apply consumes_length in Hm. lia. }
  specialize (Hf Hlen1).
  destruct (f a st1) as [b st2|e st2|]; [| |done];
    by eapply consumes_trans.
Qed.

Lemma safe_upto_ret {A} L (a : A) : safe_upto L (ret a).
Proof. intros st _. apply consumes_refl. Qed.

Lemma safe_upto_throw {A} L e : safe_upto L (@throw A e).
Proof. intros st _. apply consumes_refl. Qed.

Lemma safe_upto_throw_bind {A B} L e (k : A -> M B) :
  safe_upto L (bind (throw e) k).
Proof. intros st _. apply consumes_refl. Qed.

Lemma safe_upto_gets_bind {A B} L (g : Parser -> A) (k : A -> M B) :
  (forall a, safe_upto L (k a)) -> safe_upto L (bind (gets g) k).
Proof. intros Hk st Hlen. apply (Hk (g st) st Hlen). Qed.

Lemma safe_upto_accept L t d : safe_upto L (accept t d).
Proof.
  intros st _. unfold safe, accept.
  destruct (decide _); [apply consumes_move|].
  destruct d; apply consumes_refl.
Qed.

(** A token accepted is a token less for what follows. *)
Lemma safe_accept_hit {B} L t d (k : bool -> M B) st :
  t <> T_EOF -> getType (getToken st) = t -> length (scr st) <= L ->
  (forall L', L = S L' -> safe_upto L' (k true)) ->
  safe (bind (accept t d) k) st.
Proof.
  intros Hne Ht Hlen Hhit. unfold safe, bind. rewrite accept_hit by done.
  unfold getToken in Ht.
  destruct (scr st) as [|tk rest] eqn:Hscr; [simpl in Ht; congruence|].
  destruct L as [|L']; [simpl in Hlen; lia|].
  specialize (Hhit L' eq_refl (move_state st)). unfold safe in Hhit.
  assert (Hlen' : length (scr (move_state st)) <= L').
  { simpl. rewrite Hscr. simpl in *. lia. }
  specialize (Hhit Hlen').
  destruct (k true _) as [b st2|e st2|]; [| |done];
    (eapply consumes_trans; [apply consumes_move|done]).
Qed.

Lemma safe_upto_accept_bind {B} L t d (k : bool -> M B) :
  t <> T_EOF ->
  (forall L', L = S L' -> safe_upto L' (k true)) ->
  safe_upto L (k false) ->
  safe_upto L (bind (accept t d) k).
Proof.
  intros Hne Hhit Hmiss st Hlen.
  destruct (decide (getType (getToken st) = t)) as [Ht|Ht].
  - by eapply safe_accept_hit.
  - unfold safe, bind, accept. rewrite decide_False by done.
    destruct d; [apply consumes_refl|]. apply (Hmiss st Hlen).
Qed.

Lemma safe_upto_accept_THROW_bind {B} L t (k : bool -> M B) :
  t <> T_EOF ->
  (forall L', L = S L' -> safe_upto L' (k true)) ->
  safe_upto L (bind (accept t THROW) k).
Proof.
  intros Hne Hhit st Hlen.
  destruct (decide (getType (getToken st) = t)) as [Ht|Ht].
  - by eapply safe_accept_hit.
  - unfold safe, bind. rewrite accept_fail by done. apply consumes_refl.
Qed.

(** The lookahead of a state with no token left is the end-of-input
    token. *)
Lemma safe_upto_peek {B} L (k : Token -> M B) :
  (forall tk, safe_upto_ne L (k tk)) ->
  safe_upto L (k (tok T_EOF)) ->
  safe_upto L (bind (gets getToken) k).
Proof.
  intros Hne Heof st Hlen. unfold safe, bind, gets, getToken.
  destruct (scr st) as [|tk rest] eqn:Hscr; rewrite <- Hscr in Hlen.
  - apply (Heof st Hlen).
  - apply (Hne tk st Hlen). by rewrite Hscr.
Qed.

Lemma safe_upto_ne_weaken {A} L (m : M A) : safe_upto L m -> safe_upto_ne L m.
Proof. intros H st Hlen _. by apply H. Qed.

Lemma safe_upto_ne_move {B} L (k : M B) :
  (forall L', L = S L' -> safe_upto L' k) ->
  safe_upto_ne L (bind move (fun _ => k)).
Proof.
  intros Hk st Hlen Hne. unfold safe, bind, move, modify.
  destruct (scr st) as [|tk rest] eqn:Hscr; [done|].
  destruct L as [|L']; [simpl in Hlen; lia|].
  specialize (Hk L' eq_refl (move_state st)). unfold safe in Hk.
  assert (Hlen' : length (scr (move_state st)) <= L').
  { simpl. rewrite Hscr. simpl in *. lia. }
  specialize (Hk Hlen').
  destruct (k _) as [b st2|e st2|]; [| |done];
    (eapply consumes_trans; [apply consumes_move|done]).
Qed.

(** [move] followed by a look at [current], as the statement loop does
    it: past the end of input [current] is the end-of-input token. *)
Lemma safe_upto_move_current {B} L (k : Token -> M B) :
  (forall tk L', L = S L' -> safe_upto L' (k tk)) ->
  safe_upto L (k (tok T_EOF)) ->
  safe_upto L (bind move (fun _ => bind (gets current) k)).
Proof.
  intros Hk Heof st Hlen. unfold safe, bind, move, modify, gets.
  destruct (scr st) as [|tk rest] eqn:Hscr.
  - assert (Hm : current (move_state st) = tok T_EOF).
    { unfold move_state, getToken. simpl. by rewrite Hscr. }
    rewrite Hm. specialize (Heof (move_state st)). unfold safe in Heof.
    assert (Hlen' : length (scr (move_state st)) <= L).
    { simpl. rewrite Hscr. simpl. lia. }
    specialize (Heof Hlen').
    destruct (k _ _) as [b st2|e st2|]; [| |done];
      (eapply consumes_trans; [apply consumes_move|done]).
  - destruct L as [|L']; [simpl in Hlen; lia|].
    specialize (Hk (current (move_state st)) L' eq_refl (move_state st)).
    unfold safe in Hk.
    assert (Hlen' : length (scr (move_state st)) <= L').
    { simpl. rewrite Hscr. simpl in *. lia. }
    specialize (Hk Hlen').
    destruct (k _ _) as [b st2|e st2|]; [| |done];
      (eapply consumes_trans; [apply consumes_move|done]).
Qed.

Lemma safe_upto_keeps {A} L (m : M A) : keeps_tokens m -> safe_upto L m.
Proof.
  intros Hm st _. specialize (Hm st). unfold safe.
  destruct (m st) as [a st'|e st'|]; [| |done];
    exists []; by rewrite Hm.
Qed.

Lemma keeps_tokens_bind {A B} (m : M A) (f : A -> M B) :
  keeps_tokens m -> (forall a, keeps_tokens (f a)) -> keeps_tokens (bind m f).
Proof.
  intros Hm Hf st. unfold bind. specialize (Hm st).
  destruct (m st) as [a st1|e st1|]; [|done|done].
  specialize (Hf a st1). destruct (f a st1); congruence.
Qed.

Lemma keeps_tokens_getBlock : keeps_tokens getBlock.
Proof. intros st. unfold getBlock. by destruct (block st). Qed.

Lemma keeps_tokens_existVariable : keeps_tokens existVariable.
Proof.
  intros st. cbv [existVariable bind getBlock gets Block.existVariable].
  destruct (block st); [|done].
  by destruct (Block.existVariable_walk _ _ _ _).
Qed.

Lemma keeps_tokens_findVariable x : keeps_tokens (findVariable x).
Proof.
  intros st. cbv [findVariable bind getBlock Block.findVariable].
  destruct (block st); [|done].
  by destruct (Block.findVariable_walk _ _ _ _).
Qed.

Lemma keeps_tokens_findFunction x : keeps_tokens (Program.findFunction x).
Proof. intros st. unfold Program.findFunction. by destruct (program st !! x). Qed.

Lemma keeps_tokens_parentOf b : keeps_tokens (Block.parentOf b).
Proof. intros st. unfold Block.parentOf. by destruct (heap st !! b). Qed.

Lemma keeps_tokens_gets {A} (g : Parser -> A) : keeps_tokens (gets g).
Proof. by intros st. Qed.

Lemma keeps_tokens_addStatement b s : keeps_tokens (Block.addStatement b s).
Proof. by intros st. Qed.

Lemma keeps_tokens_addVariable b x v : keeps_tokens (Block.addVariable b x v).
Proof. by intros st. Qed.

Lemma keeps_tokens_make p : keeps_tokens (Block.make p).
Proof. by intros st. Qed.

Lemma keeps_tokens_setBlock ob : keeps_tokens (setBlock ob).
Proof. by intros st. Qed.

Lemma keeps_tokens_addFunction fd : keeps_tokens (Program.addFunction fd).
Proof. by intros st. Qed.

(** One syntax-directed step on a goal [safe_upto L m] or
    [safe_upto_ne L m]. *)
Ltac safe_step :=
  match goal with
  | |- safe_upto _ (let _ := _ in _) => cbv zeta
  | |- safe_upto _ (bind (accept _ THROW) _) =>
      apply safe_upto_accept_THROW_bind;
      [discriminate|intros ? ?; cbv beta iota]
  | |- safe_upto _ (bind (accept _ _) _) =>
      apply safe_upto_accept_bind;
      [discriminate|intros ? ?; cbv beta iota|cbv beta iota]
  | |- safe_upto _ (bind (accept1 _) _) => unfold accept1
  | |- safe_upto _ (bind (gets getToken) _) =>
      apply safe_upto_peek; [intros ?|cbv [tok getType]; cbv beta iota]
  | |- safe_upto _ (bind move (fun _ => bind (gets current) _)) =>
      apply safe_upto_move_current;
      [intros ? ? ?|cbv [tok getType]; cbv beta iota]
  | |- safe_upto _ (bind (throw _) _) => apply safe_upto_throw_bind
  | |- safe_upto _ (bind (gets _) _) =>
      apply safe_upto_gets_bind; intros ?
  | |- safe_upto _ (bind _ _) => apply safe_upto_bind; [|intros ?]
  | |- safe_upto _ (ret _) => apply safe_upto_ret
  | |- safe_upto _ (throw _) => apply safe_upto_throw
  | |- safe_upto _ (accept _ _) => apply safe_upto_accept
  | |- safe_upto _ getBlock =>
      apply safe_upto_keeps, keeps_tokens_getBlock
  | |- safe_upto _ existVariable =>
      apply safe_upto_keeps, keeps_tokens_existVariable
  | |- safe_upto _ (findVariable _) =>
      apply safe_upto_keeps, keeps_tokens_findVariable
  | |- safe_upto _ (Program.findFunction _) =>
      apply safe_upto_keeps, keeps_tokens_findFunction
  | |- safe_upto _ (Program.existFunction _) =>
      apply safe_upto_keeps, keeps_tokens_gets
  | |- safe_upto _ (Program.addFunction _) =>
      apply safe_upto_keeps, keeps_tokens_addFunction
  | |- safe_upto _ (Block.existVariable _ _) =>
      apply safe_upto_keeps, keeps_tokens_gets
  | |- safe_upto _ (Block.addStatement _ _) =>
      apply safe_upto_keeps, keeps_tokens_addStatement
  | |- safe_upto _ (Block.addVariable _ _ _) =>
      apply safe_upto_keeps, keeps_tokens_addVariable
  | |- safe_upto _ (Block.make _) =>
      apply safe_upto_keeps, keeps_tokens_make
  | |- safe_upto _ (Block.parentOf _) =>
      apply safe_upto_keeps, keeps_tokens_parentOf
  | |- safe_upto _ (setBlock _) =>
      apply safe_upto_keeps, keeps_tokens_setBlock
  | |- safe_upto _ (if ?b then _ else _) => destruct b
  | |- safe_upto _ (match ?x with _ => _ end) => destruct x
  | |- safe_upto_ne _ (match ?x with _ => _ end) => destruct x
  | |- safe_upto_ne _ (bind move _) =>
      apply safe_upto_ne_move; intros ? ?
  | |- safe_upto_ne _ _ => apply safe_upto_ne_weaken
  | H : forall L, safe_upto L ?m |- safe_upto _ ?m => apply H
  | H : forall L, _ -> safe_upto L (?f ?n) |- safe_upto _ (?f ?n) =>
      apply H; lia
  | H : forall L a, _ -> safe_upto L (?f ?n a) |- safe_upto _ (?f ?n _) =>
      apply H; lia
  | H : forall L a b, _ -> safe_upto L (?f ?n a b)
    |- safe_upto _ (?f ?n _ _) => apply H; lia
  end.


Lemma safe_upto_parseLenStatement L : safe_upto L parseLenStatement.
Proof. unfold parseLenStatement. repeat safe_step. Qed.

Lemma safe_upto_parseAppendStatement L : safe_upto L parseAppendStatement.
Proof. unfold parseAppendStatement. repeat safe_step. Qed.

Lemma safe_upto_parseVectorLiteral_loop n :
  forall L vs, L + 1 <= n -> safe_upto L (parseVectorLiteral_loop n vs).
Proof.
  induction n as [|n IH]; intros L vs Hn; [lia|].
  simpl. repeat safe_step.
Qed.

Lemma safe_upto_parseVectorLiteral n :
  forall L, L + 1 <= n -> safe_upto L (parseVectorLiteral n).
Proof.
  intros L Hn. pose proof (safe_upto_parseVectorLiteral_loop n) as Hloop.
  unfold parseVectorLiteral. repeat safe_step.
Qed.

Lemma expr_total_all n : expr_total n.
Proof.
  induction n as [|n IH]; unfold expr_total.
  - split_and!; intros; lia.
  - destruct IH as (?&?&?&?&?&?&?&?&?&?&?&?&?).
    pose proof (safe_upto_parseVectorLiteral n).
    pose proof safe_upto_parseLenStatement.
    split_and!; intros; simpl; repeat safe_step.

Qed.

Lemma safe_upto_parseInitStatement n :
  forall L, 8 * L <= n -> safe_upto L (parseInitStatement n).
Proof.
  intros L Hn. destruct (expr_total_all n) as (?&_).
  unfold parseInitStatement. repeat safe_step.
Qed.

Lemma safe_upto_parseAssignStatement n :
  forall L v, 8 * L <= n -> safe_upto L (parseAssignStatement n v).
Proof.
  intros L v Hn. destruct (expr_total_all n) as (?&_).
  unfold parseAssignStatement. repeat safe_step.
Qed.

Lemma safe_upto_parseAssignOrFunCall n :
  forall L, 8 * L <= n -> safe_upto L (parseAssignOrFunCall n).
Proof.
  intros L Hn.
  destruct (expr_total_all n) as (_&_&_&_&_&_&_&_&_&_&_&?&_).
  pose proof (safe_upto_parseAssignStatement n).
  unfold parseAssignOrFunCall. repeat safe_step.
Qed.

Lemma safe_upto_parseReturnStatement n :
  forall L, 8 * L + 7 <= n -> safe_upto L (parseReturnStatement n).
Proof.
  intros L Hn. destruct (expr_total_all n) as (?&_).
  unfold parseReturnStatement. repeat safe_step.
Qed.

Lemma block_total_all n : block_total n.
Proof.
  induction n as [|n IH]; unfold block_total.
  - split_and!; intros; lia.
  - destruct IH as (?&?&?&?).
    destruct (expr_total_all n) as (?&_).
    pose proof (safe_upto_parseInitStatement n).
    pose proof (safe_upto_parseAssignOrFunCall n).
    pose proof (safe_upto_parseReturnStatement n).
    pose proof safe_upto_parseAppendStatement.
    split_and!; intros; simpl; unfold parseNestedBlock; repeat safe_step.
Qed.

Lemma keeps_tokens_addParam fd x : keeps_tokens (addParam fd x).
Proof. by intros st. Qed.

Lemma safe_upto_parseArgs_loop n :
  forall L fd, L + 1 <= n -> safe_upto L (parseArgs_loop n fd).
Proof.
  induction n as [|n IH]; intros L fd Hn; [lia|].
  simpl. repeat first [safe_step | apply safe_upto_keeps, keeps_tokens_addParam].
Qed.

Lemma safe_upto_parseArgs n :
  forall L fd, L + 1 <= n -> safe_upto L (parseArgs n fd).
Proof.
  intros L fd Hn. pose proof (safe_upto_parseArgs_loop n).
  unfold parseArgs.
  repeat first [safe_step | apply safe_upto_keeps, keeps_tokens_addParam].
Qed.

Lemma safe_upto_parseFunction n :
  forall L, 8 * L + 2 <= n -> safe_upto L (parseFunction n).
Proof.
  intros L Hn. pose proof (safe_upto_parseArgs n).
  destruct (block_total_all n) as (?&_).
  unfold parseFunction, makeFunctionDefinition. repeat safe_step.
Qed.

(** X1: parsing an expression terminates.  With 8 units of fuel for
    every token left and 7 more, [parseOrExpr] returns or throws, and
    what the scanner has left afterwards is a suffix of what it had. *)
Theorem expression_parse_terminates fuel st :
  8 * length (scr st) + 7 <= fuel ->
  match parseOrExpr fuel st with
  | Ok _ st' => exists pre, scr st = pre ++ scr st'
  | Throw _ st' => exists pre, scr st = pre ++ scr st'
  | OutOfFuel => False
  end.
Proof.
  intros Hfuel. destruct (expr_total_all fuel) as (H & _).
  by apply (H (length (scr st)) Hfuel st).
Qed.

Lemma expression_parse_terminates_witness :
  match parseOrExpr 31
          (reading [num 1; tok T_Plus; tok T_Semicolon]) with
  | Ok _ st' =>
      exists pre, [num 1; tok T_Plus; tok T_Semicolon] = pre ++ scr st'
  | Throw _ st' =>
      exists pre, [num 1; tok T_Plus; tok T_Semicolon] = pre ++ scr st'
  | OutOfFuel => False
  end.
Proof.
  apply (expression_parse_terminates 31
           (reading [num 1; tok T_Plus; tok T_Semicolon])).
  simpl. lia.
Defined.

(** X2: parsing a block and a function definition terminates.  With 8
    units of fuel for every token left and 2 more, [parseStmtBlock] and
    [parseFunction] return or throw, having only consumed tokens. *)
Theorem block_parse_terminates fuel st :
  8 * length (scr st) + 2 <= fuel ->
  (forall b,
      match parseStmtBlock fuel b st with
      | Ok _ st' => exists pre, scr st = pre ++ scr st'
      | Throw _ st' => exists pre, scr st = pre ++ scr st'
      | OutOfFuel => False
      end) /\
  match parseFunction fuel st with
  | Ok _ st' => exists pre, scr st = pre ++ scr st'
  | Throw _ st' => exists pre, scr st = pre ++ scr st'
  | OutOfFuel => False
  end.
Proof.
  intros Hfuel. split.
  - intros b. destruct (block_total_all fuel) as (H & _).
    by apply (H (length (scr st)) b Hfuel st).
  - by apply (safe_upto_parseFunction fuel (length (scr st)) Hfuel st).
Qed.

Lemma block_parse_terminates_witness :
  match parseStmtBlock 34 0
          (reading [tok K_Var; ident "x"; tok T_Semicolon; tok T_CloseBrace])
  with
  | Ok _ st' =>
      exists pre,
        [tok K_Var; ident "x"; tok T_Semicolon; tok T_CloseBrace]
        = pre ++ scr st'
  | Throw _ st' =>
      exists pre,
        [tok K_Var; ident "x"; tok T_Semicolon; tok T_CloseBrace]
        = pre ++ scr st'
  | OutOfFuel => False
  end.
Proof.
  apply (block_parse_terminates 34
           (reading [tok K_Var; ident "x"; tok T_Semicolon;
                     tok T_CloseBrace])).
  simpl. lia.
Defined.

(** ** The top-level loop stops unless it meets a stray token *)

Lemma parseProgram_out_of_fuel n : forall st,
  8 * length (scr st) + 1 <= n ->
  parseProgram n st = OutOfFuel ->
  exists st', rtc next_function st st' /\ stray st'.
Proof.
  induction n as [|n IH]; intros st Hn; [lia|].
  simpl. unfold bind at 1, gets.
  destruct (decide (getType (getToken st) ≠ T_EOF)) as [Hmore|Hmore]; [|done].
  destruct (decide (getType (getToken st) = K_Fun)) as [Hfun|Hfun].
  - unfold bind at 1. rewrite accept_hit by done. unfold bind at 1.
    assert (Hscr : scr st <> []).
    { intros Hnil. unfold getToken in Hfun. rewrite Hnil in Hfun. done. }
    assert (Hlen : 8 * length (scr (move_state st)) + 2 <= n).
    { simpl. destruct (scr st); [done|]. simpl in *. lia. }
    pose proof (safe_upto_parseFunction n _ Hlen (move_state st)
                  (Nat.le_refl _)) as Hsafe.
    unfold safe in Hsafe.
    destruct (parseFunction n (move_state st)) as [[] st1|e st1|] eqn:Hrun;
      [|done|done].
    intros Hrest. apply consumes_length in Hsafe.
    destruct (IH st1) as (st' & Hreach & Hstray); [lia|done|].
    exists st'. split; [|done].
    eapply rtc_l; [|exact Hreach]. split; [done|]. by exists n.
  - intros _. exists st. split; [apply rtc_refl|]. split; [|done].
    by intros Heq; apply Hmore.
Qed.

(** X3: the only way [parseProgram] does not stop.  Given 8 units of
    fuel per token and one more, [parseProgram] runs out of fuel only
    if, after some number of complete function definitions, the next
    top-level token is neither [fun] nor the end of input; and from such
    a token on it runs out of any fuel. *)
Theorem parseProgram_stops_unless_stray fuel st :
  8 * length (scr st) + 1 <= fuel ->
  parseProgram fuel st = OutOfFuel ->
  exists st',
    rtc next_function st st' /\ stray st' /\
    forall fuel', parseProgram fuel' st' = OutOfFuel.
Proof.
  intros Hfuel Hout.
  destruct (parseProgram_out_of_fuel fuel st Hfuel Hout)
    as (st' & Hreach & Hstray).
  exists st'. split; [done|]. split; [done|].
  intros fuel'. destruct Hstray. by apply parseProgram_stuck.
Qed.

Lemma parseProgram_stops_unless_stray_witness :
  exists st',
    rtc next_function (init prog_stray_after_function) st' /\ stray st' /\
    forall fuel', parseProgram fuel' st' = OutOfFuel.
Proof.
  apply (parseProgram_stops_unless_stray 57 (init prog_stray_after_function)).
  - simpl. lia.
  - vm_compute. reflexivity.
Defined.

(** ** Operator chains are read to their end *)

Lemma parseMultExpr_loop_stops n : forall f os st e st',
  parseMultExpr_loop n f os st = Ok e st' -> stops_mult st'.
Proof.
  induction n as [|n IH]; intros f os st e st'; [done|].
  simpl. unfold bind at 1, gets.
  destruct (getType (getToken st)) eqn:Ht;
    try (intros [= <- <-]; split; congruence).
  - intros H. apply bind_Ok in H as (? & st1 & _ & H).
    apply bind_Ok in H as (e1 & st2 & _ & H). by apply IH in H.
  - intros H. apply bind_Ok in H as (? & st1 & _ & H).
    apply bind_Ok in H as (e1 & st2 & _ & H). by apply IH in H.
Qed.

Lemma parseMultExpr_stops n st e st' :
  parseMultExpr n st = Ok e st' -> stops_mult st'.
Proof.
  destruct n as [|n]; [done|]. simpl. intros H.
  apply bind_Ok in H as (f & st1 & _ & H).
  by apply parseMultExpr_loop_stops in H.
Qed.

Lemma parseAddExpr_loop_stops n : forall f os st e st',
  stops_mult st -> parseAddExpr_loop n f os st = Ok e st' -> stops_add st'.
Proof.
  induction n as [|n IH]; intros f os st e st' Hpre; [done|].
  simpl. unfold bind at 1, gets.
  destruct (getType (getToken st)) eqn:Ht;
    try (intros [= <- <-]; split; [done|split; congruence]).
  - intros H. apply bind_Ok in H as (? & st1 & _ & H).
    apply bind_Ok in H as (e1 & st2 & Hm & H).
    apply parseMultExpr_stops in Hm. by apply IH in H.
  - intros H. apply bind_Ok in H as (? & st1 & _ & H).
    apply bind_Ok in H as (e1 & st2 & Hm & H).
    apply parseMultExpr_stops in Hm. by apply IH in H.
Qed.

Lemma parseAddExpr_stops n st e st' :
  parseAddExpr n st = Ok e st' -> stops_add st'.
Proof.
  destruct n as [|n]; [done|]. simpl. intros H.
  apply bind_Ok in H as (f & st1 & Hm & H).
  apply parseMultExpr_stops in Hm.
  by apply parseAddExpr_loop_stops in H.
Qed.

Lemma parseBaseLogicExpr_stops n st e st' :
  parseBaseLogicExpr n st = Ok e st' -> stops_add st'.
Proof.
  destruct n as [|n]; [done|]. simpl. intros H.
  apply bind_Ok in H as ([] & st1 & _ & H).
  - apply bind_Ok in H as (a & st2 & Ha & H). injection H as _ <-.
    by apply parseAddExpr_stops in Ha.
  - apply bind_Ok in H as (a & st2 & Ha & H). injection H as _ <-.
    by apply parseAddExpr_stops in Ha.
Qed.

Lemma parseRelExpr_stops n st e st' :
  parseRelExpr n st = Ok e st' -> stops_add st'.
Proof.
  destruct n as [|n]; [done|]. simpl. intros H.
  apply bind_Ok in H as (lhs & st1 & Hl & H).
  apply parseBaseLogicExpr_stops in Hl.
  unfold bind at 1, gets in H.
  destruct (getType (getToken st1));
    try (by injection H as _ <-);
    apply bind_Ok in H as (? & st2 & _ & H);
    apply bind_Ok in H as (r & st3 & Hr & H); injection H as _ <-;
    by apply parseBaseLogicExpr_stops in Hr.
Qed.

Lemma parseAndExpr_loop_stops n : forall f os st e st',
  stops_add st -> parseAndExpr_loop n f os st = Ok e st' -> stops_and st'.
Proof.
  induction n as [|n IH]; intros f os st e st' Hpre; [done|].
  simpl. intros H. apply bind_Ok in H as ([] & st1 & Hacc & H).
  - apply bind_Ok in H as (r & st2 & Hr & H).
    apply parseRelExpr_stops in Hr. by apply IH in H.
  - apply accept_Ok_false in Hacc as [-> Hne]. by injection H as _ <-.
Qed.

Lemma parseAndExpr_stops n st e st' :
  parseAndExpr n st = Ok e st' -> stops_and st'.
Proof.
  destruct n as [|n]; [done|]. simpl. intros H.
  apply bind_Ok in H as (f & st1 & Hr & H).
  apply parseRelExpr_stops in Hr.
  by apply parseAndExpr_loop_stops in H.
Qed.

Lemma parseOrExpr_loop_stops n : forall f os st e st',
  stops_and st -> parseOrExpr_loop n f os st = Ok e st' -> stops_or st'.
Proof.
  induction n as [|n IH]; intros f os st e st' Hpre; [done|].
  simpl. intros H. apply bind_Ok in H as ([] & st1 & Hacc & H).
  - apply bind_Ok in H as (r & st2 & Hr & H).
    apply parseAndExpr_stops in Hr. by apply IH in H.
  - apply accept_Ok_false in Hacc as [-> Hne]. by injection H as _ <-.
Qed.

(** X4: an expression is read to its end.  When [parseOrExpr] returns,
    the token it stopped at is none of [||], [&&], [+], [-], [*], [/]: no
    operator that could still continue the expression is left unread. *)
Theorem expression_is_read_to_its_end fuel st e st' :
  parseOrExpr fuel st = Ok e st' ->
  getType (getToken st') <> T_Bar2 /\
  getType (getToken st') <> T_Ampersand2 /\
  getType (getToken st') <> T_Plus /\
  getType (getToken st') <> T_Minus /\
  getType (getToken st') <> T_Asterisk /\
  getType (getToken st') <> T_Slash.
Proof.
  destruct fuel as [|n]; [done|]. simpl. intros H.
  apply bind_Ok in H as (f & st1 & Ha & H).
  apply parseAndExpr_stops in Ha.
  apply parseOrExpr_loop_stops in H; [|done].
  destruct H as ((((? & ?) & ? & ?) & ?) & ?). done.
Qed.

Lemma expression_is_read_to_its_end_witness :
  getType (getToken st_sum_read) <> T_Bar2 /\
  getType (getToken st_sum_read) <> T_Ampersand2 /\
  getType (getToken st_sum_read) <> T_Plus /\
  getType (getToken st_sum_read) <> T_Minus /\
  getType (getToken st_sum_read) <> T_Asterisk /\
  getType (getToken st_sum_read) <> T_Slash.
Proof.
  apply (expression_is_read_to_its_end 12 (reading toks_sum) sum_tree
           st_sum_read).
  vm_compute. reflexivity.
Defined.

(** ** A block parse works on its own block only *)

Lemma frame_refl c st : frame c st st.
Proof.
  intros b blk Hb. exists blk. split_and!; [done|done|done|].
  exists []. by rewrite app_nil_r.
Qed.

Lemma frame_trans c a b d : frame c a b -> frame c b d -> frame c a d.
Proof.
  intros H1 H2 i blk Hi.
  destruct (H1 _ _ Hi) as (blk1 & Hi1 & Hsame1 & Hpar1 & new1 & Hs1).
  destruct (H2 _ _ Hi1) as (blk2 & Hi2 & Hsame2 & Hpar2 & new2 & Hs2).
  exists blk2. split_and!; [done| |congruence|].
  - intros Hne. rewrite (Hsame2 Hne). by apply Hsame1.
  - exists (new1 ++ new2). by rewrite Hs2, Hs1, app_assoc.
Qed.

Lemma frame_same_heap c st st' : heap st' = heap st -> frame c st st'.
Proof.
  intros Hh b blk Hb. exists blk. rewrite Hh.
  split_and!; [done|done|done|]. exists []. by rewrite app_nil_r.
Qed.

Lemma frame_at_bind {A B} c (m : M A) (f : A -> M B) :
  frame_at c m -> (forall a, frame_at c (f a)) -> frame_at c (bind m f).
Proof.
  intros Hm Hf st Hc. unfold bind. specialize (Hm st Hc).
  destruct (m st) as [a st1|e st1|]; [|done|done].
  destruct Hm as [Hf1 Hc1]. specialize (Hf a st1 Hc1).
  destruct (f a st1) as [b st2|e st2|]; [| |done].
  - destruct Hf. split; [by eapply frame_trans|done].
  - by eapply frame_trans.
Qed.

Lemma frame_at_getBlock_bind {B} c (k : BlockId -> M B) :
  (forall b, c = Some b -> frame_at c (k b)) ->
  frame_at c (bind getBlock k).
Proof.
  intros Hk st Hc. unfold bind, getBlock. rewrite Hc.
  destruct c as [b|]; [|apply frame_refl]. by apply (Hk b).
Qed.

Lemma frame_at_throw {A} c e : frame_at c (@throw A e).
Proof. intros st _. apply frame_refl. Qed.

Lemma expr_frame_at {A} c (m : M A) : expr_spec m -> frame_at c m.
Proof.
  intros Hm st Hc. specialize (Hm st).
  destruct (m st) as [a st'|e st'|]; [| |done].
  - destruct Hm as (Hb & _ & Hh).
    split; [by apply frame_same_heap|congruence].
  - destruct Hm as ((_ & _ & Hh) & _). by apply frame_same_heap.
Qed.

Lemma frame_alter c b (g : BlockStatement -> BlockStatement) st :
  c = Some b ->
  (forall blk, getParent (g blk) = getParent blk) ->
  (forall blk, exists new, statements (g blk) = statements blk ++ new) ->
  frame c st (with_heap (alter g b (heap st)) st).
Proof.
  intros -> Hpar Hst i blk Hi. simpl.
  destruct (decide (i = b)) as [->|Hne].
  - exists (g blk). rewrite list_lookup_alter_eq, Hi.
    split_and!; [done|done|done|done].
  - exists blk. rewrite list_lookup_alter_ne by done.
    split_and!; [done|done|done|]. exists []. by rewrite app_nil_r.
Qed.

Lemma frame_at_addStatement b s : frame_at (Some b) (Block.addStatement b s).
Proof.
  intros st Hc. unfold Block.addStatement, modify.
  split; [|done]. apply frame_alter; [done|done|]. intros blk. by exists [s].
Qed.

Lemma frame_at_addVariable b x v :
  frame_at (Some b) (Block.addVariable b x v).
Proof.
  intros st Hc. unfold Block.addVariable, modify.
  split; [|done]. apply frame_alter; [done|done|].
  intros blk. exists []. by rewrite app_nil_r.
Qed.

Lemma frame_make c parent st :
  frame c st (with_heap (heap st ++ [mkBlock parent ∅ []]) st).
Proof.
  intros b blk Hb. exists blk. simpl.
  rewrite lookup_app_l by (by eapply lookup_lt_Some).
  split_and!; [done|done|done|]. exists []. by rewrite app_nil_r.
Qed.

(** The blocks a nested parse works on are new ones. *)
Lemma frame_at_parseNestedBlock c (parseBlock : BlockId -> M unit) :
  block_spec parseBlock -> block_frame parseBlock ->
  frame_at c (parseNestedBlock parseBlock).
Proof.
  intros Hspec Hframe st Hc.
  unfold parseNestedBlock, bind, gets, Block.make, ret.
  set (st1 := with_heap _ st).
  assert (Hnew : heap st1 !! length (heap st)
                 = Some (mkBlock (block st) ∅ [])).
  { simpl. rewrite lookup_app_r by lia. by rewrite Nat.sub_diag. }
  specialize (Hspec (length (heap st)) st1).
  specialize (Hframe (length (heap st)) st1).
  assert (Hold : forall st2, frame (Some (length (heap st))) st1 st2 ->
                             frame c st st2).
  { intros st2 H2 b blk Hb.
    destruct (H2 b blk) as (blk' & Hb' & Hsame & Hrest).
    { simpl. rewrite lookup_app_l by (by eapply lookup_lt_Some). done. }
    exists blk'. split; [done|]. split; [|done]. intros _. apply Hsame.
    intros [= ->]. apply lookup_lt_Some in Hb. lia. }
  destruct (parseBlock _ st1) as [[] st2|e st2|]; [| |done].
  - destruct Hspec as (_ & Hrestore & _).
    split; [by apply Hold|]. rewrite (Hrestore _ Hnew). done.
  - by apply Hold.
Qed.

(** One syntax-directed step on a goal [frame_at c m]. *)
Ltac frame_step :=
  match goal with
  | |- frame_at _ (bind getBlock _) =>
      apply frame_at_getBlock_bind; intros ? ->
  | |- frame_at _ (bind _ _) => apply frame_at_bind; [|intros ?]
  | |- frame_at _ (throw _) => apply frame_at_throw
  | |- frame_at _ (Block.addStatement _ _) => apply frame_at_addStatement
  | |- frame_at _ (Block.addVariable _ _ _) => apply frame_at_addVariable
  | |- frame_at _ (parseNestedBlock _) =>
      apply frame_at_parseNestedBlock; assumption
  | |- frame_at _ (if ?b then _ else _) => destruct b
  | |- frame_at _ (match ?x with _ => _ end) => destruct x
  | H : forall c, frame_at c ?m |- frame_at _ ?m => apply H
  | H : forall c a, frame_at c (?f a) |- frame_at _ (?f _) => apply H
  | |- frame_at _ _ => apply expr_frame_at; solve [repeat expr_step]
  end.

Lemma frame_at_parseInitStatement n c : frame_at c (parseInitStatement n).
Proof.
  with_expr_lemmas. unfold parseInitStatement. cbv zeta. repeat frame_step.
Qed.

Lemma frame_at_parseAssignOrFunCall n c :
  frame_at c (parseAssignOrFunCall n).
Proof.
  with_expr_lemmas.
  unfold parseAssignOrFunCall, parseAssignStatement. repeat frame_step.
Qed.

Lemma frame_at_parseReturnStatement n c :
  frame_at c (parseReturnStatement n).
Proof. with_expr_lemmas. unfold parseReturnStatement. repeat frame_step. Qed.

Lemma frame_at_parseAppendStatement c : frame_at c parseAppendStatement.
Proof. with_expr_lemmas. unfold parseAppendStatement. repeat frame_step. Qed.

Lemma block_frame_step (loop : M unit) b :
  (forall c, frame_at c loop) ->
  forall st,
    match (setBlock (Some b) ;; loop ;;
           parent <- Block.parentOf b ;; setBlock parent) st with
    | Ok _ st' => frame (Some b) st st'
    | Throw _ st' => frame (Some b) st st'
    | OutOfFuel => True
    end.
Proof.
  intros Hloop st. unfold bind, setBlock, modify.
  specialize (Hloop (Some b) (with_block (Some b) st) eq_refl).
  destruct (loop _) as [[] st2|e st2|]; [| |done].
  - destruct Hloop as [Hf _]. unfold Block.parentOf.
    destruct (heap st2 !! b); exact Hf.
  - exact Hloop.
Qed.

Lemma block_frames_all n : block_frames n.
Proof.
  induction n as [|n IH]; unfold block_frames.
  - split_and!; [intros b st; exact I|..]; intros c st Hc; exact I.
  - destruct IH as (Hblock & Hloop & Hif & Hwhile).
    pose proof (block_spec_parseStmtBlock n).
    with_expr_lemmas.
    pose proof (frame_at_parseInitStatement n).
    pose proof (frame_at_parseAssignOrFunCall n).
    pose proof (frame_at_parseReturnStatement n).
    pose proof frame_at_parseAppendStatement.
    split_and!.
    + intros b st. apply (block_frame_step _ b Hloop).
    + intros c. simpl. repeat frame_step.
    + intros c. simpl. repeat frame_step.
    + intros c. simpl. repeat frame_step.
Qed.

(** X5: a block parse works on its own block only.  However
    [parseStmtBlock] ends for block [b], the function table is as it
    was; every other block that existed is unchanged (parent, variables
    and statements); and block [b] has kept its parent, its declarations
    and its statements, only gaining statements at the end. *)
Theorem block_parse_works_on_its_block fuel b st st' :
  final_state (parseStmtBlock fuel b st) = Some st' ->
  program st' = program st /\
  forall i blk, heap st !! i = Some blk ->
    exists blk', heap st' !! i = Some blk' /\
      (i <> b -> blk' = blk) /\
      getParent blk' = getParent blk /\
      (forall x, is_Some (variables blk !! x) ->
                 is_Some (variables blk' !! x)) /\
      exists new, statements blk' = statements blk ++ new.
Proof.
  intros Hfinal.
  destruct (block_frames_all fuel) as (Hframe & _).
  specialize (Hframe b st).
  pose proof (block_spec_parseStmtBlock fuel b st) as Hspec.
  assert (Hboth : extends st st' /\ frame (Some b) st st').
  { destruct (parseStmtBlock fuel b st) as [[] st2|e st2|];
      [| |done]; injection Hfinal as <-; split; [apply Hspec|done|
                                                  apply Hspec|done]. }
  destruct Hboth as [[Hprog Hext] Hfr]. split; [done|].
  intros i blk Hi.
  destruct (Hext _ _ Hi) as (blk1 & Hi1 & _ & Hvars).
  destruct (Hfr _ _ Hi) as (blk2 & Hi2 & Hsame & Hpar & Hstmts).
  rewrite Hi1 in Hi2. injection Hi2 as <-.
  exists blk1. split_and!; [done| |done|done|done].
  intros Hne. apply Hsame. congruence.
Qed.

Lemma block_parse_works_on_its_block_witness :
  program st_break_read = program (reading toks_break) /\
  forall i blk,
    heap (reading toks_break) !! i = Some blk ->
    exists blk',
      heap st_break_read !! i = Some blk' /\
      (i <> 0 -> blk' = blk) /\
      getParent blk' = getParent blk /\
      (forall x, is_Some (variables blk !! x) ->
                 is_Some (variables blk' !! x)) /\
      exists new, statements blk' = statements blk ++ new.
Proof.
  apply (block_parse_works_on_its_block 6 0 (reading toks_break)
           st_break_read).
  vm_compute. reflexivity.
Defined.

(** ** The blocks of an [if] statement *)

Lemma parseNestedBlock_Ok n st nb st' :
  parseNestedBlock (parseStmtBlock n) st = Ok nb st' ->
  nb = length (heap st) /\
  getParent <$> heap st' !! nb = Some (block st) /\
  block st' = block st /\ extends st st' /\ (wf_state st -> wf_state st').
Proof.
  intros Hrun.
  pose proof (stmt_spec_parseNestedBlock _ (block_spec_parseStmtBlock n) st)
    as Hspec.
  rewrite Hrun in Hspec. destruct Hspec as (Hext & Hcur & Hwf).
  unfold parseNestedBlock, bind, gets, Block.make, ret in Hrun.
  set (st1 := with_heap _ st) in Hrun.
  pose proof (block_spec_parseStmtBlock n (length (heap st)) st1) as Hblk.
  destruct (parseStmtBlock n _ st1) as [[] st2|e st2|]; [|done|done].
  injection Hrun as <- <-. split; [done|]. split; [|done].
  destruct Hblk as ([_ Hkeep] & _).
  destruct (Hkeep (length (heap st)) (mkBlock (block st) ∅ []))
    as (blk' & Hb' & Hpar & _).
  { simpl. rewrite lookup_app_r by lia. by rewrite Nat.sub_diag. }
  rewrite Hb'. simpl. by rewrite Hpar.
Qed.

Lemma extends_lookup st st' b blk :
  extends st st' -> heap st !! b = Some blk ->
  getParent <$> heap st' !! b = Some (getParent blk).
Proof.
  intros [_ H] Hb. destruct (H _ _ Hb) as (blk' & -> & Hpar & _).
  simpl. by rewrite Hpar.
Qed.

Lemma encloses_below h p b : wf_heap h -> encloses h p b -> p < b.
Proof.
  intros Hwf. induction 1 as [b blk p Hb Hp|b blk p q Hb Hp _ IH].
  - by eapply Hwf.
  - specialize (Hwf _ _ _ Hb Hp). lia.
Qed.

Lemma encloses_through_parent h q b blk p :
  h !! b = Some blk -> getParent blk = Some p -> encloses h q b ->
  q = p \/ encloses h q p.
Proof.
  intros Hb Hp Henc.
  destruct Henc as [b blk' p' Hb' Hp'|b blk' p' q Hb' Hp' Henc].
  - left. congruence.
  - right. rewrite Hb in Hb'. injection Hb' as <-.
    rewrite Hp in Hp'. by injection Hp' as <-.
Qed.

Lemma parseIfStatement_Ok n st s st' :
  parseIfStatement (S n) st = Ok s st' ->
  exists cond ifBlock elseBlock st1 st2,
    s = IfStatement cond ifBlock elseBlock /\
    block st1 = block st /\ heap st1 = heap st /\
    parseNestedBlock (parseStmtBlock n) st1 = Ok ifBlock st2 /\
    match elseBlock with
    | None => st' = st2
    | Some eb =>
        exists st3,
          block st3 = block st2 /\ heap st3 = heap st2 /\
          parseNestedBlock (parseStmtBlock n) st3 = Ok eb st'
    end.
Proof.
  simpl. intros H.
  apply bind_Ok in H as (? & sa & Ha & H).
  apply bind_Ok in H as (cond & sb & Hb & H).
  apply bind_Ok in H as (? & sc & Hc & H).
  apply bind_Ok in H as (? & sd & Hd & H).
  apply bind_Ok in H as (ifBlock & st2 & Hif & H).
  apply bind_Ok in H as (hasElse & se & He & H).
  apply bind_Ok in H as (elseBlock & sf & Helse & H).
  injection H as <- <-.
  assert (Hs1 : same_scope st sd).
  { eapply same_scope_trans;
      [eapply expr_spec_Ok, Ha; apply expr_spec_accept|].
    eapply same_scope_trans;
      [eapply expr_spec_Ok, Hb; apply expr_spec_parseOrExpr|].
    eapply same_scope_trans;
      [eapply expr_spec_Ok, Hc; apply expr_spec_accept|].
    eapply expr_spec_Ok, Hd; apply expr_spec_accept. }
  destruct Hs1 as (Hb1 & _ & Hh1).
  exists cond, ifBlock, elseBlock, sd, st2.
  split; [done|]. split; [done|]. split; [done|]. split; [done|].
  pose proof (expr_spec_Ok _ _ _ _ (expr_spec_accept _ _) He)
    as (Hbe & _ & Hhe).
  destruct hasElse.
  - apply bind_Ok in Helse as (? & sg & Hg & H).
    apply bind_Ok in H as (eb & sh & Heb & H). injection H as <- <-.
    apply (expr_spec_Ok _ _ _ _ (expr_spec_accept _ _)) in Hg
      as (Hbg & _ & Hhg).
    exists sg. split; [congruence|]. split; [congruence|done].
  - injection Helse as <- <-.
    by apply accept_Ok_false in He as [-> _].
Qed.

(** X6. The blocks of an [if] statement are new blocks of the store whose
    parent is the block the statement stands in, also the [else] block,
    which is opened after the [then] block was closed: the two are
    different blocks, neither lies inside the other, and the cursor is
    back on the statement's block. *)
Theorem if_blocks_are_siblings fuel st cur cond ifBlock elseBlock st' :
  wf_state st -> block st = Some cur ->
  parseIfStatement fuel st = Ok (IfStatement cond ifBlock elseBlock) st' ->
  block st' = Some cur /\
  length (heap st) <= ifBlock /\
  getParent <$> heap st' !! ifBlock = Some (Some cur) /\
  forall eb, elseBlock = Some eb ->
    ifBlock < eb /\
    getParent <$> heap st' !! eb = Some (Some cur) /\
    ~ encloses (heap st') ifBlock eb /\ ~ encloses (heap st') eb ifBlock.
Proof.
  intros Hwf Hcur Hrun. destruct fuel as [|n]; [done|].
  apply parseIfStatement_Ok in Hrun
    as (c & ib & eb & st1 & st2 & [= <- <- <-] & Hb1 & Hh1 & Hif & Helse).
  assert (Hwf1 : wf_state st1).
  { destruct Hwf as [Hh Hb]. split; rewrite ?Hh1; [done|].
    intros b. rewrite Hb1. apply Hb. }
  apply parseNestedBlock_Ok in Hif as (-> & Hpar & Hb2 & Hext2 & Hwf2).
  specialize (Hwf2 Hwf1). rewrite Hb1, Hcur in Hpar. rewrite <- Hh1.
  destruct elseBlock as [e|].
  - destruct Helse as (st3 & Hb3 & Hh3 & Helse).
    assert (Hwf3 : wf_state st3).
    { destruct Hwf2 as [Hh Hb]. split; rewrite ?Hh3; [done|].
      intros b. rewrite Hb3. apply Hb. }
    apply parseNestedBlock_Ok in Helse as (-> & Hpar' & Hb' & Hext' & Hwf').
    specialize (Hwf' Hwf3).
    rewrite Hb3, Hb2, Hb1, Hcur in Hpar'.
    assert (Hlt : length (heap st1) < length (heap st3)).
    { rewrite Hh3. apply lookup_lt_is_Some.
      destruct (heap st2 !! length (heap st1)); [eauto|done]. }
    assert (Hpar2 : getParent <$> heap st' !! length (heap st1)
                    = Some (Some cur)).
    { destruct (heap st2 !! length (heap st1)) as [blk|] eqn:Hblk; [|done].
      rewrite <- Hh3 in Hblk. injection Hpar as Hpar.
      rewrite (extends_lookup _ _ _ _ Hext' Hblk). by rewrite Hpar. }
    split; [congruence|]. split; [lia|]. split; [done|].
    intros ? [= <-]. split; [done|]. split; [done|].
    assert (Hc : cur < length (heap st1)) by by apply Hwf1; congruence.
    destruct (heap st' !! length (heap st3)) as [be|] eqn:Hbe; [|done].
    destruct (heap st' !! length (heap st1)) as [bi|] eqn:Hbi; [|done].
    injection Hpar' as Hpe. injection Hpar2 as Hpi.
    split; intros Henc.
    + destruct (encloses_through_parent _ _ _ _ _ Hbe Hpe Henc)
        as [Heq|Henc']; [lia|].
      apply encloses_below in Henc'; [lia|apply Hwf'].
    + destruct (encloses_through_parent _ _ _ _ _ Hbi Hpi Henc)
        as [Heq|Henc']; [lia|].
      apply encloses_below in Henc'; [lia|apply Hwf'].
  - subst st'. split; [congruence|]. split; [lia|]. by split.
Qed.

Lemma if_blocks_are_siblings_witness :
  block st_if_else_read = Some 0 /\
  length (heap (reading toks_if_else)) <= 1 /\
  getParent <$> heap st_if_else_read !! 1 = Some (Some 0) /\
  forall eb, Some 2 = Some eb ->
    1 < eb /\
    getParent <$> heap st_if_else_read !! eb = Some (Some 0) /\
    ~ encloses (heap st_if_else_read) 1 eb /\
    ~ encloses (heap st_if_else_read) eb 1.
Proof.
  apply (if_blocks_are_siblings 12 (reading toks_if_else) 0
           (primary (literal 1)) 1 (Some 2) st_if_else_read).
  - solve_wf_state.
  - reflexivity.
  - vm_compute. reflexivity.
Defined.

(** ** Where a fault comes from *)

Lemma live_same_scope st st' : same_scope st st' -> live st -> live st'.
Proof.
  intros Hs [Hwf Hb]. split; [by eapply same_scope_wf|].
  destruct Hs as (-> & _). done.
Qed.

Lemma live_move st : live st -> live (move_state st).
Proof. apply live_same_scope. by repeat split. Qed.

Lemma fault_on_weaken {A} (Q Q' : Parser -> Prop) (m : M A) :
  (forall st, Q st -> Q' st) -> fault_on Q' m -> fault_on Q m.
Proof. intros HQ Hm st Hl Hq. apply Hm; auto. Qed.

Lemma fault_spec_on {A} Q (m : M A) : fault_spec m -> fault_on Q m.
Proof. by apply fault_on_weaken. Qed.

Lemma fault_on_bind {A B} Q (m : M A) (k : A -> M B) :
  fault_on Q m -> (forall a, fault_spec (k a)) -> fault_on Q (bind m k).
Proof.
  intros Hm Hk st Hl Hq. unfold bind. specialize (Hm st Hl Hq).
  destruct (m st) as [a st1|e st1|]; [|done|done]. by apply Hk.
Qed.

Lemma fault_on_bind_keep {A B} Q (m : M A) (k : A -> M B) :
  scope_only Q -> expr_spec m -> fault_on Q m ->
  (forall a, fault_on Q (k a)) -> fault_on Q (bind m k).
Proof.
  intros HQ He Hm Hk st Hl Hq. unfold bind.
  specialize (Hm st Hl Hq). specialize (He st).
  destruct (m st) as [a st1|e st1|]; [|done|done].
  apply Hk; [done|]. by apply (HQ st).
Qed.

Lemma fault_on_gets_bind {A B} Q (f : Parser -> A) (k : A -> M B) :
  (forall a, fault_on (fun st => Q st /\ f st = a) (k a)) ->
  fault_on Q (bind (gets f) k).
Proof. intros Hk st Hl Hq. unfold bind, gets. by apply Hk. Qed.

Lemma fault_on_accept_bind {B} Q t d (k : bool -> M B) :
  fault_spec (k true) ->
  fault_on (fun st => Q st /\ getType (getToken st) <> t) (k false) ->
  fault_on Q (bind (accept t d) k).
Proof.
  intros Ht Hf st Hl Hq. unfold bind, accept.
  destruct (decide _) as [Heq|Hne].
  - apply Ht; [by apply live_move|done].
  - destruct d; [done|]. by apply Hf.
Qed.

Lemma fault_on_accept_bind_current {B} Q t d (k : bool -> M B) :
  t <> T_EOF ->
  fault_on (fun st => getType (current st) = t) (k true) ->
  fault_on (fun st => Q st /\ getType (getToken st) <> t) (k false) ->
  fault_on Q (bind (accept t d) k).
Proof.
  intros Hne Ht Hf st Hl Hq. unfold bind.
  destruct (accept t d st) as [[] st1|e st1|] eqn:Hacc.
  - destruct (accept_consumes _ _ _ _ Hne Hacc) as (tk & _ & Htk & Hcur).
    revert Hacc. unfold accept. destruct (decide _); [|by destruct d].
    intros [= <-]. apply Ht; [by apply live_move|].
    simpl in Hcur |- *. by rewrite Hcur.
  - apply accept_Ok_false in Hacc as [-> Hmiss]. by apply Hf.
  - by apply accept_Throw in Hacc as ->.
  - revert Hacc. unfold accept. destruct (decide _); [done|by destruct d].
Qed.

Lemma fault_on_accept_THROW_bind {B} Q t (k : bool -> M B) :
  fault_spec (k true) -> fault_on Q (bind (accept t THROW) k).
Proof.
  intros Ht st Hl Hq. unfold bind, accept.
  destruct (decide _) as [Heq|Hne]; [|done].
  apply Ht; [by apply live_move|done].
Qed.

Lemma fault_on_ret {A} Q (a : A) : fault_on Q (ret a).
Proof. by intros st Hl _. Qed.

Lemma fault_on_out_of_fuel {A} Q : fault_on Q (@out_of_fuel A).
Proof. by intros st Hl _. Qed.

Lemma fault_on_throw {A} Q e :
  (forall st, live st -> Q st -> explained e st) -> fault_on Q (@throw A e).
Proof. intros H st Hl Hq. by apply H. Qed.

Lemma fault_on_accept Q t d : fault_on Q (accept t d).
Proof.
  intros st Hl _. unfold accept.
  destruct (decide _); [by apply live_move|]. by destruct d.
Qed.

Lemma fault_on_move_bind {B} Q (k : unit -> M B) :
  fault_spec (k tt) -> fault_on Q (bind move k).
Proof.
  intros Hk st Hl _. unfold bind, move, modify.
  apply Hk; [by apply live_move|done].
Qed.

Lemma fault_on_getBlock_bind {B} Q (k : BlockId -> M B) :
  (forall b, fault_on (fun st => Q st /\ block st = Some b) (k b)) ->
  fault_on Q (bind getBlock k).
Proof.
  intros Hk st Hl Hq. unfold bind, getBlock.
  destruct Hl as [Hwf [b Hb]]. rewrite Hb. apply Hk; [by split; eauto|done].
Qed.

Lemma fault_on_findVariable Q x :
  (forall st, Q st -> getString (current st) = x \/ named_in_scope x st) ->
  fault_on Q (findVariable x).
Proof.
  intros HQ st Hl Hq. destruct (Hl) as [Hwf [b Hb]].
  rewrite (findVariable_run st b x Hb).
  destruct (resolve st b x) as [r|] eqn:Hr; [done|]. simpl.
  assert (Hno : ~ visible (heap st) b x).
  { intros Hv. destruct (resolve_visible st b x Hwf Hb Hv) as (r & Hr' & _).
    congruence. }
  destruct (HQ st Hq) as [->|(b' & Hb' & Hv)]; [by exists b|].
  rewrite Hb in Hb'. by injection Hb' as <-.
Qed.

Lemma fault_on_existVariable_bind {B} Q x (k : bool -> M B) :
  (forall st, Q st -> getString (current st) = x) ->
  (forall a, fault_on (named_in_scope x) (k a)) ->
  fault_on Q (bind existVariable k).
Proof.
  intros HQ Hk st Hl Hq. destruct (Hl) as [Hwf [b Hb]].
  unfold bind. rewrite (existVariable_run st b Hb), (HQ st Hq).
  destruct (in_scope st b x) eqn:Hin.
  - apply Hk; [done|]. exists b. split; [done|].
    by apply visible_of_in_scope.
  - simpl. rewrite (HQ st Hq). exists b. split; [done|].
    apply not_visible_of_in_scope; [apply Hwf|by apply Hwf|done].
Qed.

Lemma scope_only_named x : scope_only (named_in_scope x).
Proof.
  intros st st' (Hb & _ & Hh) (b & Hcur & Hv). exists b.
  rewrite Hb, Hh. done.
Qed.

Lemma scope_only_known name :
  scope_only (fun st => is_Some (program st !! name)).
Proof. intros st st' (_ & Hp & _). by rewrite Hp. Qed.

Lemma fault_on_findFunction name :
  fault_on (fun st => is_Some (program st !! name))
    (Program.findFunction name).
Proof.
  intros st Hl [fd Hfd]. unfold Program.findFunction. by rewrite Hfd.
Qed.

(** One syntax-directed step on a goal [fault_on Q m]. *)
Ltac fault_step :=
  match goal with
  | |- fault_on _ (let _ := _ in _) => cbv zeta
  | |- fault_on _ (bind (accept _ THROW) _) =>
      apply fault_on_accept_THROW_bind
  | |- fault_on _ (bind (accept _ _) _) =>
      apply fault_on_accept_bind; cbv beta iota
  | |- fault_on _ (bind (accept1 _) _) =>
      apply fault_on_accept_bind; cbv beta iota
  | |- fault_on _ (bind move _) => apply fault_on_move_bind
  | |- fault_on _ (bind (gets _) _) => apply fault_on_gets_bind; intros ?
  | |- fault_on _ (bind getBlock _) => apply fault_on_getBlock_bind; intros ?
  | |- fault_on _ (bind (findVariable (getString ?c)) _) =>
      apply fault_on_bind;
      [apply fault_on_findVariable; intros ? [_ <-]; by left|intros ?]
  | H : fault_spec ?m |- fault_on _ (bind ?m _) =>
      apply fault_on_bind; [apply fault_spec_on; exact H|intros ?]
  | H : forall a, fault_spec (?f a) |- fault_on _ (bind (?f _) _) =>
      apply fault_on_bind; [apply fault_spec_on; apply H|intros ?]
  | |- fault_on _ (bind (if ?b then _ else _) _) =>
      apply fault_on_bind; [destruct b|intros ?]
  | |- fault_on _ (bind (bind _ _) _) => apply fault_on_bind; [|intros ?]
  | |- fault_on _ (bind (ret _) _) => apply fault_on_bind; [|intros ?]
  | |- fault_on _ (ret _) => apply fault_on_ret
  | |- fault_on _ out_of_fuel => apply fault_on_out_of_fuel
  | |- fault_on _ (throw SyntaxError) => apply fault_on_throw; by intros
  | |- fault_on _ (throw UndefinedFunction) => apply fault_on_throw; by intros
  | |- fault_on _ (throw ArityMismatch) => apply fault_on_throw; by intros
  | |- fault_on _ (throw UnrecognizedExpression) =>
      let Hq := fresh "Hq" in
      apply fault_on_throw; intros ? _ Hq; simpl;
      destruct (getType (getToken _));
      first [exfalso; intuition congruence
            |split; [reflexivity|first [by left|right; tauto]]]
  | |- fault_on _ (if ?b then _ else _) => destruct b
  | |- fault_on _ (match ?x with _ => _ end) => destruct x
  | H : fault_spec ?m |- fault_on _ ?m => apply fault_spec_on; exact H
  | H : forall a, fault_spec (?f a) |- fault_on _ (?f _) =>
      apply fault_spec_on; apply H
  | H : forall a b, fault_spec (?f a b) |- fault_on _ (?f _ _) =>
      apply fault_spec_on; apply H
  end.

Lemma fault_spec_parseLenStatement : fault_spec parseLenStatement.
Proof. unfold parseLenStatement. repeat fault_step. Qed.

Lemma fault_spec_parseAppendStatement : fault_spec parseAppendStatement.
Proof. unfold parseAppendStatement. repeat fault_step. Qed.

Lemma fault_spec_parseVectorLiteral_loop n vs :
  fault_spec (parseVectorLiteral_loop n vs).
Proof. revert vs. induction n; intros; simpl; repeat fault_step. Qed.

Lemma fault_spec_parseVectorLiteral n : fault_spec (parseVectorLiteral n).
Proof.
  pose proof (fault_spec_parseVectorLiteral_loop n).
  unfold parseVectorLiteral. repeat fault_step.
Qed.

Lemma fault_on_indexed n tk (unary : bool) :
  fault_spec (parseOrExpr n) ->
  fault_on (named_in_scope (getString tk))
    (indexed <- accept T_OpenBracket NOTHROW ;;
     if indexed then
       e <- parseOrExpr n ;;
       let indexExpr := OrExpr e [] in
       slice <- accept T_Colon NOTHROW ;;
       baseMathExpr <-
         (if slice then
            e2 <- parseOrExpr n ;;
            let indexExprSlice := OrExpr e2 [] in
            v <- findVariable (getString tk) ;;
            ret (BaseMathExpr (OSlice v indexExpr indexExprSlice) unary)
          else
            v <- findVariable (getString tk) ;;
            ret (BaseMathExpr (OIndex v indexExpr) unary)) ;;
       accept T_CloseBracket THROW ;;
       ret baseMathExpr
     else
       cur <- gets current ;;
       v <- findVariable (getString cur) ;;
       ret (BaseMathExpr (OVar v) unary)).
Proof.
  intros IH.
  assert (Hfind : forall k : VarRef -> M Expression,
    (forall v, fault_spec (k v)) ->
    fault_on (named_in_scope (getString tk))
      (bind (findVariable (getString tk)) k)).
  { intros k Hk. apply fault_on_bind; [|done].
    apply fault_on_findVariable. by right. }
  apply fault_on_bind_keep;
    [apply scope_only_named|apply expr_spec_accept|apply fault_on_accept|].
  intros [|]; [|repeat fault_step].
  apply fault_on_bind_keep;
    [apply scope_only_named|apply expr_spec_parseOrExpr
    |by apply fault_spec_on|].
  intros e. cbv zeta.
  apply fault_on_bind_keep;
    [apply scope_only_named|apply expr_spec_accept|apply fault_on_accept|].
  intros slice. apply fault_on_bind; [|intros; repeat fault_step].
  destruct slice.
  - apply fault_on_bind_keep;
      [apply scope_only_named|apply expr_spec_parseOrExpr
      |by apply fault_spec_on|].
    intros e2. cbv zeta. apply Hfind. intros; repeat fault_step.
  - apply Hfind. intros; repeat fault_step.
Qed.

Lemma fault_spec_callArguments n :
  fault_spec (parseOrExpr n) ->
  (forall a, fault_spec (parseFunCall_loop n a)) ->
  fault_spec (callArguments n).
Proof. intros ? ?. unfold callArguments. repeat fault_step. Qed.

Lemma fault_spec_parseFunCall n name :
  fault_spec (parseOrExpr n) ->
  (forall a, fault_spec (parseFunCall_loop n a)) ->
  fault_spec (parseFunCall (S n) name).
Proof.
  intros IH1 IH2 st Hl _. rewrite parseFunCall_unfold.
  destruct (program st !! name) as [fd|] eqn:Hfd; [|done].
  assert (H : fault_on (fun st => is_Some (program st !! name))
    (args <- callArguments n ;;
     functionDef <- Program.findFunction name ;;
     if decide (size functionDef ≠ length args) then throw ArityMismatch
     else ret (FunctionCall name args))).
  { apply fault_on_bind_keep;
      [apply scope_only_known|apply expr_spec_callArguments
      |by apply fault_spec_on, fault_spec_callArguments|].
    intros args. apply fault_on_bind; [apply fault_on_findFunction|].
    intros functionDef. repeat fault_step. }
  apply H; [done|by exists fd].
Qed.

Lemma expr_faults_all n : expr_faults n.
Proof.
  induction n as [|n IH]; unfold expr_faults.
  - split_and!; intros; apply fault_on_out_of_fuel.
  - destruct IH as (?&?&?&?&?&?&?&?&?&?&?&?&?).
    pose proof fault_spec_parseLenStatement.
    pose proof (fault_spec_parseVectorLiteral n).
    split_and!; intros;
      [simpl; repeat fault_step ..| |by apply fault_spec_parseFunCall
      |simpl; repeat fault_step].
    simpl. apply fault_on_accept_bind_current; [done|..]; cbv beta iota.
    all: repeat fault_step.
    all: apply (fault_on_existVariable_bind _ (getString a));
      [by intros ? [[_ ->] _]|intros _; by apply fault_on_indexed].
Qed.

Lemma fault_spec_parseOrExpr n : fault_spec (parseOrExpr n).
Proof. apply (expr_faults_all n). Qed.


Lemma fault_on_stmt {A} Q (m : M A) :
  stmt_spec m ->
  (forall st e st', live st -> Q st -> m st = Throw e st' ->
     explained e st') ->
  fault_on Q m.
Proof.
  intros Hs Hm st Hl Hq. specialize (Hs st). specialize (Hm st).
  destruct (m st) as [a st'|e st'|]; [|by eapply Hm|done].
  destruct Hs as (_ & Hb & Hwf). destruct Hl as [Hwf0 Hb0].
  split; [auto|by rewrite Hb].
Qed.

Lemma fault_on_addStatement Q b s : fault_on Q (Block.addStatement b s).
Proof. apply fault_on_stmt; [apply stmt_spec_addStatement|done]. Qed.

Lemma fault_on_addVariable_bind {B} (Q : Parser -> Prop) b x v
    (k : unit -> M B) :
  (forall st, Q st -> block st = Some b) ->
  fault_on (named_in_scope x) (k tt) ->
  fault_on Q (bind (Block.addVariable b x v) k).
Proof.
  intros HQ Hk st Hl Hq. unfold bind, Block.addVariable, modify.
  specialize (HQ st Hq). apply Hk.
  - destruct Hl as [Hwf Hb]. split; [by apply alter_wf|done].
  - exists b. split; [done|]. apply visible_here. simpl.
    apply declares_declare. by apply Hl.
Qed.

Lemma fault_on_parseInitStatement_tail n x :
  fault_on (named_in_scope x) (parseInitStatement_tail n x).
Proof.
  unfold parseInitStatement_tail.
  apply fault_on_bind_keep;
    [apply scope_only_named|apply expr_spec_accept|apply fault_on_accept|].
  intros init.
  apply fault_on_bind_keep; [apply scope_only_named| | |].
  { pose proof expr_spec_parseOrExpr. destruct init; repeat expr_step. }
  { pose proof fault_spec_parseOrExpr. destruct init; repeat fault_step. }
  intros expr.
  apply fault_on_bind_keep;
    [apply scope_only_named|apply expr_spec_accept|apply fault_on_accept|].
  intros _. apply fault_on_bind; [|intros; apply fault_on_ret].
  apply fault_on_findVariable. by right.
Qed.

Lemma fault_spec_parseInitStatement n : fault_spec (parseInitStatement n).
Proof.
  unfold parseInitStatement. do 3 fault_step.
  unfold Block.existVariable. apply fault_on_gets_bind.
  intros [|].
  - apply fault_on_throw. intros st _ [[[_ Hcur] Hb] Hwalk]. simpl.
    exists b. split; [done|]. rewrite Hcur.
    by apply (walk_visible _ _ _ _ Hwalk).
  - apply (fault_on_addVariable_bind _ _ (getString a));
      [by intros ? [[_ ?] _]|].
    exact (fault_on_parseInitStatement_tail n (getString a)).
Qed.

Lemma fault_spec_parseAssignStatement n v :
  fault_spec (parseAssignStatement n v).
Proof.
  pose proof fault_spec_parseOrExpr.
  unfold parseAssignStatement. repeat fault_step.
Qed.

Lemma fault_spec_parseAssignOrFunCall n :
  fault_spec (parseAssignOrFunCall n).
Proof.
  pose proof (expr_faults_all n) as (_&_&_&_&_&_&_&_&_&_&_&?&_).
  pose proof (fault_spec_parseAssignStatement n).
  unfold parseAssignOrFunCall. repeat fault_step.
  apply (fault_on_existVariable_bind _ (getString a));
    [by intros ? [[_ ->] _]|intros _].
  repeat fault_step.
Qed.

Lemma fault_spec_parseReturnStatement n :
  fault_spec (parseReturnStatement n).
Proof.
  pose proof fault_spec_parseOrExpr.
  unfold parseReturnStatement. repeat fault_step.
Qed.

Lemma fault_on_parseNestedBlock Q (parseBlock : BlockId -> M unit) :
  block_spec parseBlock -> block_fault parseBlock ->
  fault_on Q (parseNestedBlock parseBlock).
Proof.
  intros Hs Hf. apply fault_on_stmt; [by apply stmt_spec_parseNestedBlock|].
  intros st e st' [[Hwf Hcur] Hb] _.
  unfold parseNestedBlock, bind, gets, Block.make, ret.
  set (st1 := with_heap _ st).
  specialize (Hf (length (heap st)) st1).
  destruct (parseBlock _ st1) as [[] st2|e' st2|]; [done| |done].
  intros [= <- <-]. apply Hf.
  - by apply make_wf_heap.
  - simpl. rewrite length_app. simpl. lia.
Qed.

Lemma block_fault_step n :
  stmt_spec (parseStmtBlock_loop n) -> fault_spec (parseStmtBlock_loop n) ->
  block_fault (parseStmtBlock (S n)).
Proof.
  intros Hs Hf b st Hwf Hb. simpl.
  unfold bind at 1, setBlock, modify.
  set (st1 := with_block (Some b) st).
  assert (Hl : live st1).
  { split; [|by eexists]. split; [done|]. by intros ? [= <-]. }
  specialize (Hs st1). specialize (Hf st1 Hl I). unfold bind at 1.
  destruct (parseStmtBlock_loop n st1) as [[] st2|e st2|]; [|done|done].
  destruct Hs as (Hext & _). apply extends_length in Hext.
  unfold bind, Block.parentOf.
  destruct (heap st2 !! b) as [blk|] eqn:Hblk; [done|].
  apply lookup_ge_None in Hblk. simpl in Hext. lia.
Qed.

Ltac block_fault_step' :=
  match goal with
  | |- fault_on _ (Block.addStatement _ _) => apply fault_on_addStatement
  | |- fault_on _ (bind (Block.addStatement _ _) _) =>
      apply fault_on_bind; [apply fault_on_addStatement|intros ?]
  | |- fault_on _ (bind (parseNestedBlock _) _) =>
      apply fault_on_bind;
      [apply fault_on_parseNestedBlock; assumption|intros ?]
  | _ => fault_step
  end.

Lemma block_faults_all n : block_faults n.
Proof.
  induction n as [|n IH]; unfold block_faults.
  - split_and!; try apply fault_on_out_of_fuel. by intros b st.
  - destruct IH as (Hblock & Hloop & Hif & Hwhile).
    pose proof (block_specs_all n) as (Hsblock & Hsloop & _).
    pose proof fault_spec_parseOrExpr.
    pose proof (fault_spec_parseInitStatement n).
    pose proof (fault_spec_parseAssignOrFunCall n).
    pose proof (fault_spec_parseReturnStatement n).
    pose proof fault_spec_parseAppendStatement.
    split_and!.
    + by apply block_fault_step.
    + simpl. do 3 block_fault_step'.
      apply fault_on_bind; [|by intros].
      destruct (getType a) eqn:Ht; repeat block_fault_step'.
      all: apply fault_on_throw; intros st _ [_ Hc]; simpl;
        by rewrite Hc, Ht.
    + simpl. repeat block_fault_step'.
    + simpl. repeat block_fault_step'.
Qed.

Lemma syntax_only_bind {A B} (m : M A) (k : A -> M B) :
  syntax_only m -> (forall a, syntax_only (k a)) -> syntax_only (bind m k).
Proof.
  intros Hm Hk st. unfold bind. specialize (Hm st).
  destruct (m st) as [a st1|e st1|]; [apply Hk|done|done].
Qed.

Lemma syntax_only_accept t d : syntax_only (accept t d).
Proof.
  intros st. unfold accept. destruct (decide _); [done|]. by destruct d.
Qed.

Ltac syntax_step :=
  match goal with
  | |- syntax_only (bind _ _) => apply syntax_only_bind; [|intros ?]
  | |- syntax_only (accept _ _) => apply syntax_only_accept
  | |- syntax_only (if ?b then _ else _) => destruct b
  | H : forall a, syntax_only (?f a) |- syntax_only (?f _) => apply H
  | |- syntax_only (ret _) => by intros ?
  | |- syntax_only (gets _) => by intros ?
  | |- syntax_only (Block.make _) => by intros ?
  | |- syntax_only (Block.addVariable _ _ _) => by intros ?
  | |- syntax_only out_of_fuel => by intros ?
  end.

Lemma syntax_only_parseArgs_loop n fd : syntax_only (parseArgs_loop n fd).
Proof.
  revert fd. induction n as [|n IH]; intros fd; simpl;
    unfold addParam; repeat syntax_step.
Qed.

Lemma syntax_only_parseFunctionHeader n :
  syntax_only (parseFunctionHeader n).
Proof.
  pose proof (syntax_only_parseArgs_loop n).
  unfold parseFunctionHeader, makeFunctionDefinition, parseArgs, addParam.
  repeat syntax_step.
Qed.

Lemma parseFunction_faults fuel st e st' :
  wf_state st -> parseFunction fuel st = Throw e st' -> explained e st'.
Proof.
  intros Hwf. rewrite parseFunction_unfold.
  pose proof (stmt_spec_parseFunctionHeader fuel st) as Hhdr.
  pose proof (syntax_only_parseFunctionHeader fuel st) as Hsyn.
  destruct (parseFunctionHeader fuel st) as [fd st1|e1 st1|] eqn:Hrun;
    [|by intros [= <- <-]; subst e1|done].
  destruct Hhdr as (_ & _ & Hwf1). specialize (Hwf1 Hwf).
  apply parseFunctionHeader_block in Hrun.
  unfold bind, accept. destruct (decide _) as [Hopen|Hopen];
    [|by intros [= <- <-]].
  pose proof (block_faults_all fuel) as (Hbody & _).
  specialize (Hbody (getFunctionBlock fd) (move_state (register fd st1))).
  destruct (parseStmtBlock fuel _ _) as [[] st2|e2 st2|]; [done| |done].
  intros [= <- <-]. apply Hbody; [apply Hwf1|done].
Qed.

Lemma parseProgram_faults fuel st e st' :
  wf_state st -> parseProgram fuel st = Throw e st' -> explained e st'.
Proof.
  revert st. induction fuel as [|n IH]; intros st Hwf; [done|].
  simpl. unfold bind at 1, gets. destruct (decide _) as [Hmore|Hmore]; [|done].
  unfold bind at 1, accept. destruct (decide _) as [Hfun|Hfun].
  - unfold bind at 1.
    pose proof (parseFunction_wf n (move_state st)) as Hf.
    pose proof (parseFunction_faults n (move_state st)) as He.
    destruct (parseFunction n _) as [[] st1|e1 st1|]; [| |done].
    + apply IH. by apply Hf.
    + intros [= <- <-]. by apply He.
  - unfold bind at 1, ret. by apply IH.
Qed.

(** X7. Whatever the token stream, the parser never follows a null block
    pointer and never looks a function up that it has not found in the
    table: statements are only parsed with the cursor on a block. *)
Theorem parser_never_dereferences_null fuel st e st' :
  wf_state st -> parseProgram fuel st = Throw e st' -> e <> NullDereference.
Proof.
  intros Hwf Hrun ->. exact (parseProgram_faults _ _ _ _ Hwf Hrun).
Qed.

(** X8. A fault of the statement switch or of the operand parser points
    at its token: after [BlockParseInvalid] the token read last opens no
    statement; after [UnrecognizedExpression] the lookahead is none of
    the five tokens with which an operand goes on after its optional
    [-], and it opens no operand at all unless the token read last is
    that [-] (the lookahead may then be a second [-], as in [- - 1]). *)
Theorem syntax_faults_point_at_their_token fuel st e st' :
  wf_state st -> parseProgram fuel st = Throw e st' ->
  (e = BlockParseInvalid ->
     starts_statement (getType (current st')) = false) /\
  (e = UnrecognizedExpression ->
     starts_unsigned_operand (getType (getToken st')) = false /\
     (starts_operand (getType (getToken st')) = false \/
      getType (current st') = T_Minus)).
Proof.
  intros Hwf Hrun.
  split; intros ->; exact (parseProgram_faults _ _ _ _ Hwf Hrun).
Qed.


Lemma parser_never_dereferences_null_witness :
  BlockParseInvalid <> NullDereference.
Proof.
  apply (parser_never_dereferences_null 10 (init prog_unclosed_block)
           BlockParseInvalid st_unclosed_block).
  - split; [by intros [|?] ? ? ?|done].
  - vm_compute. reflexivity.
Defined.

Lemma syntax_faults_point_at_their_token_witness :
  starts_statement (getType (current st_unclosed_block)) = false /\
  starts_unsigned_operand (getType (getToken st_double_minus)) = false /\
  (starts_operand (getType (getToken st_double_minus)) = false \/
   getType (current st_double_minus) = T_Minus).
Proof.
  split.
  - destruct (syntax_faults_point_at_their_token 10
                (init prog_unclosed_block) BlockParseInvalid
                st_unclosed_block) as [H _].
    + split; [by intros [|?] ? ? ?|done].
    + vm_compute. reflexivity.
    + apply H. reflexivity.
  - destruct (syntax_faults_point_at_their_token 20
                (init prog_double_minus) UnrecognizedExpression
                st_double_minus) as [_ H].
    + split; [by intros [|?] ? ? ?|done].
    + vm_compute. reflexivity.
    + apply H. reflexivity.
Defined.


(** ** The shape of expression trees *)

Lemma builds_bind {A B} (P : A -> Prop) (R : B -> Prop) (m : M A)
    (k : A -> M B) :
  builds P m -> (forall a, P a -> builds R (k a)) -> builds R (bind m k).
Proof.
  intros Hm Hk st b st' H. apply bind_Ok in H as (a & st1 & Ha & Hb).
  eapply Hk; [by eapply Hm|done].
Qed.

Lemma builds_any {A} (m : M A) : builds (fun _ => True) m.
Proof. by intros st a st' _. Qed.

Lemma builds_ret {A} (P : A -> Prop) a : P a -> builds P (ret a).
Proof. by intros Ha st a' st' [= <- _]. Qed.

Lemma builds_throw {A} (P : A -> Prop) e : builds P (throw e).
Proof. by intros st a st' H. Qed.

Lemma builds_out_of_fuel {A} (P : A -> Prop) : builds P out_of_fuel.
Proof. by intros st a st' H. Qed.

Lemma builds_bind_assoc {A B C} (R : C -> Prop) (m : M A) (k : A -> M B)
    (k2 : B -> M C) :
  builds R (bind m (fun a => bind (k a) k2)) -> builds R (bind (bind m k) k2).
Proof.
  intros H st c st' Hrun. apply (H st c st'). revert Hrun. unfold bind.
  by destruct (m st) as [a st1|e st1|].
Qed.

Lemma builds_bind_ret {A B} (R : B -> Prop) (a : A) (k : A -> M B) :
  builds R (k a) -> builds R (bind (ret a) k).
Proof. intros H st b st' Hrun. by apply (H st b st'). Qed.

Lemma builds_parseLenStatement : builds is_call parseLenStatement.
Proof.
  unfold parseLenStatement.
  repeat (apply (builds_bind (fun _ => True)); [apply builds_any|intros ? _]).
  apply builds_ret. constructor.
Qed.

Ltac shape_auto :=
  repeat first
    [ assumption
    | exact I
    | apply Forall_app; split
    | apply Forall_cons; split
    | apply Forall_nil
    | constructor ].

Ltac shape_step :=
  match goal with
  | |- builds _ (let _ := _ in _) => cbv zeta
  | H : builds ?P ?m |- builds _ (bind ?m _) =>
      apply (builds_bind P); [exact H|intros ? ?]
  | H : forall x, builds ?P (?f x) |- builds _ (bind (?f _) _) =>
      apply (builds_bind P); [apply H|intros ? ?]
  | H : forall a, _ -> builds ?P (?g a) |- builds _ (bind (?g _) _) =>
      apply (builds_bind P); [apply H; solve [shape_auto]|intros ? ?]
  | |- builds _ (bind (if ?b then _ else _) _) => destruct b
  | |- builds _ (bind (bind _ _) _) => apply builds_bind_assoc
  | |- builds _ (bind (ret _) _) => apply builds_bind_ret
  | |- builds _ (bind _ _) =>
      apply (builds_bind (fun _ => True)); [apply builds_any|intros ? _]
  | |- builds _ (ret _) => apply builds_ret; solve [shape_auto]
  | |- builds _ (throw _) => apply builds_throw
  | |- builds _ out_of_fuel => apply builds_out_of_fuel
  | |- builds _ (if ?b then _ else _) => destruct b
  | |- builds _ (match ?x with _ => _ end) => destruct x
  | H : forall f os, _ -> _ -> builds _ (?g f os) |- builds _ (?g _ _) =>
      apply H; solve [shape_auto]
  | H : forall a, _ -> builds _ (?g a) |- builds _ (?g _) =>
      apply H; solve [shape_auto]
  end.

Lemma expr_shapes_all n : expr_shapes n.
Proof.
  induction n as [|n IH]; unfold expr_shapes.
  - split_and!; intros; apply builds_out_of_fuel.
  - destruct IH as (?&?&?&?&?&?&?&?&?&?&?&?&?).
    pose proof builds_parseLenStatement.
    split_and!; intros; simpl; repeat shape_step.
Qed.

(** X10. The tree of an expression has one node per precedence level,
    always in the same order: [OrExpr] over [AndExpr] over [RelationExpr]
    over [BaseLogicExpr] over [AddExpr] over [MultiExpr] over
    [BaseMathExpr]; every operand that holds an expression (parentheses,
    call arguments, index and slice bounds) starts again with an
    [OrExpr]. *)
Theorem expression_trees_are_layered fuel st e st' :
  parseOrExpr fuel st = Ok e st' -> layered LOr e.
Proof. apply (expr_shapes_all fuel). Qed.

Lemma expression_trees_are_layered_witness : layered LOr sum_tree.
Proof.
  apply (expression_trees_are_layered 12 (reading toks_sum) sum_tree
           st_sum_read).
  vm_compute. reflexivity.
Defined.

(** ** Where a statement ends *)

Lemma ends_bind {A B} t (m : M A) (k : A -> M B) :
  (forall a, ends t (k a)) -> ends t (bind m k).
Proof.
  intros Hk st b st' H. apply bind_Ok in H as (a & st1 & _ & H).
  by eapply Hk.
Qed.

Lemma ends_bind_last {A B} t (m : M A) (k : A -> M B) :
  ends t m -> (forall a, keeps_current (k a)) -> ends t (bind m k).
Proof.
  intros Hm Hk st b st' H. apply bind_Ok in H as (a & st1 & Ha & H).
  rewrite (Hk _ _ _ _ H). by eapply Hm.
Qed.

Lemma accept_hit_current t d st st' :
  t <> T_EOF -> accept t d st = Ok true st' -> getType (current st') = t.
Proof.
  intros Hne H.
  by destruct (accept_consumes _ _ _ _ Hne H) as (tk & _ & <- & ->).
Qed.

Lemma ends_accept t : t <> T_EOF -> ends t (accept t THROW).
Proof.
  intros Hne st a st' H. destruct a; [by eapply accept_hit_current|].
  revert H. unfold accept. by destruct (decide _).
Qed.

Lemma keeps_current_bind {A B} (m : M A) (k : A -> M B) :
  keeps_current m -> (forall a, keeps_current (k a)) ->
  keeps_current (bind m k).
Proof.
  intros Hm Hk st b st' H. apply bind_Ok in H as (a & st1 & Ha & H).
  rewrite (Hk _ _ _ _ H). by eapply Hm.
Qed.

Lemma keeps_current_ret {A} (a : A) : keeps_current (ret a).
Proof. by intros st a' st' [= _ <-]. Qed.

Lemma keeps_current_findVariable x : keeps_current (findVariable x).
Proof.
  intros st r st'. unfold findVariable, bind, getBlock, Block.findVariable.
  destruct (block st); [|done].
  destruct (Block.findVariable_walk _ _ _ _); [|done]. by intros [= _ <-].
Qed.

Lemma keeps_current_setBlock ob : keeps_current (setBlock ob).
Proof. by intros st a st' [= _ <-]. Qed.

Lemma keeps_current_parentOf b : keeps_current (Block.parentOf b).
Proof.
  intros st a st'. unfold Block.parentOf.
  destruct (heap st !! b); [|done]. by intros [= _ <-].
Qed.

Lemma keeps_current_addStatement b s : keeps_current (Block.addStatement b s).
Proof. by intros st a st' [= _ <-]. Qed.

Lemma keeps_current_getBlock : keeps_current getBlock.
Proof.
  intros st a st'. unfold getBlock. destruct (block st); [|done].
  by intros [= _ <-].
Qed.

Ltac keeps_step :=
  match goal with
  | |- keeps_current (bind _ _) => apply keeps_current_bind; [|intros ?]
  | |- keeps_current (ret _) => apply keeps_current_ret
  | |- keeps_current (findVariable _) => apply keeps_current_findVariable
  | |- keeps_current (setBlock _) => apply keeps_current_setBlock
  | |- keeps_current (Block.parentOf _) => apply keeps_current_parentOf
  | |- keeps_current (Block.addStatement _ _) =>
      apply keeps_current_addStatement
  | |- keeps_current getBlock => apply keeps_current_getBlock
  end.

Ltac ends_step :=
  match goal with
  | |- ends _ (let _ := _ in _) => cbv zeta
  | |- ends ?t (bind (accept ?t THROW) _) =>
      apply ends_bind_last;
      [apply ends_accept; discriminate|intros ?; solve [repeat keeps_step]]
  | H : ends ?t ?m |- ends ?t (bind ?m _) =>
      apply ends_bind_last; [exact H|intros ?; solve [repeat keeps_step]]
  | H : forall a, ends ?t (?f a) |- ends ?t (bind (?f _) _) =>
      apply ends_bind_last; [apply H|intros ?; solve [repeat keeps_step]]
  | |- ends _ (bind _ _) => apply ends_bind; intros ?
  | |- ends _ (if ?b then _ else _) => destruct b
  | |- ends _ (match ?x with _ => _ end) => destruct x
  | H : ends ?t ?m |- ends ?t ?m => exact H
  | H : forall a, ends ?t (?f a) |- ends ?t (?f _) => apply H
  | |- ends _ (throw _) => by intros ? ? ?
  | |- ends _ out_of_fuel => by intros ? ? ?
  end.

Lemma ends_parseInitStatement n : ends T_Semicolon (parseInitStatement n).
Proof. unfold parseInitStatement. repeat ends_step. Qed.

Lemma ends_parseAssignStatement n v :
  ends T_Semicolon (parseAssignStatement n v).
Proof. unfold parseAssignStatement. repeat ends_step. Qed.

Lemma ends_parseAssignOrFunCall n :
  ends T_Semicolon (parseAssignOrFunCall n).
Proof.
  pose proof (ends_parseAssignStatement n).
  unfold parseAssignOrFunCall. repeat ends_step.
Qed.

Lemma ends_parseReturnStatement n :
  ends T_Semicolon (parseReturnStatement n).
Proof. unfold parseReturnStatement. repeat ends_step. Qed.

Lemma ends_parseAppendStatement : ends T_Semicolon parseAppendStatement.
Proof. unfold parseAppendStatement. repeat ends_step. Qed.

Lemma ends_parseNestedBlock t (parseBlock : BlockId -> M unit) :
  (forall b, ends t (parseBlock b)) -> ends t (parseNestedBlock parseBlock).
Proof.
  intros H. unfold parseNestedBlock. do 2 ends_step.
  apply ends_bind_last; [apply H|intros ?; apply keeps_current_ret].
Qed.

Lemma ends_then_optional {A B} t t' (m : M A) (k : A -> bool -> M B) :
  ends t m -> (forall a, ends t (k a true)) ->
  (forall a, keeps_current (k a false)) ->
  ends t (bind m (fun a => bind (accept t' NOTHROW) (k a))).
Proof.
  intros Hm Ht Hf st b st' H.
  apply bind_Ok in H as (a & st1 & Ha & H).
  apply bind_Ok in H as (hit & st2 & Hacc & H).
  destruct hit; [by eapply Ht|].
  apply accept_Ok_false in Hacc as [-> _].
  rewrite (Hf _ _ _ _ H). by eapply Hm.
Qed.

Lemma ends_loop_step n :
  ends T_CloseBrace (parseStmtBlock_loop n) ->
  ends T_CloseBrace (parseStmtBlock_loop (S n)).
Proof.
  intros IH st a st' H. simpl in H.
  apply bind_Ok in H as (closed & st1 & Hacc & H).
  destruct closed.
  - injection H as _ <-.
    by eapply accept_hit_current.
  - apply bind_Ok in H as (? & st2 & _ & H).
    apply bind_Ok in H as (cur & st3 & _ & H).
    apply bind_Ok in H as (? & st4 & _ & H). by eapply IH.
Qed.

Lemma block_ends_all n : block_ends n.
Proof.
  induction n as [|n IH]; unfold block_ends.
  - by split_and!; intros; intros ? ? ?.
  - destruct IH as (Hblock & Hloop & Hif & Hwhile).
    pose proof (ends_parseNestedBlock _ _ Hblock) as Hnested.
    split_and!.
    + intros b. simpl. repeat ends_step.
    + by apply ends_loop_step.
    + simpl. do 4 ends_step.
      apply (ends_then_optional _ _ _
               (fun ifBlock (hasElse : bool) =>
                  elseBlock <- (if hasElse then
                                  accept T_OpenBrace THROW ;;
                                  eb <- parseNestedBlock (parseStmtBlock n) ;;
                                  ret (Some eb)
                                else ret None) ;;
                  ret (IfStatement a0 ifBlock elseBlock)));
        [done| |intros; repeat keeps_step].
      intros ifBlock. cbv beta iota.
      apply ends_bind_last; [repeat ends_step|intros; repeat keeps_step].
    + simpl. repeat ends_step.
Qed.

(** X11. A statement parser returns right after the statement's last
    token: a declaration, an assignment, a call statement, a [return]
    and an [append] end with the [;] just read, an [if] and a [while]
    with the closing brace of their last block. *)
Theorem statements_end_at_their_terminator n st s st' :
  (parseInitStatement n st = Ok s st' \/
   parseAssignOrFunCall n st = Ok s st' \/
   parseReturnStatement n st = Ok s st' \/
   parseAppendStatement st = Ok s st' ->
   getType (current st') = T_Semicolon) /\
  (parseIfStatement n st = Ok s st' \/
   parseWhileStatement n st = Ok s st' ->
   getType (current st') = T_CloseBrace).
Proof.
  split.
  - intros [H|[H|[H|H]]].
    + by eapply ends_parseInitStatement.
    + by eapply ends_parseAssignOrFunCall.
    + by eapply ends_parseReturnStatement.
    + by eapply ends_parseAppendStatement.
  - pose proof (block_ends_all n) as (_ & _ & Hif & Hwhile).
    intros [H|H]; [by eapply Hif|by eapply Hwhile].
Qed.

Lemma statements_end_at_their_terminator_witness :
  getType (current (mkParser [] (tok T_Semicolon) (Some 0) ∅
                      [mkBlock None ∅ []])) = T_Semicolon.
Proof.
  apply (proj1 (statements_end_at_their_terminator 12
                  (reading [num 1; tok T_Plus; num 2; tok T_Semicolon])
                  (ReturnStatementExpr sum_tree)
                  (mkParser [] (tok T_Semicolon) (Some 0) ∅
                     [mkBlock None ∅ []]))).
  do 2 right. left. vm_compute. reflexivity.
Defined.

(** ** Parameter lists *)

Lemma addParam_Ok fd x st fd' st' :
  addParam fd x st = Ok fd' st' ->
  params fd' = params fd ++ [x] /\ fun_name fd' = fun_name fd /\
  scr st' = scr st /\ current st' = current st.
Proof.
  unfold addParam, bind, Block.addVariable, modify, ret.
  by intros [= <- <-].
Qed.

Lemma parseArgs_loop_Ok n fd st fd' st' :
  parseArgs_loop n fd st = Ok fd' st' ->
  exists toks xs,
    scr st = toks ++ scr st' /\ params fd' = params fd ++ xs /\
    fun_name fd' = fun_name fd /\ comma_identifiers toks xs.
Proof.
  revert fd st. induction n as [|n IH]; intros fd st; [done|].
  simpl. intros H. apply bind_Ok in H as ([] & st1 & Hcomma & H).
  - apply accept_consumes in Hcomma as (c & Hc & Htc & _); [|done].
    apply bind_Ok in H as ([] & st2 & Hid & H);
      [|by unfold accept in Hid; destruct (decide _)].
    apply accept_consumes in Hid as (t & Ht & Htt & Hcur); [|done].
    apply bind_Ok in H as (cur & st3 & [= <- <-] & H).
    apply bind_Ok in H as (fd1 & st4 & Hadd & H).
    apply addParam_Ok in Hadd as (Hps & Hname & Hscr & _).
    apply IH in H as (toks & xs & Hrest & Hps' & Hname' & Hshape).
    exists (c :: t :: toks), (getString t :: xs).
    split; [by rewrite Hc, Ht, <- Hscr, Hrest|].
    split; [by rewrite Hps', Hps, Hcur, <- app_assoc|].
    split; [congruence|by constructor].
  - apply accept_Ok_false in Hcomma as [-> _]. injection H as <- <-.
    exists [], []. split; [done|]. split; [by rewrite app_nil_r|].
    split; [done|constructor].
Qed.

(** X12. When [parseArgs] returns it has read [)] alone or
    [x , x ... )], identifiers separated by single commas, and has
    added exactly these names, in order, to the function's parameters;
    so [(a,)] and [(,a)] are not parameter lists, and the arity of the
    function is the number of identifiers read. *)
Theorem parameters_are_the_identifiers_read fuel fd st fd' st' :
  parseArgs fuel fd st = Ok fd' st' ->
  exists toks xs close,
    scr st = toks ++ close :: scr st' /\ getType close = T_CloseParen /\
    parameter_tokens toks xs /\
    params fd' = params fd ++ xs /\ fun_name fd' = fun_name fd /\
    size fd' = size fd + length xs.
Proof.
  unfold parseArgs. intros H.
  apply bind_Ok in H as (some & st1 & Hid & H).
  apply bind_Ok in H as (fd1 & st2 & Hargs & H).
  apply bind_Ok in H as ([] & st3 & Hclose & H);
    [|by unfold accept in Hclose; destruct (decide _)].
  injection H as <- <-.
  apply accept_consumes in Hclose as (close & Hc & Htc & _); [|done].
  destruct some.
  - apply accept_consumes in Hid as (t & Ht & Htt & Hcur); [|done].
    apply bind_Ok in Hargs as (cur & st4 & [= <- <-] & H).
    apply bind_Ok in H as (fd2 & st5 & Hadd & H).
    apply addParam_Ok in Hadd as (Hps & Hname & Hscr & _).
    apply parseArgs_loop_Ok in H
      as (mid & rest & Hrest & Hps' & Hname' & Hshape).
    exists (t :: mid), (getString t :: rest), close.
    split; [by rewrite Ht, <- Hscr, Hrest, Hc|]. split; [done|].
    split; [split; [done|by exists rest]|].
    assert (Hall : params fd1 = params fd ++ getString t :: rest).
    { by rewrite Hps', Hps, Hcur, <- app_assoc. }
    split; [done|]. split; [congruence|].
    unfold size. by rewrite Hall, length_app.
  - apply accept_Ok_false in Hid as [-> _]. injection Hargs as <- <-.
    exists [], [], close. rewrite app_nil_r. simpl.
    by split_and!.
Qed.

Lemma parameters_are_the_identifiers_read_witness :
  exists toks xs close,
    [ident "a"; tok T_Comma; ident "b"; tok T_CloseParen; tok T_OpenBrace]
      = toks ++ close :: [tok T_OpenBrace] /\
    getType close = T_CloseParen /\ parameter_tokens toks xs /\
    ["a"; "b"] = [] ++ xs /\ "f" = "f" /\ 2 = 0 + length xs.
Proof.
  apply (parameters_are_the_identifiers_read 2 (mkFun "f" [] 0)
           (st_header [ident "a"; tok T_Comma; ident "b";
                       tok T_CloseParen; tok T_OpenBrace])
           (mkFun "f" ["a"; "b"] 0)
           (mkParser [tok T_OpenBrace] (tok T_CloseParen) None ∅
              [mkBlock None {["a" := defaultVar; "b" := defaultVar]} []])).
  vm_compute. reflexivity.
Defined.

(** ** What a successful parse leaves *)

Lemma parseFunctionHeader_root n st fd st1 :
  parseFunctionHeader n st = Ok fd st1 ->
  getParent <$> heap st1 !! getFunctionBlock fd = Some None.
Proof.
  unfold parseFunctionHeader. intros H.
  apply bind_Ok in H as (? & st2 & _ & H).
  apply bind_Ok in H as (cur & st3 & _ & H).
  apply bind_Ok in H as (fn & st4 & Hmake & H).
  apply bind_Ok in H as (? & st5 & Hopen & H).
  pose proof (parseArgs_block _ _ _ _ _ H) as Hblk.
  apply (stmt_spec_Ok _ _ _ _ (stmt_spec_parseArgs n fn)) in H as (Hext & _).
  apply (expr_spec_Ok _ _ _ _ (expr_spec_accept _ _)) in Hopen
    as (_ & _ & Hh).
  unfold makeFunctionDefinition, bind, Block.make, ret in Hmake.
  injection Hmake as <- <-. simpl in Hblk, Hh. rewrite Hblk.
  apply (extends_lookup _ _ _ (mkBlock None ∅ []) Hext).
  rewrite Hh, lookup_app_r by lia. by rewrite Nat.sub_diag.
Qed.

Lemma parseFunction_Ok fuel st a st' :
  parseFunction fuel st = Ok a st' ->
  getType (current st') = T_CloseBrace /\ block st' = None.
Proof.
  intros H. split.
  - pose proof (block_ends_all fuel) as (Hblock & _).
    revert H. generalize st a st'.
    fold (ends T_CloseBrace (parseFunction fuel)).
    unfold parseFunction. repeat ends_step.
  - rewrite parseFunction_unfold in H.
    destruct (parseFunctionHeader fuel st) as [fd st1|e st1|] eqn:Hhdr;
      [|done|done].
    apply parseFunctionHeader_root in Hhdr.
    apply bind_Ok in H as (? & st2 & Hopen & H).
    apply (expr_spec_Ok _ _ _ _ (expr_spec_accept _ _)) in Hopen
      as (_ & _ & Hh).
    pose proof (block_spec_parseStmtBlock fuel (getFunctionBlock fd) st2)
      as Hbody.
    rewrite H in Hbody. destruct Hbody as (_ & Hcur & _).
    rewrite Hh in Hcur. simpl in Hcur.
    destruct (heap st1 !! getFunctionBlock fd) as [blk|]; [|done].
    injection Hhdr as Hpar. rewrite (Hcur blk eq_refl). done.
Qed.

(** X13. A parse that succeeds has read the whole input: the lookahead
    is the end of input; and unless nothing was read at all, the token
    read last is the closing brace of the last function and the cursor
    is on no block. *)
Theorem successful_parse_has_read_everything fuel st st' :
  parseProgram fuel st = Ok tt st' ->
  getType (getToken st') = T_EOF /\
  (st' = st \/ getType (current st') = T_CloseBrace /\ block st' = None).
Proof.
  revert st. induction fuel as [|n IH]; intros st; [done|].
  simpl. unfold bind at 1, gets. destruct (decide _) as [Hmore|Hmore].
  - unfold bind at 1, accept. destruct (decide _) as [Hfun|Hfun].
    + unfold bind at 1.
      destruct (parseFunction n _) as [[] st1|e1 st1|] eqn:Hf; [|done|done].
      intros H. apply IH in H as (Heof & [->|Hlast]); [|by auto].
      split; [done|]. right. by eapply parseFunction_Ok.
    + unfold bind at 1, ret. apply IH.
  - intros [= <-]. split; [|by left].
    by destruct (decide (getType (getToken st) = T_EOF)).
Qed.

Lemma successful_parse_has_read_everything_witness :
  getType (getToken st_empty_function) = T_EOF /\
  (st_empty_function = init prog_empty_function \/
   getType (current st_empty_function) = T_CloseBrace /\
   block st_empty_function = None).
Proof.
  apply (successful_parse_has_read_everything 10 (init prog_empty_function)
           st_empty_function).
  vm_compute. reflexivity.
Defined.

(** ** Assignments *)

(** X14. The two overloads of [AssignStatement] in
    [parseAssignStatement]: the local [bracket] is assigned only when
    an index is read.  When the target is followed by [[] the statement
    is the indexed one, its index wrapped in an [OrExpr]; otherwise
    there is no index and the overload is chosen on a flag no statement
    has assigned.  The right-hand side is wrapped in an [OrExpr] in both
    cases. *)
Theorem assignment_flag_is_set_only_with_an_index n v st s st' :
  parseAssignStatement n v st = Ok s st' ->
  exists br idx e,
    s = AssignStatement v br idx (OrExpr e []) /\ layered LOr e /\
    if decide (getType (getToken st) = T_OpenBracket)
    then br = Some true /\ exists i, idx = Some (OrExpr i []) /\ layered LOr i
    else br = None /\ idx = None.
Proof.
  unfold parseAssignStatement. intros H.
  apply bind_Ok in H as (open & st1 & Hopen & H).
  apply bind_Ok in H as (idx & st2 & Hidx & H).
  apply bind_Ok in H as (? & st3 & _ & H).
  apply bind_Ok in H as (e & st4 & He & H).
  apply bind_Ok in H as (? & st5 & _ & H). injection H as <- <-.
  apply (expr_shapes_all n) in He.
  exists (if open then Some true else None), idx, e.
  split; [done|]. split; [done|].
  destruct open.
  - unfold accept in Hopen. destruct (decide _) as [Hb|Hb]; [|done].
    split; [done|].
    apply bind_Ok in Hidx as (i & st6 & Hi & H).
    apply bind_Ok in H as (? & st7 & _ & H). injection H as <- <-.
    apply (expr_shapes_all n) in Hi. by exists i.
  - apply accept_Ok_false in Hopen as [-> Hb].
    destruct (decide _) as [|_]; [done|]. by injection Hidx as <- _.
Qed.

Lemma assignment_flag_is_set_only_with_an_index_witness :
  exists br idx e,
    AssignStatement (mkRef 0 "x") None None sum_tree_wrapped
      = AssignStatement (mkRef 0 "x") br idx (OrExpr e []) /\
    layered LOr e /\
    if decide (getType (getToken (reading toks_assigned_sum)) = T_OpenBracket)
    then br = Some true /\ exists i, idx = Some (OrExpr i []) /\ layered LOr i
    else br = None /\ idx = None.
Proof.
  apply (assignment_flag_is_set_only_with_an_index 12 (mkRef 0 "x")
           (reading toks_assigned_sum) _
           (mkParser [] (tok T_Semicolon) (Some 0) ∅ [mkBlock None ∅ []])).
  vm_compute. reflexivity.
Defined.

(** ** Expressions have no side effect *)

(** X15. Reading an expression only moves the scanner: whether
    [parseOrExpr] returns or throws, the cursor, the function table and
    every block are as they were. *)
Theorem expressions_only_read_tokens fuel st st' :
  final_state (parseOrExpr fuel st) = Some st' ->
  block st' = block st /\ program st' = program st /\ heap st' = heap st.
Proof.
  pose proof (expr_spec_parseOrExpr fuel st) as H.
  destruct (parseOrExpr fuel st) as [e st1|e st1|]; [| |done].
  - by intros [= <-].
  - intros [= <-]. apply H.
Qed.

Lemma expressions_only_read_tokens_witness :
  block st_sum_read = block (reading toks_sum) /\
  program st_sum_read = program (reading toks_sum) /\
  heap st_sum_read = heap (reading toks_sum).
Proof.
  apply (expressions_only_read_tokens 12 (reading toks_sum) st_sum_read).
  vm_compute. reflexivity.
Defined.
